(** * Rent converter userscripts: price detection, rewriting and change loop

    A shallow embedding of the three userscripts of the repository:
    - the realestate.co.nz script (NZD per week to USD per month, in-place
      rewrite, cached rate, mutation observer and fallback sweep);
    - the realestate.com.au script (AUD, sibling annotation label);
    - the earlier realestate.com.au variant (same candidates, unrounded
      amount formatted with zero fraction digits).

    JavaScript strings are sequences of UTF-16 code units, numbers are
    IEEE 754 binary64 values (Rocq's primitive floats), the DOM is a tree
    of element and text nodes whose identity is a numeric id. *)

From Stdlib Require Import ZArith NArith List Bool Lia Ascii String Sorted.
From Stdlib Require Import PrimFloat FloatOps SpecFloat.
Import ListNotations.

Set Implicit Arguments.
Set Warnings "-inexact-float,-abstract-large-number,-register-all".

(** ** JavaScript built-ins used by the scripts *)

Module Js.

(** A code unit of a JavaScript string. *)
Definition char := N.
Definition jsstring := list char.

(** [lit "abc"] is the JavaScript string literal ['abc'] (Latin-1 source text). *)
Definition lit (s : string) : jsstring :=
  List.map N_of_ascii (list_ascii_of_string s).

Definition DOLLAR : char := 36%N.
Definition COMMA : char := 44%N.
Definition NBSP : char := 160%N.        (* U+00A0, no-break space *)
Definition MIDDLE_DOT : char := 183%N.  (* U+00B7, middle dot *)

Definition jsstring_eqb (a b : jsstring) : bool :=
  if list_eq_dec N.eq_dec a b then true else false.

(** [\d] *)
Definition is_digit (c : char) : bool := ((48 <=? c) && (c <=? 57))%N.

(** [[\d,]] *)
Definition is_amount_char (c : char) : bool := is_digit c || (c =? COMMA)%N.

(** [\s]: WhiteSpace and LineTerminator code points; also the set that
    [String.prototype.trim] and [parseInt] strip. It contains U+00A0, so
    the class [[\s\u00a0]] of the source is the same set. *)
Definition is_space (c : char) : bool :=
  existsb (N.eqb c)
    [9; 10; 11; 12; 13; 32; 160; 5760; 8232; 8233; 8239; 8287; 12288; 65279]%N
  || ((8192 <=? c) && (c <=? 8202))%N.

(** Canonicalisation of the [i] flag (no [u] flag): upper-casing. Against
    the ASCII pattern text of the scripts only ASCII letters can match,
    since a code unit above 127 never canonicalises into ASCII. *)
Definition canonicalize (c : char) : char :=
  if ((97 <=? c) && (c <=? 122))%N then (c - 32)%N else c.

Definition char_eqb_ci (a b : char) : bool :=
  (canonicalize a =? canonicalize b)%N.

(** Maximal prefix of [s] whose code units satisfy [p], and the rest:
    a greedy [p*]. *)
Fixpoint span (p : char -> bool) (s : jsstring) : jsstring * jsstring :=
  match s with
  | [] => ([], [])
  | c :: t =>
      if p c then let (a, b) := span p t in (c :: a, b) else ([], s)
  end.

Definition dropWhile (p : char -> bool) (s : jsstring) : jsstring :=
  snd (span p s).

(** Matches the literal [pat] case-insensitively at the start of [s];
    gives the matched text and what follows. *)
Fixpoint prefix_ci (pat s : jsstring) : option (jsstring * jsstring) :=
  match pat with
  | [] => Some ([], s)
  | p :: pat' =>
      match s with
      | [] => None
      | c :: t =>
          if char_eqb_ci p c then
            match prefix_ci pat' t with
            | Some (m, rest) => Some (c :: m, rest)
            | None => None
            end
          else None
      end
  end.

(** [s.trim()] *)
Definition trimStart (s : jsstring) : jsstring := dropWhile is_space s.
Definition trim (s : jsstring) : jsstring :=
  rev (dropWhile is_space (rev (trimStart s))).

(** [s.replace(/,/g, '')] *)
Definition removeCommas (s : jsstring) : jsstring :=
  filter (fun c => negb (c =? COMMA)%N) s.

(** [s.includes(sub)] *)
Fixpoint startsWith (sub s : jsstring) : bool :=
  match sub, s with
  | [], _ => true
  | _ :: _, [] => false
  | a :: sub', c :: t => (a =? c)%N && startsWith sub' t
  end.

Fixpoint includes (s sub : jsstring) : bool :=
  startsWith sub s ||
  match s with
  | [] => false
  | _ :: t => includes t sub
  end.

(** [s.toLowerCase()], on the code units whose lower case is an ASCII
    letter (A-Z and the Kelvin sign); the other code units never become
    one of the letters the scripts look for and are left as they are. *)
Definition toLowerChar (c : char) : char :=
  if ((65 <=? c) && (c <=? 90))%N then (c + 32)%N
  else if (c =? 8490)%N then 107%N
  else c.

Definition toLowerCase (s : jsstring) : jsstring := List.map toLowerChar s.

(** *** Numbers *)

Definition number := float.

(** The Number value of a mathematical integer (round to nearest, ties
    to even; overflow gives an infinity). *)
Definition of_Z (z : Z) : number :=
  SF2Prim (binary_normalize prec emax z 0 false).

Definition isNaN (x : number) : bool := negb (x =? x)%float.

(** ToBoolean of a Number: false for NaN, +0 and -0. *)
Definition truthy_number (x : number) : bool :=
  negb (isNaN x) && negb (x =? 0)%float.

Definition two52 : number := 4503599627370496%float.

(** Greatest integral Number not above [x]; [x] itself when it is
    integral, infinite or NaN. *)
Definition floor (x : number) : number :=
  if (abs x <? two52)%float then
    let r := if (0 <=? x)%float then ((x + two52) - two52)%float
             else ((x - two52) + two52)%float in
    if (x <? r)%float then (r - 1)%float else r
  else x.

(** [Math.round]: the integral Number closest to [x], the one nearer to
    +infinity on a tie; -0 for [x] in [-0.5, -0]; [x] itself when it is
    integral, infinite or NaN. *)
Definition Math_round (x : number) : number :=
  let f := floor x in
  if (x =? f)%float then x
  else if negb (x =? x)%float then x
  else
    let r := if (x - f <? 0.5)%float then f else (f + 1)%float in
    if (r =? 0)%float && (x <? 0)%float then (-0)%float else r.

Definition digit_val (c : char) : Z := Z.of_N (c - 48)%N.

Definition digits_val (ds : jsstring) : Z :=
  fold_left (fun acc c => (acc * 10 + digit_val c)%Z) ds 0%Z.

(** The mathematical integer read by [parseInt(s, 10)]: leading white
    space is skipped, a sign is read, then the longest prefix of decimal
    digits; [None] (NaN) when that prefix is empty. The flag tells a
    leading minus sign. *)
Definition parseInt_parts (s : jsstring) : option (bool * Z) :=
  let s1 := trimStart s in
  let (neg, s2) :=
    match s1 with
    | c :: t => if (c =? 45)%N then (true, t)
                else if (c =? 43)%N then (false, t) else (false, s1)
    | [] => (false, s1)
    end in
  match fst (span is_digit s2) with
  | [] => None
  | ds => Some (neg, digits_val ds)
  end.

(** [parseInt(s, 10)] as a mathematical integer, [None] for NaN. *)
Definition parseIntZ (s : jsstring) : option Z :=
  match parseInt_parts s with
  | Some (neg, v) => Some (if neg then (- v)%Z else v)
  | None => None
  end.

(** [parseInt(s, 10)] as a Number. *)
Definition parseInt (s : jsstring) : number :=
  match parseInt_parts s with
  | Some (neg, v) => if neg then (- of_Z v)%float else of_Z v
  | None => nan
  end.

(** [parseInt(g.replace(/,/g, ''), 10)] together with the outcome of
    [isNaN] on it: [None] when the result is NaN. [parseInt] gives NaN
    exactly when it reads no digit; what it reads from digits is a finite
    Number or an infinity. *)
Definition parseAmount (g : jsstring) : option number :=
  match parseInt_parts (removeCommas g) with
  | Some _ => Some (parseInt (removeCommas g))
  | None => None
  end.

(** [parseFloat] on the strings the Australian variants give it: the text
    captured by [[\d,]+] with its commas removed, that is, decimal digits
    only (possibly none). The parsed prefix is then the whole string and
    its value the integer it spells. *)
Definition parseFloat_digits (s : jsstring) : number := parseInt s.

(** *** Locale formatting (en-US and en-NZ agree on all of this) *)

Fixpoint decimal_digits (fuel : nat) (n : Z) (acc : jsstring) : jsstring :=
  match fuel with
  | O => acc
  | S fuel' =>
      let acc' := (48 + Z.to_N (n mod 10))%N :: acc in
      if (n <? 10)%Z then acc' else decimal_digits fuel' (n / 10)%Z acc'
  end.

(** Decimal digits of a non-negative integer, most significant first. *)
Definition digits_of_Z (n : Z) : jsstring :=
  decimal_digits (S (Z.to_nat (Z.log2 n))) n [].

(** [String(n)] for an integer Number [n]. *)
Definition string_of_Z (n : Z) : jsstring :=
  if (n <? 0)%Z then 45%N :: digits_of_Z (- n) else digits_of_Z n.

(** Inserts the grouping separator every three digits; [ds] holds the
    digits from the least significant one, [k] counts the digits left in
    the current group. *)
Fixpoint group_rev (ds : jsstring) (k : nat) : jsstring :=
  match ds with
  | [] => []
  | d :: t =>
      match k, t with
      | 1, _ :: _ => d :: COMMA :: group_rev t 3
      | _, _ => d :: group_rev t (pred k)
      end
  end.

Definition grouped (n : Z) : jsstring :=
  rev (group_rev (rev (digits_of_Z n)) 3).

(** The integer nearest to [m * 2^e * 10^f], ties away from zero
    (the default rounding of [Intl.NumberFormat]); [m >= 0]. *)
Definition scaled_round (m e : Z) (f : nat) : Z :=
  let n := (m * 10 ^ Z.of_nat f)%Z in
  if (0 <=? e)%Z then (n * 2 ^ e)%Z
  else
    let d := (2 ^ (- e))%Z in
    let q := (n / d)%Z in
    if (d <=? 2 * (n mod d))%Z then (q + 1)%Z else q.

Fixpoint strip_trailing_zeros_rev (ds : jsstring) : jsstring :=
  match ds with
  | c :: t => if (c =? 48)%N then strip_trailing_zeros_rev t else ds
  | [] => []
  end.

Fixpoint pad_left (k : nat) (ds : jsstring) : jsstring :=
  match k with
  | O => ds
  | S k' => if Nat.ltb (List.length ds) k then 48%N :: pad_left k' ds else ds
  end.

(** Magnitude of a finite number with at most [f] fraction digits and
    grouped integer digits. *)
Definition format_magnitude (m e : Z) (f : nat) : jsstring :=
  let n := scaled_round m e f in
  let p := (10 ^ Z.of_nat f)%Z in
  let ip := grouped (n / p)%Z in
  let fr := rev (strip_trailing_zeros_rev
                   (rev (pad_left f (digits_of_Z (n mod p)%Z)))) in
  match fr with
  | [] => ip
  | _ => ip ++ 46%N :: fr
  end.

(** [x.toLocaleString(locale, { maximumFractionDigits: f })] with a
    prefix (the currency sign) between the minus sign and the digits.
    The digits are those of the exact value of [x]; the platform prints
    the same digits for every Number of magnitude up to 2^53 (above, it
    prints the shortest digits that read back as [x], padded with
    zeros). *)
Definition format_number (sym : jsstring) (f : nat) (x : number) : jsstring :=
  match Prim2SF x with
  | S754_nan => sym ++ lit "NaN"
  | S754_infinity s => (if s then [45%N] else []) ++ sym ++ [8734%N]
  | S754_zero s => (if s then [45%N] else []) ++ sym ++ [48%N]
  | S754_finite s m e =>
      (if s then [45%N] else []) ++ sym ++ format_magnitude (Zpos m) e f
  end.

(** [x.toLocaleString('en-US')], [x.toLocaleString('en-NZ')] *)
Definition toLocaleString (x : number) : jsstring := format_number [] 3 x.

(** [x.toLocaleString('en-US', { style: 'currency', currency: 'USD',
    maximumFractionDigits: 0 })] *)
Definition toLocaleString_USD0 (x : number) : jsstring :=
  format_number [DOLLAR] 0 x.

End Js.

(** ** Values, abrupt completions and the storage *)

Module Rt.
Import Js.

(** The values that can reach a [rate] variable: what [JSON.parse] and
    [res.json()] produce, and [undefined] for a missing property. *)
Inductive value : Type :=
| VUndefined
| VNull
| VBool (b : bool)
| VNumber (x : number)
| VString (s : jsstring)
| VArray (items : list value)
| VObject (fields : list (string * value)).

(** ToBoolean *)
Definition truthy (v : value) : bool :=
  match v with
  | VUndefined | VNull => false
  | VBool b => b
  | VNumber x => truthy_number x
  | VString s => match s with [] => false | _ :: _ => true end
  | VArray _ | VObject _ => true
  end.

Inductive exn : Type :=
| TypeError | SyntaxError | NetworkError | SecurityError
| QuotaExceededError | HierarchyRequestError.

Inductive completion (A : Type) : Type :=
| Normal (a : A)
| Throw (e : exn).
Arguments Throw {A} e.

Fixpoint field (name : string) (fs : list (string * value)) : value :=
  match fs with
  | [] => VUndefined
  | (k, v) :: t => if String.eqb k name then v else field name t
  end.

(** [v.name] for the names [rates] and [USD], which no prototype
    defines: a TypeError on [undefined] and [null], the own property of
    an object, [undefined] on anything else. *)
Definition getProp (v : value) (name : string) : completion value :=
  match v with
  | VUndefined | VNull => Throw TypeError
  | VObject fs => Normal (field name fs)
  | _ => Normal VUndefined
  end.

(** [localStorage]: its entries, whether reading and writing go through
    or throw (storage denied), and its quota: the room, counted in code
    units of keys and values, that the entries may take. A write that
    would take more room throws and leaves the entries as they are. *)
Record storage : Type := mkStorage {
  items : list (string * jsstring);
  readable : bool;
  writable : bool;
  quota : N
}.

(** Computations that read and write the storage and may throw. *)
Definition M (A : Type) : Type := storage -> completion A * storage.

Definition ret {A : Type} (a : A) : M A := fun st => (Normal a, st).

Definition throw {A : Type} (e : exn) : M A := fun st => (Throw e, st).

Definition bind {A B : Type} (c : M A) (k : A -> M B) : M B :=
  fun st =>
    match c st with
    | (Normal a, st') => k a st'
    | (Throw e, st') => (Throw e, st')
    end.

(** [try { c } catch (e) { h(e) }] *)
Definition try_catch {A : Type} (c : M A) (h : exn -> M A) : M A :=
  fun st =>
    match c st with
    | (Normal a, st') => (Normal a, st')
    | (Throw e, st') => h e st'
    end.

Definition lift {A : Type} (c : completion A) : M A := fun st => (c, st).

Notation "x <- c ;; k" := (bind c (fun x => k))
  (at level 61, c at next level, right associativity).

Fixpoint assoc (k : string) (l : list (string * jsstring)) : option jsstring :=
  match l with
  | [] => None
  | (k', v) :: t => if String.eqb k' k then Some v else assoc k t
  end.

Fixpoint assoc_set (k : string) (v : jsstring) (l : list (string * jsstring))
  : list (string * jsstring) :=
  match l with
  | [] => [(k, v)]
  | (k', w) :: t =>
      if String.eqb k' k then (k', v) :: t else (k', w) :: assoc_set k v t
  end.

(** [localStorage.getItem(k)]: [None] is [null]. *)
Definition getItem (k : string) : M (option jsstring) :=
  fun st =>
    if readable st then (Normal (assoc k (items st)), st)
    else (Throw SecurityError, st).

(** The room the entries take. *)
Definition usage (l : list (string * jsstring)) : N :=
  fold_right
    (fun kv acc => (N.of_nat (String.length (fst kv)) + N.of_nat (List.length (snd kv)) + acc)%N)
    0%N l.

(** The storage after a write of [v] under [k] that has gone through. *)
Definition stored (k : string) (v : jsstring) (st : storage) : storage :=
  mkStorage (assoc_set k v (items st)) (readable st) (writable st) (quota st).

(** Whether a write of [v] under [k] goes through: writing is allowed
    and the entries still fit the quota with it. *)
Definition accepts (k : string) (v : jsstring) (st : storage) : bool :=
  writable st && (usage (assoc_set k v (items st)) <=? quota st)%N.

(** [localStorage.setItem(k, v)]: each call goes through or throws on
    its own, so of two calls the second can throw after the first has
    written. *)
Definition setItem (k : string) (v : jsstring) : M unit :=
  fun st =>
    if accepts k v st then (Normal tt, stored k v st)
    else (Throw QuotaExceededError, st).

(** ToString of a storage entry handed to a parser: [null] reads as the
    text null. *)
Definition item_text (o : option jsstring) : jsstring :=
  match o with Some s => s | None => lit "null" end.

End Rt.

(** ** The regular expressions of the scripts

    Each pattern is a recogniser anchored at one position; [exec] tries
    the positions from left to right, as [RegExp.prototype.exec] does.
    In every pattern of the scripts a greedy repetition is followed by
    something its own class excludes, so giving back code units on
    backtracking never produces a match: the greedy run is the only
    candidate at a position. *)

Module Re.
Import Js.

(** Result of a successful match: the text before it, the matched text,
    the first capture group and the text after it. *)
Record rmatch : Type := mkMatch {
  before : jsstring;
  matched : jsstring;
  group1 : jsstring;
  after : jsstring
}.

(** Anchored recogniser: matched text, capture, rest. *)
Definition matcher : Type := jsstring -> option (jsstring * jsstring * jsstring).

Fixpoint exec_from (m : matcher) (pre_rev s : jsstring) : option rmatch :=
  match m s with
  | Some (mt, g, rest) => Some (mkMatch (rev pre_rev) mt g rest)
  | None =>
      match s with
      | [] => None
      | c :: t => exec_from m (c :: pre_rev) t
      end
  end.

(** [re.exec(s)] / [s.match(re)] for a pattern without the [g] flag. *)
Definition exec (m : matcher) (s : jsstring) : option rmatch := exec_from m [] s.

(** [re.test(s)] *)
Definition test (m : matcher) (s : jsstring) : bool :=
  match exec m s with Some _ => true | None => false end.

(** [/\$([\d,]+)/] at one position. *)
Definition amount_here : matcher := fun s =>
  match s with
  | c :: t =>
      if (c =? DOLLAR)%N then
        match span is_amount_char t with
        | ([], _) => None
        | (g, rest) => Some (c :: g, g, rest)
        end
      else None
  | [] => None
  end.

Definition PER_WEEK : jsstring := lit "per week".

(** [PRICE_REGEX] at one position: a dollar sign, one or more digits or
    commas (captured), any white space or U+00A0, then the words per week
    in any letter case. *)
Definition price_here : matcher := fun s =>
  match amount_here s with
  | Some (m1, g, r) =>
      let (ws, r1) := span is_space r in
      match prefix_ci PER_WEEK r1 with
      | Some (pw, rest) => Some (m1 ++ ws ++ pw, g, rest)
      | None => None
      end
  | None => None
  end.

(** The sidebar test: only white space (or U+00A0) around the words
    per week, in any letter case, from the start to the end of the text. *)
Definition perWeekOnly_sidebar (s : jsstring) : bool :=
  match prefix_ci PER_WEEK (dropWhile is_space s) with
  | Some (_, r) =>
      match dropWhile is_space r with [] => true | _ :: _ => false end
  | None => false
  end.

(** The split-layout test: white space, an optional group of U+00A0 and
    more white space, the words per week, white space, end of text. The
    optional group is tried where the greedy white space run stopped. *)
Definition perWeekOnly_split (s : jsstring) : bool :=
  let r0 := dropWhile is_space s in
  let r1 := match r0 with
            | c :: t => if (c =? NBSP)%N then dropWhile is_space t else r0
            | [] => r0
            end in
  match prefix_ci PER_WEEK r1 with
  | Some (_, r) =>
      match dropWhile is_space r with [] => true | _ :: _ => false end
  | None => false
  end.

(** [s.replace(re, () => replacement)]: the first match is replaced by
    the text as it is. *)
Definition replace_fn (m : matcher) (s replacement : jsstring) : jsstring :=
  match exec m s with
  | Some r => before r ++ replacement ++ after r
  | None => s
  end.

(** GetSubstitution for a pattern with one capture group and no named
    groups: [$$], [$&], [$`], [$'], [$1] and [$01] are expanded, a
    two-digit reference above the group count is read as a one-digit one
    followed by a digit, any other [$] stands for itself. *)
Fixpoint getSubstitution (r : rmatch) (tpl : jsstring) : jsstring :=
  match tpl with
  | [] => []
  | c :: t =>
      if negb (c =? DOLLAR)%N then c :: getSubstitution r t
      else
        match t with
        | [] => [c]
        | d :: t' =>
            if (d =? DOLLAR)%N then DOLLAR :: getSubstitution r t'
            else if (d =? 38)%N then matched r ++ getSubstitution r t'
            else if (d =? 96)%N then before r ++ getSubstitution r t'
            else if (d =? 39)%N then after r ++ getSubstitution r t'
            else if is_digit d then
              match t' with
              | d2 :: t'' =>
                  if is_digit d2 && (d =? 48)%N then
                    (* two digits, index 00 or 0n *)
                    if (d2 =? 49)%N then group1 r ++ getSubstitution r t''
                    else c :: d :: d2 :: getSubstitution r t''
                  else if (d =? 49)%N then group1 r ++ getSubstitution r t'
                  else c :: d :: getSubstitution r t'
              | [] =>
                  if (d =? 49)%N then group1 r else [c; d]
              end
            else c :: getSubstitution r t
        end
  end.

(** [s.replace(re, replacement)] with a replacement string. *)
Definition replace_str (m : matcher) (s replacement : jsstring) : jsstring :=
  match exec m s with
  | Some r => before r ++ getSubstitution r replacement ++ after r
  | None => s
  end.

End Re.

(** ** The document tree *)

Module Dom.
Import Js.

Definition attrs : Type := list (string * jsstring).

(** Nodes carry an id standing for the object identity of the DOM node.
    Comments and other node kinds do not take part in [textContent],
    the tree walkers or the selectors and are left out. *)
Inductive node : Type :=
| Text (id : nat) (data : jsstring)
| Element (id : nat) (tag : string) (attributes : attrs) (childNodes : list node).

Definition node_id (n : node) : nat :=
  match n with Text i _ => i | Element i _ _ _ => i end.

Definition is_text (n : node) : bool :=
  match n with Text _ _ => true | Element _ _ _ _ => false end.

Definition is_element (n : node) : bool := negb (is_text n).

Definition node_attrs (n : node) : attrs :=
  match n with Text _ _ => [] | Element _ _ a _ => a end.

Fixpoint getAttribute (name : string) (a : attrs) : option jsstring :=
  match a with
  | [] => None
  | (k, v) :: t => if String.eqb k name then Some v else getAttribute name t
  end.

Fixpoint setAttribute (name : string) (v : jsstring) (a : attrs) : attrs :=
  match a with
  | [] => [(name, v)]
  | (k, w) :: t =>
      if String.eqb k name then (k, v) :: t else (k, w) :: setAttribute name v t
  end.

(** Truthiness of [el.dataset.x]: the attribute [data-x] is present and
    its value is not the empty string. *)
Definition dataset_truthy (name : string) (n : node) : bool :=
  match getAttribute name (node_attrs n) with
  | Some (_ :: _) => true
  | _ => false
  end.

(** [node.textContent] *)
Fixpoint textContent (n : node) : jsstring :=
  match n with
  | Text _ d => d
  | Element _ _ _ cs => flat_map textContent cs
  end.

(** The node and its descendants in document order. *)
Fixpoint subtree (n : node) : list node :=
  n :: match n with
       | Text _ _ => []
       | Element _ _ _ cs => flat_map subtree cs
       end.

Definition descendants (n : node) : list node :=
  match n with
  | Text _ _ => []
  | Element _ _ _ cs => flat_map subtree cs
  end.

(** [createTreeWalker(root, SHOW_TEXT)] walked to the end. *)
Definition textNodes (root : node) : list node := filter is_text (descendants root).

(** [createTreeWalker(root, SHOW_ELEMENT)] walked to the end, and
    [root.querySelectorAll('*')]. *)
Definition elementsUnder (root : node) : list node :=
  filter is_element (descendants root).

(** The ids of a tree are pairwise distinct, as object identities are. *)
Fixpoint distinct (l : list nat) : bool :=
  match l with
  | [] => true
  | x :: t => negb (existsb (Nat.eqb x) t) && distinct t
  end.

Definition distinctIds (n : node) : bool :=
  distinct (List.map node_id (subtree n)).

(** The node [i] of the tree [root]. *)
Definition lookup (i : nat) (root : node) : option node :=
  find (fun n => Nat.eqb (node_id n) i) (subtree root).

(** The first of the nodes [l] below which [f] finds a path, with [h]
    put in front of that path. *)
Definition firstPath (f : node -> option (list node)) (h : node)
  : list node -> option (list node) :=
  fix go (l : list node) : option (list node) :=
    match l with
    | [] => None
    | c :: t =>
        match f c with
        | Some p => Some (h :: p)
        | None => go t
        end
    end.

(** Nodes from [n] down to the node [i], both included. *)
Fixpoint pathTo (i : nat) (n : node) : option (list node) :=
  if Nat.eqb (node_id n) i then Some [n]
  else
    match n with
    | Text _ _ => None
    | Element _ _ _ cs => firstPath (pathTo i) n cs
    end.

(** The node [i], its parent, the parent of that, and so on up to
    [root]: what following [parentElement] from the node visits inside
    the tree [root]. Empty when the node is not in the tree. *)
Definition ancestorsOrSelf (root : node) (i : nat) : list node :=
  match pathTo i root with
  | Some p => rev p
  | None => []
  end.

(** [node.parentElement] inside the tree [root]. *)
Definition parentElement (root : node) (i : nat) : option node :=
  match ancestorsOrSelf root i with
  | _ :: parent :: _ => Some parent
  | _ => None
  end.

(** Applies [f] to the node [i]. *)
Fixpoint update (i : nat) (f : node -> node) (n : node) : node :=
  if Nat.eqb (node_id n) i then f n
  else
    match n with
    | Text _ _ => n
    | Element j t a cs => Element j t a (List.map (update i f) cs)
    end.

(** [textNode.textContent = s] *)
Definition setText (i : nat) (s : jsstring) (root : node) : node :=
  update i (fun n => match n with
                     | Text j _ => Text j s
                     | Element _ _ _ _ => n
                     end) root.

(** [el.setAttribute(name, v)] *)
Definition setAttr (i : nat) (name : string) (v : jsstring) (root : node) : node :=
  update i (fun n => match n with
                     | Text _ _ => n
                     | Element j t a cs => Element j t (setAttribute name v a) cs
                     end) root.

(** [f] applied to the nodes of [l] that [keep] holds of; the others are
    left out. *)
Definition keepMap (keep : node -> bool) (f : node -> node)
  : list node -> list node :=
  fix go (l : list node) : list node :=
    match l with
    | [] => []
    | c :: r => if keep c then f c :: go r else go r
    end.

(** [for (const child of [...el.querySelectorAll('*')])
       if (p(child.textContent)) child.remove()]
    The snapshot lists an element before its descendants, and removing
    a node changes the text of its ancestors only, so every element is
    tested on the text it had when the loop started; what is removed
    below an already removed element no longer belongs to the tree. *)
Fixpoint prune (p : jsstring -> bool) (n : node) : node :=
  match n with
  | Text _ _ => n
  | Element j t a cs =>
      Element j t a
        (keepMap (fun c => negb (is_element c && p (textContent c))) (prune p) cs)
  end.

End Dom.

(** ** The realestate.co.nz script *)

Module Nzd.
Import Js Rt Re Dom.

(** *** Exchange rate, cached in the storage *)

Definition CACHE_KEY_RATE : string := "nzd_usd_rate".
Definition CACHE_KEY_TIME : string := "nzd_usd_rate_time".
Definition CACHE_TTL_MS : Z := 60 * 60 * 1000.
Definition FALLBACK_RATE : number := 0.59%float.
Definition DEBOUNCE_MS : Z := 200.

(** What the request for the rate comes to: [fetch] rejects, the body
    is not JSON, or the body parses to [data]. *)
Inductive response : Type :=
| NetworkFailure
| BodyNotJson
| Body (data : value).

Section RateProvider.

(** [parseFloat] on a stored text and ToString of the value handed to
    [setItem]: conversions between Numbers and decimal text, left to
    the platform. *)
Variable parseFloat : jsstring -> number.
Variable toString : value -> jsstring.

(** [time && Date.now() - time < CACHE_TTL_MS]. [Date.now()] is an
    integer below 2^53, so the test on Numbers is the test on the
    integers: rounding [time] to a Number is monotone and leaves
    [Date.now() - CACHE_TTL_MS] where it is. *)
Definition fresh (now : Z) (time : option Z) : bool :=
  match time with
  | Some t => negb (t =? 0)%Z && (now - t <? CACHE_TTL_MS)%Z
  | None => false
  end.

(** The resolved value of the promise, [None] for [null]. *)
Definition getCachedRate (now : Z) : M (option number) :=
  try_catch
    (r <- getItem CACHE_KEY_RATE ;;
     t <- getItem CACHE_KEY_TIME ;;
     let rate := parseFloat (item_text r) in
     let time := parseIntZ (item_text t) in
     if truthy_number rate && fresh now time then ret (Some rate)
     else ret None)
    (fun _ => ret None).

Definition fetch_json (resp : response) : completion value :=
  match resp with
  | NetworkFailure => Throw NetworkError
  | BodyNotJson => Throw SyntaxError
  | Body data => Normal data
  end.

(** [data.rates && data.rates.USD] *)
Definition rates_USD (data : value) : completion value :=
  match getProp data "rates" with
  | Normal rates => if truthy rates then getProp rates "USD" else Normal rates
  | Throw e => Throw e
  end.

Definition fetchRate (resp : response) (now : Z) : M value :=
  try_catch
    (data <- lift (fetch_json resp) ;;
     rate <- lift (rates_USD data) ;;
     if truthy rate then
       _ <- setItem CACHE_KEY_RATE (toString rate) ;;
       _ <- setItem CACHE_KEY_TIME (string_of_Z now) ;;
       ret rate
     else ret (VNumber FALLBACK_RATE))
    (fun _ => ret (VNumber FALLBACK_RATE)).

(** [getCachedRate() ?? (await fetchRate())]; [resp] is what the
    request comes to if it is made, [now] and [later] are the clock
    readings of the cache test and of the cache write. *)
Definition getRate (resp : response) (now later : Z) : M value :=
  cached <- getCachedRate now ;;
  match cached with
  | Some rate => ret (VNumber rate)
  | None => fetchRate resp later
  end.

End RateProvider.

(** *** Price conversion *)

Definition PRICE_REGEX : matcher := price_here.
Definition PRICE_AMOUNT_REGEX : matcher := amount_here.

Definition nzdPerWeekToUsdPerMonth (nzd rate : number) : number :=
  Math_round ((nzd * 52) / 12 * rate)%float.

Definition formatUsd (amount : number) : jsstring :=
  lit "US$" ++ toLocaleString amount.

(** The template [$<nzd, en-NZ>/wk <middle dot> <formatUsd(usd)>/mo]. *)
Definition priceLabel (nzd usd : number) : jsstring :=
  lit "$" ++ toLocaleString nzd ++ lit "/wk " ++ [MIDDLE_DOT] ++ lit " "
    ++ formatUsd usd ++ lit "/mo".

Definition CONVERTED_ATTR : string := "data-nzd-converted".

(** [node.dataset && node.dataset.nzdConverted] *)
Definition nzdConverted (n : node) : bool := dataset_truthy CONVERTED_ATTR n.

(** [el.dataset.nzdConverted = 'true'] *)
Definition markConverted (el : nat) (root : node) : node :=
  setAttr el CONVERTED_ATTR (lit "true") root.

(** [el.matches('[data-test="price-display__price-method"]')] *)
Definition matchesSel (n : node) : bool :=
  is_element n &&
  match getAttribute "data-test" (node_attrs n) with
  | Some v => jsstring_eqb v (lit "price-display__price-method")
  | None => false
  end.

Definition containers (root : node) : list node :=
  if matchesSel root then [root]
  else if is_element root then filter matchesSel (descendants root)
  else [].

Definition hasAmount (n : node) : bool :=
  is_text n && test PRICE_AMOUNT_REGEX (textContent n).

(** One iteration of the loop of [transformPriceDisplayElements], on the
    container [el] of the snapshot, in the tree as it is by then. A
    container that an earlier iteration removed from the tree held
    nothing but the words per week, so its iteration finds no amount
    node and changes nothing. *)
Definition sidebar_step (rate : number) (root : node) (el : nat) : node :=
  match lookup el root with
  | Some (Element _ _ _ cs as e) =>
      if nzdConverted e then root
      else
        match find hasAmount cs with
        | None => root
        | Some amountNode =>
            match exec PRICE_AMOUNT_REGEX (textContent amountNode) with
            | None => root
            | Some m =>
                match parseAmount (group1 m) with
                | None => root
                | Some nzd =>
                    let usd := nzdPerWeekToUsdPerMonth nzd rate in
                    let root1 := markConverted el root in
                    let root2 := setText (node_id amountNode)
                                   (priceLabel nzd usd ++ lit " ") root1 in
                    update el (prune perWeekOnly_sidebar) root2
                end
            end
        end
  | _ => root
  end.

Definition transformPriceDisplayElements (root : node) (rate : number) : node :=
  fold_left (sidebar_step rate) (List.map node_id (containers root)) root.

(** [hasConvertedAncestor(el, root.parentElement)], given the nodes its
    loop visits: [el], its parent, and so on up to [root], where the walk
    stops. *)
Definition hasConvertedAncestor (chain : list node) : bool :=
  existsb nzdConverted chain.

(** Pass 1, the body of [textNodes.forEach]. *)
Definition pass1_step (rate : number) (root : node) (tn : nat) : node :=
  match lookup tn root with
  | Some (Text _ data) =>
      if negb (test PRICE_REGEX data) then root
      else
        let parent := parentElement root tn in
        if hasConvertedAncestor (tl (ancestorsOrSelf root tn)) then root
        else
          match exec PRICE_REGEX data with
          | None => root
          | Some m =>
              match parseAmount (group1 m) with
              | None => root
              | Some nzd =>
                  let usdPerMonth := nzdPerWeekToUsdPerMonth nzd rate in
                  let replacement := priceLabel nzd usdPerMonth in
                  let root1 := match parent with
                               | Some p => markConverted (node_id p) root
                               | None => root
                               end in
                  setText tn (replace_fn PRICE_REGEX data replacement) root1
              end
          end
  | _ => root
  end.

Definition hasFullMatch (e : node) : bool :=
  existsb (fun n => test PRICE_REGEX (textContent n)) (textNodes e).

(** Pass 2, the body of the loop over [candidateEls]. A candidate that
    an earlier iteration removed from the tree holds no dollar sign, so
    its iteration stops at the test of its text. *)
Definition pass2_step (rate : number) (root : node) (el : nat) : node :=
  match lookup el root with
  | Some (Element _ _ _ _ as e) =>
      if hasConvertedAncestor (ancestorsOrSelf root el) then root
      else if negb (test PRICE_REGEX (textContent e)) then root
      else if hasFullMatch e then root
      else
        let allTextNodes := textNodes e in
        if Nat.ltb 6 (List.length allTextNodes) then root
        else
          match find (fun n => test PRICE_AMOUNT_REGEX (textContent n)) allTextNodes with
          | None => root
          | Some priceNode =>
              match exec PRICE_AMOUNT_REGEX (textContent priceNode) with
              | None => root
              | Some amountMatch =>
                  match parseAmount (group1 amountMatch) with
                  | None => root
                  | Some nzd =>
                      let usdPerMonth := nzdPerWeekToUsdPerMonth nzd rate in
                      let replacement := priceLabel nzd usdPerMonth in
                      let root1 := markConverted el root in
                      let root2 :=
                        setText (node_id priceNode)
                          (replace_str PRICE_AMOUNT_REGEX (textContent priceNode)
                             replacement) root1 in
                      update el (prune perWeekOnly_split) root2
                  end
              end
          end
  | _ => root
  end.

Definition pass1 (rate : number) (root : node) : node :=
  fold_left (pass1_step rate) (List.map node_id (textNodes root)) root.

Definition candidateEls (root : node) : list node :=
  (if is_element root then [root] else []) ++ elementsUnder root.

Definition pass2 (rate : number) (root : node) : node :=
  fold_left (pass2_step rate) (List.map node_id (candidateEls root)) root.

(** [transformSubtree(root, rate)], on the subtree [root]: nothing above
    [root] is read or written. *)
Definition transformSubtree (root : node) (rate : number) : node :=
  pass2 rate (pass1 rate (transformPriceDisplayElements root rate)).

(** [transformSubtree(r, rate)] for the node [r] of the document. A root
    that has left the document by then is transformed on its own and the
    document is not touched. *)
Definition transformAt (rate : number) (doc : node) (r : nat) : node :=
  update r (fun n => transformSubtree n rate) doc.

(** *** The change loop of [initWithRate]

    Time is the reading of [Date.now()], in milliseconds. A timer fires
    when the clock reaches its due time. The transformations of the
    script itself never add an element to the tree, so they put no root
    into a later batch. *)

Definition SWEEP_INTERVAL_MS : Z := 1500.
Definition SWEEP_IDLE_MS : Z := 10000.

(** Calls of [transformSubtree] made by the loop, for the record. *)
Inductive scan : Type :=
| DebouncedScan (now : Z) (roots : list nat)
| SweepScan (now : Z).

Record loop : Type := mkLoop {
  doc : node;                       (* document.body *)
  timer : option (Z * list nat);    (* pending timeout of debouncedTransform: due time, argument *)
  lastScrollTime : Z;
  nextSweep : Z;                    (* due time of the next interval tick *)
  scans : list scan                 (* newest first *)
}.

(** What the page does: it changes the document and the observer is
    called back with the added nodes of each mutation record, or the
    window is scrolled. *)
Inductive event : Type :=
| Mutations (now : Z) (doc' : node) (records : list (list node))
| Scroll (now : Z).

Definition event_time (e : event) : Z :=
  match e with Mutations t _ _ => t | Scroll t => t end.

Section ChangeLoop.

Variable rate : number.

(** The body of [initWithRate] once [document.body] exists. *)
Definition initWithRate (body : node) (now : Z) : loop :=
  mkLoop (transformSubtree body rate) None now (now + SWEEP_INTERVAL_MS) [].

(** The element nodes among the added nodes of all the records. *)
Definition newRoots (records : list (list node)) : list nat :=
  List.map node_id (filter is_element (List.concat records)).

(** [debounce(fn, DEBOUNCE_MS)] called with [roots]:
    [clearTimeout(timer); timer = setTimeout(() => fn(roots), ms)]. *)
Definition debouncedTransform (now : Z) (roots : list nat) (s : loop) : loop :=
  mkLoop (doc s) (Some (now + DEBOUNCE_MS, roots)%Z)
         (lastScrollTime s) (nextSweep s) (scans s).

(** The observer callback. *)
Definition onMutations (now : Z) (doc' : node) (records : list (list node))
           (s : loop) : loop :=
  let s' := mkLoop doc' (timer s) (lastScrollTime s) (nextSweep s) (scans s) in
  match newRoots records with
  | [] => s'
  | roots => debouncedTransform now roots s'
  end.

(** The scroll listener. *)
Definition onScroll (now : Z) (s : loop) : loop :=
  mkLoop (doc s) (timer s) now (nextSweep s) (scans s).

(** The timeout fires: [roots.forEach((root) => transformSubtree(root, rate))]. *)
Definition fireTimeout (due : Z) (roots : list nat) (s : loop) : loop :=
  mkLoop (fold_left (transformAt rate) roots (doc s)) None
         (lastScrollTime s) (nextSweep s) (DebouncedScan due roots :: scans s).

(** A tick of the sweep interval at the time [now]. *)
Definition sweepTick (now : Z) (s : loop) : loop :=
  if (SWEEP_IDLE_MS <? now - lastScrollTime s)%Z
  then mkLoop (doc s) (timer s) (lastScrollTime s)
              (nextSweep s + SWEEP_INTERVAL_MS)%Z (scans s)
  else mkLoop (transformSubtree (doc s) rate) (timer s) (lastScrollTime s)
              (nextSweep s + SWEEP_INTERVAL_MS)%Z (SweepScan now :: scans s).

(** Fires, in the order of their due times, the timers due by [t]. *)
Fixpoint advance_fuel (fuel : nat) (t : Z) (s : loop) : loop :=
  match fuel with
  | O => s
  | S fuel' =>
      match timer s with
      | Some (due, roots) =>
          if (due <=? t)%Z && (due <=? nextSweep s)%Z
          then advance_fuel fuel' t (fireTimeout due roots s)
          else if (nextSweep s <=? t)%Z
               then advance_fuel fuel' t (sweepTick (nextSweep s) s)
               else s
      | None =>
          if (nextSweep s <=? t)%Z
          then advance_fuel fuel' t (sweepTick (nextSweep s) s)
          else s
      end
  end.

Definition advance (t : Z) (s : loop) : loop :=
  advance_fuel (Z.to_nat ((t - nextSweep s) / SWEEP_INTERVAL_MS) + 2) t s.

Definition handle (s : loop) (e : event) : loop :=
  let s' := advance (event_time e) s in
  match e with
  | Mutations now doc' records => onMutations now doc' records s'
  | Scroll now => onScroll now s'
  end.

(** The loop from its start at [t0] through [events] up to the time [horizon]. *)
Definition run (body : node) (t0 : Z) (events : list event) (horizon : Z) : loop :=
  advance horizon (fold_left handle events (initWithRate body t0)).

End ChangeLoop.

End Nzd.

(** ** The realestate.com.au scripts

    The maintained script and its earlier variant differ in the text of
    the label only: the first rounds the monthly amount with [Math.round],
    the second hands the unrounded amount to the formatter. *)

Module Aud.
Import Js Rt Re Dom.

Definition FALLBACK_RATE : number := 0.67%float.
Definition DEBOUNCE_MS : Z := 400.
Definition CONVERTED_ATTR : string := "data-converted".
Definition CONVERTED_CLASS : jsstring := lit "rea-rent-converted".
(** The text assigned to [label.style.cssText]. The platform keeps its
    own serialisation of these declarations in the [style] attribute; no
    selector or pattern of the scripts reads that attribute. *)
Definition LABEL_STYLE : jsstring :=
  lit "font-size: 0.78em;color: #555;font-weight: normal;margin-top: 2px;line-height: 1.3;font-family: inherit".

(** *** Selectors *)

Definition is_ascii_ws (c : char) : bool :=
  existsb (N.eqb c) [9; 10; 12; 13; 32]%N.

(** The tokens of a [class] attribute. *)
Fixpoint split_ws (s cur_rev : jsstring) : list jsstring :=
  match s with
  | [] => match cur_rev with [] => [] | _ :: _ => [rev cur_rev] end
  | c :: t =>
      if is_ascii_ws c then
        match cur_rev with
        | [] => split_ws t []
        | _ :: _ => rev cur_rev :: split_ws t []
        end
      else split_ws t (c :: cur_rev)
  end.

(** [.cls] *)
Definition hasClass (cls : string) (n : node) : bool :=
  match getAttribute "class" (node_attrs n) with
  | Some v => existsb (jsstring_eqb (lit cls)) (split_ws v [])
  | None => false
  end.

(** [[class*="sub"]] *)
Definition classContains (sub : string) (n : node) : bool :=
  match getAttribute "class" (node_attrs n) with
  | Some v => includes v (lit sub)
  | None => false
  end.

Definition matchesNamed (n : node) : bool :=
  is_element n &&
  (hasClass "property-price" n || hasClass "property-info__price" n
   || hasClass "property-price__price" n
   || classContains "HeadlineText" n || classContains "PropertyPrice" n).

(** [p, span, div]; the tag of a node is its local name. *)
Definition isPSpanDiv (n : node) : bool :=
  match n with
  | Text _ _ => false
  | Element _ t _ _ => String.eqb t "p" || String.eqb t "span" || String.eqb t "div"
  end.

(** [document.querySelectorAll(...)]: every element of the document,
    the root element included, in document order. *)
Definition allElements (doc : node) : list node := filter is_element (subtree doc).

Definition isTextFallback (el : node) : bool :=
  isPSpanDiv el
  && negb (existsb isPSpanDiv (descendants el))
  && test amount_here (textContent el)
  && includes (toLowerCase (textContent el)) (lit "per week").

Definition candidates (doc : node) : list nat :=
  List.map node_id
    (filter matchesNamed (allElements doc) ++ filter isTextFallback (allElements doc)).

(** *** Conversion and label *)

Section Conversion.

(** ToNumber of a string, an array or an object, left to the platform. *)
Variable coerce : value -> number.

Definition toNumber (v : value) : number :=
  match v with
  | VNumber x => x
  | VBool true => 1%float
  | VBool false | VNull => 0%float
  | VUndefined => nan
  | VString _ | VArray _ | VObject _ => coerce v
  end.

Definition audPerWeekToUsdPerMonth (audToUsdRate : value) (aud : number) : number :=
  Math_round ((aud * 52) / 12 * toNumber audToUsdRate)%float.

Definition formatUsd (amount : number) : jsstring := toLocaleString_USD0 amount.

(** The label text of the maintained script. *)
Definition labelText (audToUsdRate : value) (weeklyAud : number) : jsstring :=
  lit "~" ++ formatUsd (audPerWeekToUsdPerMonth audToUsdRate weeklyAud)
    ++ lit " USD/month".

(** The label text of the earlier variant. *)
Definition labelText_legacy (audToUsdRate : value) (weeklyAud : number) : jsstring :=
  let monthlyUsd := ((weeklyAud * 52) / 12 * toNumber audToUsdRate)%float in
  lit "~" ++ toLocaleString_USD0 monthlyUsd ++ lit " USD/month".

End Conversion.

(** *** DOM transformation *)

Definition maxId (n : node) : nat :=
  fold_left Nat.max (List.map node_id (subtree n)) 0.

(** Inserts [new] as the next sibling of the node [i]. *)
Fixpoint insertAfter (i : nat) (new : node) (n : node) : node :=
  match n with
  | Text _ _ => n
  | Element j t a cs =>
      Element j t a
        ((fix go (l : list node) : list node :=
            match l with
            | [] => []
            | c :: r =>
                if Nat.eqb (node_id c) i then c :: new :: r
                else insertAfter i new c :: go r
            end) cs)
  end.

Section Page.

(** The label text for a rate and a weekly amount: [labelText] or
    [labelText_legacy]. *)
Variable labelOf : value -> number -> jsstring.

(** [insertConversionLabel(el, weeklyAud)]. The new nodes get ids not
    in use. The parent of the root element is the document, which
    takes no second element child. *)
Definition insertConversionLabel (rate : value) (doc : node) (el : nat)
           (weeklyAud : number) : completion node :=
  let k := S (maxId doc) in
  let label :=
    Element k "div" [("class"%string, CONVERTED_CLASS); ("style"%string, LABEL_STYLE)]
            [Text (S k) (labelOf rate weeklyAud)] in
  if Nat.eqb (node_id doc) el then Throw HierarchyRequestError
  else Normal (setAttr el CONVERTED_ATTR (lit "true") (insertAfter el label doc)).

(** The amount a candidate is converted from, if it is: the first
    dollar amount of its trimmed text, when it parses above 50. *)
Definition weeklyAmount (e : node) : option number :=
  match exec amount_here (trim (textContent e)) with
  | None => None
  | Some m =>
      let weeklyAud := parseFloat_digits (removeCommas (group1 m)) in
      if negb (isNaN weeklyAud) && (50 <? weeklyAud)%float then Some weeklyAud
      else None
  end.

(** One iteration of the loop over the candidates; [seen] is the set
    of the same name. *)
Definition candidate_step (rate : value) (doc : node) (seen : list nat) (el : nat)
  : node * list nat * option exn :=
  match lookup el doc with
  | Some e =>
      if existsb (Nat.eqb el) seen || dataset_truthy CONVERTED_ATTR e
      then (doc, seen, None)
      else
        match weeklyAmount e with
        | Some weeklyAud =>
            match insertConversionLabel rate doc el weeklyAud with
            | Normal doc' => (doc', el :: seen, None)
            | Throw x => (doc, el :: seen, Some x)
            end
        | None => (doc, el :: seen, None)
        end
  | None => (doc, seen, None)
  end.

Fixpoint convert_loop (rate : value) (cands : list nat) (doc : node) (seen : list nat)
  : node * option exn :=
  match cands with
  | [] => (doc, None)
  | el :: rest =>
      match candidate_step rate doc seen el with
      | (doc', seen', None) => convert_loop rate rest doc' seen'
      | (doc', _, Some x) => (doc', Some x)
      end
  end.

(** [convertPricesOnPage()]: the document afterwards, and the
    exception that ended the loop, if one did. *)
Definition convertPricesOnPage (rate : value) (doc : node) : node * option exn :=
  convert_loop rate (candidates doc) doc [].

(** *** Exchange rate *)

Record page : Type := mkPage {
  audToUsdRate : value;
  document : node
}.

(** [data && data.rates && data.rates.USD] *)
Definition rates_USD (data : value) : value :=
  if truthy data then
    match getProp data "rates" with
    | Normal rates =>
        if truthy rates then
          match getProp rates "USD" with
          | Normal usd => usd
          | Throw _ => VUndefined
          end
        else rates
    | Throw _ => VUndefined
    end
  else data.

(** The [onload] callback of the rate request; [parsed] is the outcome
    of [JSON.parse(response.responseText)]. Whatever is thrown inside
    is caught and logged. *)
Definition onload (parsed : completion value) (p : page) : page :=
  match parsed with
  | Throw _ => p
  | Normal data =>
      let usd := rates_USD data in
      if truthy usd
      then mkPage usd (fst (convertPricesOnPage usd (document p)))
      else p
  end.

(** The start of the script: the rate is the fallback, the request is
    under way, the page is converted once. *)
Definition start (doc : node) : page :=
  mkPage (VNumber FALLBACK_RATE)
         (fst (convertPricesOnPage (VNumber FALLBACK_RATE) doc)).

End Page.

End Aud.

(** * Properties *)

Import Js Rt Re Dom.

(** ** Conversion *)

(** The value of a finite Number as an integer, when it is one. *)
Definition integer_value (x : number) : option Z :=
  match Prim2SF x with
  | S754_zero _ => Some 0%Z
  | S754_finite s m e =>
      if (0 <=? e)%Z then Some ((if s then -1 else 1) * Zpos m * 2 ^ e)%Z
      else if (Zpos m mod 2 ^ (- e) =? 0)%Z
           then Some ((if s then -1 else 1) * (Zpos m / 2 ^ (- e)))%Z
           else None
  | _ => None
  end.

(** The integer nearest to [amount * 52 / 12 * num / den] in exact
    arithmetic, the upper one on a tie. *)
Definition exact_monthly (amount num den : Z) : Z :=
  ((2 * amount * 52 * num + 12 * den) / (2 * 12 * den))%Z.

(** ** Reading the rate provider *)

Module RateSpec.
Import Nzd.

(** The cached rate as [getCachedRate] parses it. *)
Definition cachedRate (parseFloat : jsstring -> number) (st : storage) : number :=
  parseFloat (item_text (assoc CACHE_KEY_RATE (items st))).

Definition cachedTime (st : storage) : option Z :=
  parseIntZ (item_text (assoc CACHE_KEY_TIME (items st))).

(** A usable cached rate exists and is younger than the freshness window:
    the storage can be read, the rate entry parses to a Number other than
    NaN and 0, the time entry parses to an integer other than 0 and less
    than [CACHE_TTL_MS] before [now]. *)
Definition cacheHit (parseFloat : jsstring -> number) (st : storage) (now : Z) : bool :=
  readable st && truthy_number (cachedRate parseFloat st) && fresh now (cachedTime st).

(** The rate a response delivers: the value of [rates.USD] when the
    request succeeds, the body is JSON and the field is there and truthy;
    [None] on a network error, a malformed body or a missing field. *)
Definition delivered (resp : response) : option value :=
  match fetch_json resp with
  | Normal data =>
      match rates_USD data with
      | Normal rate => if truthy rate then Some rate else None
      | Throw _ => None
      end
  | Throw _ => None
  end.

(** The storage with the rate persisted at the time [now]. *)
Definition persisted (toString : value -> jsstring) (rate : value) (now : Z)
           (st : storage) : storage :=
  mkStorage
    (assoc_set CACHE_KEY_TIME (string_of_Z now)
       (assoc_set CACHE_KEY_RATE (toString rate) (items st)))
    (readable st) (writable st) (quota st).

(** Both cache writes of [fetchRate] go through: the rate entry, and
    then the time entry. *)
Definition writesBoth (toString : value -> jsstring) (rate : value) (now : Z)
           (st : storage) : bool :=
  accepts CACHE_KEY_RATE (toString rate) st
  && accepts CACHE_KEY_TIME (string_of_Z now) (stored CACHE_KEY_RATE (toString rate) st).

(** A response whose [rates.USD] is the number [x]. *)
Definition rateResponse (x : number) : response :=
  Body (VObject [("rates"%string, VObject [("USD"%string, VNumber x)])]).

(** The room of the examples: five million code units. *)
Definition ROOM : N := 5000000.

Definition emptyStorage : storage := mkStorage [] true true ROOM.

(** A storage that can be read and holds nothing, and whose writes throw. *)
Definition fullStorage : storage := mkStorage [] true false ROOM.

(** A storage that holds nothing and has room for the rate entry, but
    not for the rate entry and the time entry. *)
Definition tightStorage : storage := mkStorage [] true true 20.

(** Stand-ins for the platform conversions, for the examples. *)
Definition noParse (s : jsstring) : number := nan.
Definition noText (v : value) : jsstring := lit "?".

End RateSpec.

(** ** Reading the change loop *)

Module LoopSpec.
Import Nzd.

(** The times of the fallback sweeps in a record of scans, newest first. *)
Definition sweepTimes (l : list scan) : list Z :=
  flat_map (fun a => match a with SweepScan t => [t] | DebouncedScan _ _ => [] end) l.

(** The debounced re-scans in a record of scans, newest first. *)
Definition debounced (l : list scan) : list scan :=
  filter (fun a => match a with DebouncedScan _ _ => true | SweepScan _ => false end) l.

(** The events come in the order of their times, none before [t]. *)
Fixpoint sorted_from (t : Z) (events : list event) : Prop :=
  match events with
  | [] => True
  | e :: r => (t <= event_time e)%Z /\ sorted_from (event_time e) r
  end.

(** The time of the last scroll event among [events] that comes before
    the time [t]; the start of the loop [t0] when there is none. A scroll
    event at the very time of a tick is observed after the tick. *)
Definition lastScroll (t0 : Z) (events : list event) (t : Z) : Z :=
  fold_left (fun acc e =>
               match e with
               | Scroll s => if (s <? t)%Z then s else acc
               | Mutations _ _ _ => acc
               end) events t0.

(** The time of the last scroll event among [events], [t0] when there is
    none. *)
Definition latestScroll (t0 : Z) (events : list event) : Z :=
  fold_left (fun acc e =>
               match e with
               | Scroll s => s
               | Mutations _ _ _ => acc
               end) events t0.

(** The time of the last of [events], [t0] when there is none. *)
Definition lastTime (t0 : Z) (events : list event) : Z :=
  fold_left (fun _ e => event_time e) events t0.

(** Any two sweeps of the record are at least one interval apart. *)
Definition spaced (times : list Z) : Prop :=
  StronglySorted (fun a b => (SWEEP_INTERVAL_MS <= a - b)%Z) times.

(** What is due by [t] in the state [s]: the sweep ticks and the timeout. *)
Definition due_count (t : Z) (s : loop) : Z :=
  ((if (nextSweep s <=? t)%Z then (t - nextSweep s) / SWEEP_INTERVAL_MS + 1 else 0)
   + match timer s with
     | Some (due, _) => if (due <=? t)%Z then 1 else 0
     | None => 0
     end)%Z.

(** The sweeps of the record are spaced, and the next tick is at least
    one interval after each of them. *)
Definition settled (s : loop) : Prop :=
  spaced (sweepTimes (scans s))
  /\ Forall (fun x => (x + SWEEP_INTERVAL_MS <= nextSweep s)%Z) (sweepTimes (scans s)).

(** After the events [handled]: the scroll time of the state is that of
    the last scroll event, the next tick is due after the last event, and
    every sweep of the record happened by [bound] and at most
    [SWEEP_IDLE_MS] after the last scroll event before it. *)
Definition idle_ok (t0 : Z) (handled : list event) (bound : Z) (s : loop) : Prop :=
  lastScrollTime s = latestScroll t0 handled
  /\ (lastTime t0 handled < nextSweep s)%Z
  /\ (t0 + SWEEP_INTERVAL_MS <= nextSweep s)%Z
  /\ Forall (fun t => (t <= bound)%Z
                      /\ (t0 + SWEEP_INTERVAL_MS <= t)%Z
                      /\ (t - lastScroll t0 handled t <= SWEEP_IDLE_MS)%Z)
            (sweepTimes (scans s)).

(** Mutation events that each add at least one element and follow the
    one before (at the time [prev]) by less than the debounce window. *)
Fixpoint is_burst (prev : Z) (events : list event) : Prop :=
  match events with
  | [] => True
  | Mutations now _ records :: r =>
      (prev <= now < prev + DEBOUNCE_MS)%Z /\ newRoots records <> [] /\ is_burst now r
  | Scroll _ :: _ => False
  end.

(** The time and the added element roots of the last event of a burst
    that starts with an event at [prev] adding [roots]. *)
Fixpoint burstEnd (prev : Z) (roots : list nat) (events : list event) : Z * list nat :=
  match events with
  | Mutations now _ records :: r => burstEnd now (newRoots records) r
  | _ => (prev, roots)
  end.

(** The timeout is pending and nothing was re-scanned, or it has fired
    and its re-scan is the only one. *)
Definition pending_or_fired (due : Z) (roots : list nat) (s : loop) : Prop :=
  (timer s = Some (due, roots) /\ debounced (scans s) = [])
  \/ (timer s = None /\ debounced (scans s) = [DebouncedScan due roots]).

End LoopSpec.

(** ** Induction on the document tree *)

Section NodeInduction.

Variable P : node -> Prop.
Hypothesis HText : forall i d, P (Text i d).
Hypothesis HElement : forall i t a cs, Forall P cs -> P (Element i t a cs).

Fixpoint node_induction (n : node) : P n :=
  match n with
  | Text i d => HText i d
  | Element i t a cs =>
      HElement i t a
        ((fix go (l : list node) : Forall P l :=
            match l with
            | [] => Forall_nil P
            | c :: r => Forall_cons c (node_induction c) (go r)
            end) cs)
  end.

End NodeInduction.

(** ** Example documents *)

Module Examples.
Import Nzd.

Definition el (i : nat) (tag : string) (cs : list node) : node := Element i tag [] cs.

Definition marked : attrs := [(CONVERTED_ATTR, lit "true")].

Definition sidebar : attrs := [("data-test"%string, lit "price-display__price-method")].

(** [<body><p>$900 <i>per week</i></p><u>a</u><u>b</u><u>c</u>
    <b>$20</b> per week</body>]: a split price in a compact element,
    and a second amount whose qualifier is a bare text node of the body.
    The body holds seven text nodes. *)
Definition listing : node :=
  el 0 "body"
    [ el 1 "p" [Text 2 (lit "$900 "); el 3 "i" [Text 4 (lit "per week")]];
      el 5 "u" [Text 6 (lit "a")];
      el 7 "u" [Text 8 (lit "b")];
      el 9 "u" [Text 10 (lit "c")];
      el 11 "b" [Text 12 (lit "$20")];
      Text 13 (lit " per week") ].

(** The listing after one full pass: the split price is rewritten, its
    element is marked and the qualifier element is gone; six text nodes
    are left. *)
Definition listing_once : node :=
  el 0 "body"
    [ Element 1 "p" marked
        [Text 2 (lit "$900/wk " ++ [MIDDLE_DOT] ++ lit " US$2,301/mo ")];
      el 5 "u" [Text 6 (lit "a")];
      el 7 "u" [Text 8 (lit "b")];
      el 9 "u" [Text 10 (lit "c")];
      el 11 "b" [Text 12 (lit "$20")];
      Text 13 (lit " per week") ].

(** The listing after a second full pass: the body is now the anchor,
    and the text converted by the first pass is converted again. *)
Definition listing_twice : node :=
  Element 0 "body" marked
    [ Element 1 "p" marked
        [Text 2 (lit "$900/wk " ++ [MIDDLE_DOT] ++ lit " US$2,301/mo/wk "
                   ++ [MIDDLE_DOT] ++ lit " US$2,301/mo ")];
      el 5 "u" [Text 6 (lit "a")];
      el 7 "u" [Text 8 (lit "b")];
      el 9 "u" [Text 10 (lit "c")];
      el 11 "b" [Text 12 (lit "$20")];
      Text 13 (lit " per week") ].

(** [<body><div>$0 per week</div></body>] *)
Definition zero_rent : node :=
  el 0 "body" [el 1 "div" [Text 2 (lit "$0 per week")]].

Definition zero_rent_converted : node :=
  el 0 "body"
    [Element 1 "div" marked
       [Text 2 (lit "$0/wk " ++ [MIDDLE_DOT] ++ lit " US$0/mo")]].

(** [<div data-nzd-converted="true">$400/wk ... <p>$500 per week</p></div>]
    inside the body: an element converted earlier into which the page has
    since put a new paragraph, the node 3. *)
Definition late_insertion : node :=
  el 0 "body"
    [ Element 1 "div" marked
        [ Text 2 (lit "$400/wk " ++ [MIDDLE_DOT] ++ lit " US$1,023/mo");
          el 3 "p" [Text 4 (lit "$500 per week")] ] ].

Definition late_insertion_scanned : node :=
  el 0 "body"
    [ Element 1 "div" marked
        [ Text 2 (lit "$400/wk " ++ [MIDDLE_DOT] ++ lit " US$1,023/mo");
          Element 3 "p" marked
            [Text 4 (lit "$500/wk " ++ [MIDDLE_DOT] ++ lit " US$1,278/mo")] ] ].

(** A marked element holding a full price text and a split price. *)
Definition marked_widget : node :=
  Element 1 "div" marked
    [ Text 2 (lit "$500 per week");
      el 3 "p" [Text 4 (lit "$760 "); el 5 "i" [Text 6 (lit "per week")]] ].

(** Seven text nodes whose combined text is a split price. *)
Definition wide_widget : node :=
  el 1 "div"
    [ el 2 "b" [Text 3 (lit "$760")];
      Text 4 (lit " ");
      el 5 "i" [Text 6 (lit "per"); Text 7 (lit " "); Text 8 (lit "week")];
      Text 9 (lit " "); Text 10 (lit "!") ].

(** [<span class="property-price">$40 - $620 per week</span>] in a body:
    a range whose first amount is a bond-sized 40. *)
Definition low_range : node :=
  el 0 "html"
    [ el 1 "body"
        [ Element 2 "span" [("class"%string, lit "property-price")]
            [Text 3 (lit "$40 - $620 per week")] ] ].

(** A sidebar container whose first dollar amount in document order sits
    in a nested element, before the bare text child with the rent. *)
Definition nested_first : node :=
  Element 1 "div" sidebar
    [ el 2 "s" [Text 3 (lit "$5")];
      Text 4 (lit " $560 ");
      el 5 "span" [Text 6 (NBSP :: lit "per week")] ].

(** A feed the page grows by one listing at a time. *)
Definition feed0 : node :=
  el 0 "body" [el 1 "div" [Text 2 (lit "Listings")]].

Definition feed1 : node :=
  el 0 "body"
    [ el 1 "div" [Text 2 (lit "Listings")];
      el 3 "p" [Text 4 (lit "$500 per week")] ].

Definition feed2 : node :=
  el 0 "body"
    [ el 1 "div" [Text 2 (lit "Listings")];
      el 3 "p" [Text 4 (lit "$500 per week")];
      el 5 "p" [Text 6 (lit "$600 per week")] ].

(** The second listing is converted, the first is not. *)
Definition feed2_scanned : node :=
  el 0 "body"
    [ el 1 "div" [Text 2 (lit "Listings")];
      el 3 "p" [Text 4 (lit "$500 per week")];
      Element 5 "p" marked
        [Text 6 (lit "$600/wk " ++ [MIDDLE_DOT] ++ lit " US$1,534/mo")] ].

(** Two mutation events 150 ms apart, each adding one listing. *)
Definition burst : list event :=
  [ Mutations 100 feed1 [[el 3 "p" [Text 4 (lit "$500 per week")]]];
    Mutations 250 feed2 [[el 5 "p" [Text 6 (lit "$600 per week")]]] ].

End Examples.

(** * Further definitions *)

(** ** Reading the texts of the scripts *)

(** The letter that opens the qualifier, in either case. *)
Definition is_p (c : char) : bool := (canonicalize c =? 80)%N.

Definition plain (s : jsstring) : bool := forallb (fun c => negb (is_p c)) s.

(** The code units a match of [PRICE_REGEX] holds after its dollar sign. *)
Definition body_char (c : char) : bool :=
  is_amount_char c || is_space c || existsb (fun p => char_eqb_ci p c) PER_WEEK.

(** A match at a position is still a match when more text follows. *)
Definition extends (m : matcher) : Prop :=
  forall b post, m b <> None -> m (b ++ post) <> None.

(** ** Measuring the document tree *)

(** The ids of the nodes of a tree, in document order. *)
Definition ids (n : node) : list nat := List.map node_id (subtree n).



(** The text nodes of a tree, the root included when it is one. *)
Definition texts (n : node) : list node := filter is_text (subtree n).

(** ** Reading the change loop, continued *)

(** The observer callbacks among [events] that add at least one element:
    the calls of [debouncedTransform]. *)
Definition addsElements (e : Nzd.event) : bool :=
  match e with
  | Nzd.Mutations _ _ records =>
      match Nzd.newRoots records with [] => false | _ :: _ => true end
  | Nzd.Scroll _ => false
  end.

(** The timeout due at [due] with the argument [roots] was set by one
    observer callback among [events]: [roots] are the elements that
    callback added, and [due] is [DEBOUNCE_MS] after it. *)
Definition setBy (events : list Nzd.event) (due : Z) (roots : list nat) : Prop :=
  exists now doc' records,
    In (Nzd.Mutations now doc' records) events
    /\ roots = Nzd.newRoots records
    /\ roots <> []
    /\ due = (now + Nzd.DEBOUNCE_MS)%Z.

(** The number of timeouts pending in a state. *)
Definition pendingCount (s : Nzd.loop) : nat :=
  match Nzd.timer s with Some _ => 1 | None => 0 end.

(** The times at which the sweep interval ticks: [t0] plus a positive
    multiple of the interval. *)
Definition is_tick (t0 t : Z) : Prop :=
  exists k, (1 <= k)%Z /\ t = (t0 + k * Nzd.SWEEP_INTERVAL_MS)%Z.

(** What the loop has scheduled and re-scanned was set by callbacks
    among [handled], one callback for each. *)
Definition traced (handled : list Nzd.event) (s : Nzd.loop) : Prop :=
  (forall due roots, Nzd.timer s = Some (due, roots) -> setBy handled due roots)
  /\ (forall due roots,
        In (Nzd.DebouncedScan due roots) (Nzd.scans s) -> setBy handled due roots)
  /\ List.length (LoopSpec.debounced (Nzd.scans s)) + pendingCount s
     <= List.length (filter addsElements handled).

(** After the events [handled] and with every timer due by [bound]
    fired: the sweeps of the record are exactly the ticks before the
    next one at which the last scroll event before the tick was at most
    [SWEEP_IDLE_MS] old. *)
Definition sweepsExact (t0 : Z) (handled : list Nzd.event) (bound : Z) (s : Nzd.loop)
  : Prop :=
  Nzd.lastScrollTime s = LoopSpec.latestScroll t0 handled
  /\ is_tick t0 (Nzd.nextSweep s)
  /\ (LoopSpec.lastTime t0 handled < Nzd.nextSweep s)%Z
  /\ (Nzd.nextSweep s - Nzd.SWEEP_INTERVAL_MS <= bound)%Z
  /\ forall t,
       In t (LoopSpec.sweepTimes (Nzd.scans s)) <->
       is_tick t0 t /\ (t < Nzd.nextSweep s)%Z
       /\ (t - LoopSpec.lastScroll t0 handled t <= Nzd.SWEEP_IDLE_MS)%Z.

(** ** The page without the annotations of the Australian scripts *)

(** The attributes without the attribute [name]. *)
Definition dropAttr (name : string) (a : attrs) : attrs :=
  filter (fun kv => negb (String.eqb (fst kv) name)) a.

(** A label of the scripts: a [div] of the class [CONVERTED_CLASS]. *)
Definition isLabel (n : node) : bool :=
  match n with
  | Text _ _ => false
  | Element _ t a _ =>
      String.eqb t "div"
      && match getAttribute "class" a with
         | Some v => jsstring_eqb v Aud.CONVERTED_CLASS
         | None => false
         end
  end.

(** The tree without the labels below its root and without the
    converted markers: what is left is every other node, in its place,
    with its tag, its other attributes and its text. *)
Fixpoint unannotated (n : node) : node :=
  match n with
  | Text _ _ => n
  | Element j t a cs =>
      Element j t (dropAttr Aud.CONVERTED_ATTR a)
        (keepMap (fun c => negb (isLabel c)) unannotated cs)
  end.

(** On every weekly amount up to 5000 the Number arithmetic of the
    converter, at the fallback rate, gives the integer that exact decimal
    arithmetic gives for [amount * 52 / 12 * 0.59]. *)
Lemma converter_agrees_with_exact_arithmetic :
  forallb
    (fun a =>
       match integer_value (Nzd.nzdPerWeekToUsdPerMonth (of_Z a) Nzd.FALLBACK_RATE) with
       | Some z => (z =? exact_monthly a 59 100)%Z
       | None => false
       end)
    (List.map Z.of_nat (seq 0 (Z.to_nat 5001))) = true.
Proof. vm_compute. reflexivity. Qed.

(** In exact decimal arithmetic 560 * 52 / 12 * 0.59 = 1431.73..., which
    rounds to 1432. *)
Lemma exact_monthly_560 : exact_monthly 560 59 100 = 1432%Z.
Proof. reflexivity. Qed.

(** C2, as stated, fails at its own example: the converter does not
    return 1430 for the amount 560 and the rate 0.59. *)
Lemma convert_560_at_059_is_not_1430 :
  Nzd.nzdPerWeekToUsdPerMonth (of_Z 560) 0.59%float <> 1430%float.
Proof.
  intro H. apply (f_equal Prim2SF) in H. vm_compute in H. discriminate H.
Qed.

Lemma converter_exact_up_to_5000 :
  forall amount,
    (0 <= amount <= 5000)%Z ->
    integer_value (Nzd.nzdPerWeekToUsdPerMonth (of_Z amount) Nzd.FALLBACK_RATE)
      = Some (exact_monthly amount 59 100).
Proof.
  intros amount H.
  pose proof converter_agrees_with_exact_arithmetic as Hall.
  rewrite forallb_forall in Hall.
  assert (Hin : In amount (List.map Z.of_nat (seq 0 (Z.to_nat 5001)))).
  { apply in_map_iff. exists (Z.to_nat amount). split; [lia|].
    apply in_seq. lia. }
  specialize (Hall amount Hin).
  destruct (integer_value _) as [z|]; [|discriminate].
  apply Z.eqb_eq in Hall. now subst z.
Qed.

(** C2 (amended): for every amount and every rate the weekly-to-monthly
    converters of the two scripts return [Math.round((amount * 52) / 12 *
    rate)]; at the rate 0.59 and for every amount up to 5000 that is the
    integer nearest to [amount * 52 / 12 * 0.59] in exact arithmetic; for
    the amount 560 and the rate 0.59 it is 1432. *)
Theorem weekly_to_monthly_formula :
  (forall (amount : Z) (rate : number),
      Nzd.nzdPerWeekToUsdPerMonth (of_Z amount) rate
        = Math_round ((of_Z amount * 52) / 12 * rate)%float
      /\ (forall coerce,
            Aud.audPerWeekToUsdPerMonth coerce (VNumber rate) (of_Z amount)
              = Math_round ((of_Z amount * 52) / 12 * rate)%float))
  /\ (forall amount,
        (0 <= amount <= 5000)%Z ->
        integer_value (Nzd.nzdPerWeekToUsdPerMonth (of_Z amount) 0.59%float)
          = Some (exact_monthly amount 59 100))
  /\ Nzd.nzdPerWeekToUsdPerMonth (of_Z 560) 0.59%float = 1432%float.
Proof.
  split; [|split].
  - intros amount rate. split; [reflexivity|intros coerce; reflexivity].
  - exact converter_exact_up_to_5000.
  - vm_compute. reflexivity.
Qed.

Lemma weekly_to_monthly_formula_witness :
  (0 <= 560 <= 5000)%Z
  /\ integer_value (Nzd.nzdPerWeekToUsdPerMonth (of_Z 560) 0.59%float) = Some 1432%Z.
Proof.
  split; [lia|].
  apply (proj1 (proj2 weekly_to_monthly_formula) 560%Z). lia.
Defined.

(** ** The example documents *)

Lemma examples_have_distinct_ids :
  forallb distinctIds
    [ Examples.listing; Examples.listing_once; Examples.listing_twice;
      Examples.zero_rent; Examples.late_insertion; Examples.marked_widget;
      Examples.wide_widget; Examples.low_range; Examples.nested_first;
      Examples.feed0; Examples.feed1; Examples.feed2 ] = true.
Proof. reflexivity. Qed.

(** ** Idempotence of the full pass *)

(** C1 fails on the realestate.co.nz script: on [Examples.listing] the
    first full pass leaves the body unmarked (it holds seven text nodes),
    removes one of them, and the second full pass on the unchanged result
    then selects the body and rewrites the already converted text. *)
Theorem second_full_pass_rewrites_converted_price :
  Nzd.transformSubtree Examples.listing Nzd.FALLBACK_RATE = Examples.listing_once
  /\ Nzd.transformSubtree Examples.listing_once Nzd.FALLBACK_RATE = Examples.listing_twice
  /\ Examples.listing_twice <> Examples.listing_once.
Proof.
  split; [vm_compute; reflexivity|].
  split; [vm_compute; reflexivity|].
  intro H. discriminate H.
Qed.

(** ** The patterns *)

Section SpanFacts.

Variable p : char -> bool.

Lemma span_app_eq : forall s, fst (span p s) ++ snd (span p s) = s.
Proof.
  induction s as [|c t IH]; simpl; [reflexivity|].
  destruct (p c); simpl; [|reflexivity].
  destruct (span p t) as [a b]; simpl in *. now rewrite IH.
Qed.

Lemma span_fst_forallb : forall s, forallb p (fst (span p s)) = true.
Proof.
  induction s as [|c t IH]; simpl; [reflexivity|].
  destruct (p c) eqn:E; simpl; [|reflexivity].
  destruct (span p t) as [a b]; simpl in *. now rewrite E, IH.
Qed.

(** The greedy run stops at the first code unit outside the class. *)
Lemma span_snd_head :
  forall s c t, snd (span p s) = c :: t -> p c = false.
Proof.
  induction s as [|d s IH]; simpl; intros c t H; [discriminate|].
  destruct (p d) eqn:E.
  - destruct (span p s) as [a b]; simpl in *. eapply IH; eassumption.
  - simpl in H. injection H as -> _. exact E.
Qed.

Definition stops (rest : jsstring) : Prop :=
  match rest with [] => True | c :: _ => p c = false end.

Lemma span_run :
  forall g rest, forallb p g = true -> stops rest -> span p (g ++ rest) = (g, rest).
Proof.
  induction g as [|c g IH]; simpl; intros rest Hg Hr.
  - destruct rest as [|c t]; [reflexivity|]. simpl in *. now rewrite Hr.
  - apply andb_true_iff in Hg as [Hc Hg]. rewrite Hc, (IH rest Hg Hr). reflexivity.
Qed.

End SpanFacts.

(** The search does not depend on the text already passed over. *)
Lemma exec_from_acc :
  forall (m : matcher) s acc,
    exec_from m acc s =
    match exec_from m [] s with
    | Some r => Some (mkMatch (rev acc ++ before r) (matched r) (group1 r) (after r))
    | None => None
    end.
Proof.
  intros m s. induction s as [|c t IH]; intros acc; simpl.
  - destruct (m []) as [[[mt g] rest]|]; simpl; [|reflexivity].
    now rewrite app_nil_r.
  - destruct (m (c :: t)) as [[[mt g] rest]|]; simpl.
    + now rewrite app_nil_r.
    + rewrite (IH (c :: acc)), (IH [c]).
      destruct (exec_from m [] t) as [r|]; [|reflexivity].
      simpl. now rewrite <- app_assoc.
Qed.

Lemma exec_cons_none :
  forall (m : matcher) c t,
    m (c :: t) = None ->
    exec m (c :: t) =
    match exec m t with
    | Some r => Some (mkMatch (c :: before r) (matched r) (group1 r) (after r))
    | None => None
    end.
Proof.
  intros m c t H. unfold exec. simpl. rewrite H. rewrite exec_from_acc.
  destruct (exec_from m [] t); reflexivity.
Qed.

Lemma exec_here :
  forall (m : matcher) s mt g rest,
    m s = Some (mt, g, rest) -> exec m s = Some (mkMatch [] mt g rest).
Proof.
  intros m s mt g rest H. unfold exec. destruct s; simpl; rewrite H; reflexivity.
Qed.

Lemma test_cons_false :
  forall (m : matcher) c t,
    test m (c :: t) = false -> m (c :: t) = None /\ test m t = false.
Proof.
  intros m c t H. unfold test, exec in H. simpl in H.
  destruct (m (c :: t)) as [[[mt g] rest]|] eqn:E; [discriminate|].
  split; [reflexivity|]. unfold test, exec.
  rewrite exec_from_acc in H. destruct (exec_from m [] t); [discriminate|reflexivity].
Qed.

Lemma dollar_is_no_amount_char : is_amount_char DOLLAR = false.
Proof. reflexivity. Qed.

(** The amount pattern at a dollar sign followed by a run of digits and
    commas takes the whole run. *)
Lemma amount_here_run :
  forall g rest,
    g <> [] -> forallb is_amount_char g = true -> stops is_amount_char rest ->
    amount_here (DOLLAR :: g ++ rest) = Some (DOLLAR :: g, g, rest).
Proof.
  intros g rest Hne Hg Hr. unfold amount_here.
  rewrite N.eqb_refl, (span_run _ _ _ Hg Hr).
  destruct g; [contradiction|reflexivity].
Qed.

(** No match of the amount pattern starts inside [pre] when [pre] alone
    holds none and a dollar sign follows it. *)
Lemma exec_amount_skip :
  forall pre s,
    test amount_here pre = false ->
    exec amount_here (pre ++ DOLLAR :: s) =
    match exec amount_here (DOLLAR :: s) with
    | Some r => Some (mkMatch (pre ++ before r) (matched r) (group1 r) (after r))
    | None => None
    end.
Proof.
  induction pre as [|c pre IH]; intros s Hpre.
  - simpl. destruct (exec amount_here (DOLLAR :: s)) as [[b m g a]|]; reflexivity.
  - apply test_cons_false in Hpre as [Hc Hpre].
    assert (Hnone : amount_here (c :: pre ++ DOLLAR :: s) = None).
    { unfold amount_here in *. destruct (c =? DOLLAR)%N; [|reflexivity].
      destruct pre as [|d pre'].
      - reflexivity.
      - simpl in *. destruct (is_amount_char d); [|reflexivity].
        destruct (span is_amount_char pre'); discriminate. }
    change ((c :: pre) ++ DOLLAR :: s) with (c :: pre ++ DOLLAR :: s).
    rewrite (exec_cons_none _ _ _ Hnone), (IH s Hpre).
    destruct (exec amount_here (DOLLAR :: s)); reflexivity.
Qed.

(** The first dollar amount of a text: the left-most dollar sign that a
    digit or comma follows, with the whole run of digits and commas. *)
Lemma exec_amount_first :
  forall pre g rest,
    test amount_here pre = false ->
    g <> [] -> forallb is_amount_char g = true -> stops is_amount_char rest ->
    exec amount_here (pre ++ DOLLAR :: g ++ rest)
      = Some (mkMatch pre (DOLLAR :: g) g rest).
Proof.
  intros pre g rest Hpre Hne Hg Hr.
  rewrite (exec_amount_skip _ _ Hpre).
  rewrite (exec_here _ _ (amount_here_run _ Hne Hg Hr)). simpl.
  now rewrite app_nil_r.
Qed.

(** ** Amount normalisation *)

Lemma digit_range : forall c, is_digit c = true -> (48 <= c <= 57)%N.
Proof.
  intros c H. unfold is_digit in H. apply andb_true_iff in H as [H1 H2].
  apply N.leb_le in H1, H2. split; assumption.
Qed.

Lemma digit_not_comma : forall c, is_digit c = true -> (c =? COMMA)%N = false.
Proof.
  intros c H. apply digit_range in H. apply N.eqb_neq. unfold COMMA. lia.
Qed.

Lemma digit_not_space : forall c, is_digit c = true -> is_space c = false.
Proof.
  intros c H. apply digit_range in H. unfold is_space. simpl.
  repeat match goal with
         | |- context [(c =? ?k)%N] =>
             replace (c =? k)%N with false by (symmetry; apply N.eqb_neq; lia)
         end.
  simpl. apply andb_false_iff. left. apply N.leb_gt. lia.
Qed.

Lemma removeCommas_amount :
  forall g, forallb is_amount_char g = true -> removeCommas g = filter is_digit g.
Proof.
  induction g as [|c g IH]; simpl; intros H; [reflexivity|].
  apply andb_true_iff in H as [Hc Hg]. unfold removeCommas in *. simpl.
  rewrite (IH Hg). unfold is_amount_char in Hc.
  destruct (is_digit c) eqn:Ed.
  - now rewrite (digit_not_comma _ Ed).
  - simpl in Hc. now rewrite Hc.
Qed.

Lemma filter_forallb : forall (p : char -> bool) l, forallb p (filter p l) = true.
Proof.
  induction l as [|c l IH]; simpl; [reflexivity|].
  destruct (p c) eqn:E; simpl; [now rewrite E|assumption].
Qed.

(** On a text of decimal digits [parseInt] reads every digit. *)
Lemma parseInt_parts_digits :
  forall d, forallb is_digit d = true ->
    parseInt_parts d =
    match d with [] => None | _ :: _ => Some (false, digits_val d) end.
Proof.
  intros [|c t] H; [reflexivity|].
  pose proof H as Hall. simpl in H. apply andb_true_iff in H as [Hc Ht].
  unfold parseInt_parts, trimStart, dropWhile.
  assert (Hs : span is_space (c :: t) = ([], c :: t)).
  { simpl. now rewrite (digit_not_space _ Hc). }
  rewrite Hs. cbn [snd].
  assert (H45 : (c =? 45)%N = false)
    by (apply N.eqb_neq; apply digit_range in Hc; lia).
  assert (H43 : (c =? 43)%N = false)
    by (apply N.eqb_neq; apply digit_range in Hc; lia).
  rewrite H45, H43.
  pose proof (span_run is_digit (c :: t) [] Hall I) as Hrun.
  rewrite app_nil_r in Hrun. rewrite Hrun. reflexivity.
Qed.

Lemma filter_nil_existsb :
  forall (p : char -> bool) l, filter p l = [] <-> existsb p l = false.
Proof.
  induction l as [|c l IH]; simpl; [tauto|].
  destruct (p c); simpl; [split; discriminate|exact IH].
Qed.

(** What amount normalisation computes on a captured group: the commas
    are dropped, the digits are read as a decimal integer, and the result
    is NaN exactly when the group holds no digit. *)
Lemma parseAmount_spec :
  forall g, forallb is_amount_char g = true ->
    parseAmount g =
    if existsb is_digit g then Some (of_Z (digits_val (filter is_digit g))) else None.
Proof.
  intros g Hg. unfold parseAmount, parseInt.
  rewrite (removeCommas_amount _ Hg).
  rewrite (parseInt_parts_digits _ (filter_forallb is_digit g)).
  destruct (filter is_digit g) as [|c t] eqn:E.
  - apply filter_nil_existsb in E. now rewrite E.
  - destruct (existsb is_digit g) eqn:Ex; [reflexivity|].
    apply filter_nil_existsb in Ex. congruence.
Qed.

(** *** The patterns against their declarative reading *)

Lemma amount_here_sound :
  forall s m g rest,
    amount_here s = Some (m, g, rest) ->
    s = DOLLAR :: g ++ rest /\ m = DOLLAR :: g /\ g <> []
    /\ forallb is_amount_char g = true /\ stops is_amount_char rest.
Proof.
  intros s m g rest H. unfold amount_here in H.
  destruct s as [|c t]; [discriminate|].
  destruct (c =? DOLLAR)%N eqn:Ec; [|discriminate].
  apply N.eqb_eq in Ec. subst c.
  pose proof (span_app_eq is_amount_char t) as Happ.
  pose proof (span_fst_forallb is_amount_char t) as Hall.
  pose proof (span_snd_head is_amount_char t) as Hstop.
  destruct (span is_amount_char t) as [g' r'] eqn:Es. simpl in *.
  destruct g' as [|d g']; [discriminate|].
  injection H as <- <- <-.
  repeat split; try assumption; try discriminate.
  - now rewrite <- Happ.
  - unfold stops. destruct r' as [|x r']; [exact I|]. eapply Hstop. reflexivity.
Qed.

Lemma prefix_ci_sound :
  forall pat s m rest,
    prefix_ci pat s = Some (m, rest) ->
    s = m ++ rest /\ Forall2 (fun p c => char_eqb_ci p c = true) pat m.
Proof.
  induction pat as [|p pat IH]; intros s m rest H; simpl in H.
  - injection H as <- <-. split; [reflexivity|constructor].
  - destruct s as [|c t]; [discriminate|].
    destruct (char_eqb_ci p c) eqn:E; [|discriminate].
    destruct (prefix_ci pat t) as [[m' rest']|] eqn:E'; [|discriminate].
    injection H as <- <-. destruct (IH _ _ _ E') as [-> HF].
    split; [reflexivity|]. now constructor.
Qed.

Lemma prefix_ci_complete :
  forall pat m rest,
    Forall2 (fun p c => char_eqb_ci p c = true) pat m ->
    prefix_ci pat (m ++ rest) = Some (m, rest).
Proof.
  intros pat m rest H. induction H as [|p c pat m Hc _ IH]; simpl; [reflexivity|].
  now rewrite Hc, IH.
Qed.

Lemma amount_char_not_space : forall c, is_amount_char c = true -> is_space c = false.
Proof.
  intros c H. unfold is_amount_char in H. apply orb_true_iff in H as [H|H].
  - now apply digit_not_space.
  - apply N.eqb_eq in H. subst c. reflexivity.
Qed.

Lemma space_not_amount_char : forall c, is_space c = true -> is_amount_char c = false.
Proof.
  intros c H. destruct (is_amount_char c) eqn:E; [|reflexivity].
  apply amount_char_not_space in E. congruence.
Qed.

(** The letter that opens the qualifier is neither white space nor part
    of an amount. *)
Lemma letter_p_stops :
  forall c, char_eqb_ci 112%N c = true -> is_amount_char c = false /\ is_space c = false.
Proof.
  intros c H. unfold char_eqb_ci in H.
  change (canonicalize 112%N) with 80%N in H. unfold canonicalize in H.
  destruct ((97 <=? c)%N && (c <=? 122)%N) eqn:E.
  - apply andb_true_iff in E as [E1 E2]. apply N.leb_le in E1, E2.
    apply N.eqb_eq in H. assert (c = 112%N) by lia. subst c. split; reflexivity.
  - apply N.eqb_eq in H. subst c. split; reflexivity.
Qed.

(** What [PRICE_REGEX] matches at a position is a dollar sign, a run of
    digits and commas, white space and the qualifier in any letter case,
    and nothing else. *)
Lemma price_here_sound :
  forall s m g rest,
    price_here s = Some (m, g, rest) ->
    exists ws pw,
      s = m ++ rest /\ m = DOLLAR :: g ++ ws ++ pw /\ g <> []
      /\ forallb is_amount_char g = true /\ forallb is_space ws = true
      /\ Forall2 (fun p c => char_eqb_ci p c = true) PER_WEEK pw.
Proof.
  intros s m g rest H. unfold price_here in H.
  destruct (amount_here s) as [[[m1 g1] r]|] eqn:Ea; [|discriminate].
  apply amount_here_sound in Ea as (-> & -> & Hne & Hg & _).
  pose proof (span_app_eq is_space r) as Happ.
  pose proof (span_fst_forallb is_space r) as Hws.
  destruct (span is_space r) as [ws r1]. cbn [fst snd] in *.
  destruct (prefix_ci PER_WEEK r1) as [[pw rest']|] eqn:Ep; [|discriminate].
  injection H as <- <- <-.
  apply prefix_ci_sound in Ep as [-> Hpw].
  exists ws, pw. repeat split; try assumption.
  rewrite <- Happ. simpl. now rewrite <- !app_assoc.
Qed.

(** Every text of that shape is matched, with the whole run of digits
    and commas captured: no other split of the text is a match, so
    backtracking has nothing to offer. *)
Lemma price_here_complete :
  forall g ws pw rest,
    g <> [] ->
    forallb is_amount_char g = true ->
    forallb is_space ws = true ->
    Forall2 (fun p c => char_eqb_ci p c = true) PER_WEEK pw ->
    price_here (DOLLAR :: g ++ ws ++ pw ++ rest)
      = Some (DOLLAR :: g ++ ws ++ pw, g, rest).
Proof.
  intros g ws pw rest Hne Hg Hws Hpw.
  assert (Hp : exists c pw', pw = c :: pw' /\ char_eqb_ci 112%N c = true).
  { pose proof Hpw as Hpw'. unfold PER_WEEK in Hpw'.
    change (lit "per week") with (112%N :: lit "er week") in Hpw'.
    inversion Hpw' as [|p c pat m Hc Hrest]; subst.
    exists c, m. split; [reflexivity|exact Hc]. }
  destruct Hp as (c & pw' & -> & Hc). destruct (letter_p_stops _ Hc) as [Hc1 Hc2].
  unfold price_here.
  assert (Hstop : stops is_amount_char (ws ++ (c :: pw') ++ rest)).
  { destruct ws as [|w ws']; simpl; [exact Hc1|].
    simpl in Hws. apply andb_true_iff in Hws as [Hw _].
    now apply space_not_amount_char. }
  rewrite (amount_here_run _ Hne Hg Hstop).
  assert (Hstop2 : stops is_space ((c :: pw') ++ rest)) by exact Hc2.
  rewrite (span_run is_space ws _ Hws Hstop2).
  now rewrite (prefix_ci_complete rest Hpw).
Qed.

(** The optional group of the split-layout test never takes part in a
    match: the greedy white space before it has already taken every
    U+00A0. The two tests for a bare qualifier accept the same texts. *)
Lemma perWeekOnly_tests_agree :
  forall s, perWeekOnly_split s = perWeekOnly_sidebar s.
Proof.
  intros s. unfold perWeekOnly_split, perWeekOnly_sidebar, dropWhile.
  pose proof (span_snd_head is_space s) as H.
  destruct (snd (span is_space s)) as [|c t]; [reflexivity|].
  specialize (H c t eq_refl).
  destruct (c =? NBSP)%N eqn:E; [|reflexivity].
  apply N.eqb_eq in E. subst c. discriminate H.
Qed.

(** With a NaN amount every layer leaves the tree as it is. *)
Lemma sidebar_step_NaN :
  forall rate root el i t a cs amountNode m,
    lookup el root = Some (Element i t a cs) ->
    find Nzd.hasAmount cs = Some amountNode ->
    exec Nzd.PRICE_AMOUNT_REGEX (textContent amountNode) = Some m ->
    parseAmount (group1 m) = None ->
    Nzd.sidebar_step rate root el = root.
Proof.
  intros rate root el i t a cs amountNode m Hl Hf He Hp.
  unfold Nzd.sidebar_step. rewrite Hl.
  destruct (Nzd.nzdConverted (Element i t a cs)); [reflexivity|].
  rewrite Hf, He, Hp. reflexivity.
Qed.

Lemma pass1_step_NaN :
  forall rate root tn i data m,
    lookup tn root = Some (Text i data) ->
    exec Nzd.PRICE_REGEX data = Some m ->
    parseAmount (group1 m) = None ->
    Nzd.pass1_step rate root tn = root.
Proof.
  intros rate root tn i data m Hl He Hp.
  unfold Nzd.pass1_step. rewrite Hl.
  destruct (negb (test Nzd.PRICE_REGEX data)); [reflexivity|].
  match goal with |- (if ?c then _ else _) = _ => destruct c end; [reflexivity|].
  rewrite He, Hp. reflexivity.
Qed.

Lemma pass2_step_NaN :
  forall rate root el e priceNode m,
    lookup el root = Some e ->
    find (fun n => test Nzd.PRICE_AMOUNT_REGEX (textContent n)) (textNodes e)
      = Some priceNode ->
    exec Nzd.PRICE_AMOUNT_REGEX (textContent priceNode) = Some m ->
    parseAmount (group1 m) = None ->
    Nzd.pass2_step rate root el = root.
Proof.
  intros rate root el e priceNode m Hl Hf He Hp.
  unfold Nzd.pass2_step. rewrite Hl.
  destruct e as [i d|i t a cs]; [reflexivity|].
  destruct (Nzd.hasConvertedAncestor _); [reflexivity|].
  destruct (negb _); [reflexivity|].
  destruct (Nzd.hasFullMatch _); [reflexivity|].
  destruct (Nat.ltb _ _); [reflexivity|].
  rewrite Hf, He, Hp. reflexivity.
Qed.

(** C6, as stated, fails on the code: an amount of 0 is not rejected. The
    text [$0 per week] is read as the amount 0, rewritten and marked. *)
Lemma zero_amount_is_converted :
  parseAmount (lit "0") = Some (of_Z 0)
  /\ Nzd.transformSubtree Examples.zero_rent Nzd.FALLBACK_RATE
       = Examples.zero_rent_converted
  /\ Examples.zero_rent_converted <> Examples.zero_rent.
Proof.
  split; [reflexivity|]. split; [vm_compute; reflexivity|].
  intro H. discriminate H.
Qed.

(** C6 (amended): on every captured group of digits and commas, amount
    normalisation drops the commas and reads the digits as a decimal
    integer; the result is non-numeric exactly when the group holds no
    digit, and then each of the three layers skips the candidate and
    leaves the tree as it is. An amount of 0 is numeric and is not
    rejected. *)
Theorem amount_normalization :
  forall g, forallb is_amount_char g = true ->
    parseAmount g =
      (if existsb is_digit g then Some (of_Z (digits_val (filter is_digit g))) else None)
    /\ (existsb is_digit g = false ->
        (forall rate root el i t a cs amountNode m,
            lookup el root = Some (Element i t a cs) ->
            find Nzd.hasAmount cs = Some amountNode ->
            exec Nzd.PRICE_AMOUNT_REGEX (textContent amountNode) = Some m ->
            group1 m = g ->
            Nzd.sidebar_step rate root el = root)
        /\ (forall rate root tn i data m,
            lookup tn root = Some (Text i data) ->
            exec Nzd.PRICE_REGEX data = Some m ->
            group1 m = g ->
            Nzd.pass1_step rate root tn = root)
        /\ (forall rate root el e priceNode m,
            lookup el root = Some e ->
            find (fun n => test Nzd.PRICE_AMOUNT_REGEX (textContent n)) (textNodes e)
              = Some priceNode ->
            exec Nzd.PRICE_AMOUNT_REGEX (textContent priceNode) = Some m ->
            group1 m = g ->
            Nzd.pass2_step rate root el = root))
    /\ parseAmount (lit "0") = Some (of_Z 0).
Proof.
  intros g Hg. pose proof (parseAmount_spec g Hg) as Hspec.
  split; [exact Hspec|]. split; [|reflexivity].
  intros Hno. rewrite Hno in Hspec.
  split; [|split].
  - intros rate root el i t a cs amountNode m Hl Hf He Hm. subst g.
    eapply sidebar_step_NaN; eassumption.
  - intros rate root tn i data m Hl He Hm. subst g.
    eapply pass1_step_NaN; eassumption.
  - intros rate root el e priceNode m Hl Hf He Hm. subst g.
    eapply pass2_step_NaN; eassumption.
Qed.

Lemma amount_normalization_witness :
  forallb is_amount_char (lit "1,200") = true
  /\ parseAmount (lit "1,200") = Some (of_Z 1200).
Proof.
  split; [reflexivity|].
  exact (proj1 (amount_normalization (lit "1,200") eq_refl)).
Defined.

(** ** The document tree *)

Lemma find_app :
  forall (A : Type) (f : A -> bool) l1 l2,
    find f (l1 ++ l2) = match find f l1 with Some x => Some x | None => find f l2 end.
Proof.
  induction l1 as [|x l1 IH]; intros l2; simpl; [reflexivity|].
  destruct (f x); [reflexivity|apply IH].
Qed.

(** [lookup] finds the node at the end of the path of [pathTo]. *)
Lemma pathTo_lookup :
  forall i n,
    match pathTo i n with
    | Some p => exists q x, p = q ++ [x] /\ lookup i n = Some x
    | None => lookup i n = None
    end.
Proof.
  intros i n. induction n as [j d|j t a cs IH] using node_induction.
  - unfold lookup. simpl. destruct (Nat.eqb j i).
    + exists [], (Text j d). split; reflexivity.
    + reflexivity.
  - unfold lookup. simpl. destruct (Nat.eqb j i).
    + exists [], (Element j t a cs). split; reflexivity.
    + generalize (Element j t a cs) as h. intros h.
      induction cs as [|c r IHr]; simpl; [reflexivity|].
      inversion IH as [|? ? Hc Hr]; subst. specialize (IHr Hr).
      rewrite find_app. unfold lookup in Hc.
      destruct (pathTo i c) as [p|].
      * destruct Hc as (q & x & -> & Hx). rewrite Hx.
        exists (h :: q), x. split; reflexivity.
      * rewrite Hc. exact IHr.
Qed.

Lemma firstPath_head :
  forall f h l p, firstPath f h l = Some p -> exists p', p = h :: p'.
Proof.
  intros f h. induction l as [|c r IHr]; simpl; intros p H; [discriminate|].
  destruct (f c) as [q|].
  - injection H as <-. now exists q.
  - exact (IHr p H).
Qed.

(** A path starts at the node it is searched from. *)
Lemma pathTo_head :
  forall i n p, pathTo i n = Some p -> exists p', p = n :: p'.
Proof.
  intros i n p H. destruct n as [j d|j t a cs]; simpl in H.
  - destruct (Nat.eqb j i); [|discriminate]. injection H as <-. now exists [].
  - destruct (Nat.eqb j i).
    + injection H as <-. now exists [].
    + eapply firstPath_head; eassumption.
Qed.

Lemma text_not_converted : forall i d, Nzd.nzdConverted (Text i d) = false.
Proof. reflexivity. Qed.

(** ** The containment bound of the split-element layer *)

(** C5: an element whose subtree holds more than six text nodes when the
    split-element layer examines it is not selected as an anchor: the
    iteration leaves the whole tree as it is (no marker, no rewritten
    text, nothing removed), whatever the combined text of the element. *)
Theorem split_layer_skips_wide_elements :
  forall rate root el e,
    lookup el root = Some e ->
    6 < List.length (textNodes e) ->
    Nzd.pass2_step rate root el = root.
Proof.
  intros rate root el e Hl Hn. unfold Nzd.pass2_step. rewrite Hl.
  destruct e as [i d|i t a cs]; [reflexivity|].
  destruct (Nzd.hasConvertedAncestor _); [reflexivity|].
  destruct (negb _); [reflexivity|].
  destruct (Nzd.hasFullMatch _); [reflexivity|].
  apply Nat.ltb_lt in Hn. rewrite Hn. reflexivity.
Qed.

Lemma split_layer_skips_wide_elements_witness :
  lookup 1 Examples.wide_widget = Some Examples.wide_widget
  /\ 6 < List.length (textNodes Examples.wide_widget)
  /\ test Nzd.PRICE_REGEX (textContent Examples.wide_widget) = true
  /\ Nzd.hasFullMatch Examples.wide_widget = false
  /\ Nzd.pass2_step Nzd.FALLBACK_RATE Examples.wide_widget 1 = Examples.wide_widget.
Proof.
  split; [reflexivity|]. split; [vm_compute; lia|].
  split; [reflexivity|]. split; [reflexivity|].
  apply (@split_layer_skips_wide_elements Nzd.FALLBACK_RATE Examples.wide_widget 1
           Examples.wide_widget); [reflexivity|vm_compute; lia].
Defined.

(** ** Marker inheritance *)

Lemma existsb_In :
  forall (A : Type) (f : A -> bool) l x, In x l -> f x = true -> existsb f l = true.
Proof.
  intros A f l x Hin Hf. apply existsb_exists. exists x. split; assumption.
Qed.

Lemma pass2_step_protected :
  forall rate root el p a,
    pathTo el root = Some p -> In a p -> Nzd.nzdConverted a = true ->
    Nzd.pass2_step rate root el = root.
Proof.
  intros rate root el p a Hp Hin Ha. unfold Nzd.pass2_step.
  destruct (lookup el root) as [[i d|i t at' cs]|]; try reflexivity.
  unfold Nzd.hasConvertedAncestor, ancestorsOrSelf. rewrite Hp.
  rewrite (existsb_In Nzd.nzdConverted (rev p) a); [reflexivity| |exact Ha].
  apply in_rev. now rewrite rev_involutive.
Qed.

Lemma pass1_step_protected :
  forall rate root tn p a,
    pathTo tn root = Some p -> In a p -> Nzd.nzdConverted a = true ->
    Nzd.pass1_step rate root tn = root.
Proof.
  intros rate root tn p a Hp Hin Ha. unfold Nzd.pass1_step.
  pose proof (pathTo_lookup tn root) as Hl. rewrite Hp in Hl.
  destruct Hl as (q & x & -> & Hx). rewrite Hx.
  destruct x as [i d|i t at' cs]; [|reflexivity].
  destruct (negb (test Nzd.PRICE_REGEX d)); [reflexivity|].
  unfold Nzd.hasConvertedAncestor, ancestorsOrSelf. rewrite Hp.
  rewrite rev_app_distr. simpl.
  apply in_app_or in Hin. destruct Hin as [Hin|[<-|[]]].
  - rewrite (existsb_In Nzd.nzdConverted (rev q) a); [reflexivity| |exact Ha].
    apply in_rev. now rewrite rev_involutive.
  - discriminate Ha.
Qed.

Lemma fold_left_fixed :
  forall (A B : Type) (f : A -> B -> A) (l : list B) (a : A),
    (forall b, f a b = a) -> fold_left f l a = a.
Proof.
  intros A B f l a H. induction l as [|b l IH]; simpl; [reflexivity|].
  now rewrite H.
Qed.

Lemma pass1_step_marked_root :
  forall rate root tn, Nzd.nzdConverted root = true -> Nzd.pass1_step rate root tn = root.
Proof.
  intros rate root tn Hr.
  pose proof (pathTo_lookup tn root) as Hl.
  destruct (pathTo tn root) as [p|] eqn:Hp.
  - destruct (pathTo_head _ _ Hp) as [p' ->].
    eapply pass1_step_protected; [exact Hp|left; reflexivity|exact Hr].
  - unfold Nzd.pass1_step. now rewrite Hl.
Qed.

Lemma pass2_step_marked_root :
  forall rate root el, Nzd.nzdConverted root = true -> Nzd.pass2_step rate root el = root.
Proof.
  intros rate root el Hr.
  pose proof (pathTo_lookup el root) as Hl.
  destruct (pathTo el root) as [p|] eqn:Hp.
  - destruct (pathTo_head _ _ Hp) as [p' ->].
    eapply pass2_step_protected; [exact Hp|left; reflexivity|exact Hr].
  - unfold Nzd.pass2_step. now rewrite Hl.
Qed.

(** C4, as stated, fails on the code: the ancestor walk stops at the root
    of the scan. In [Examples.late_insertion] the text node 4 is a strict
    descendant of the marked element 1, and the scan of the added root 3
    matches and rewrites it. *)
Lemma marker_above_scanned_root_is_not_consulted :
  (exists a, In a (ancestorsOrSelf Examples.late_insertion 4)
             /\ node_id a = 1 /\ Nzd.nzdConverted a = true)
  /\ Nzd.transformAt Nzd.FALLBACK_RATE Examples.late_insertion 3
       = Examples.late_insertion_scanned
  /\ Examples.late_insertion_scanned <> Examples.late_insertion.
Proof.
  split.
  - eexists. split; [right; right; left; reflexivity|]. split; reflexivity.
  - split; [vm_compute; reflexivity|]. intro H. discriminate H.
Qed.

(** C4 (amended): inside one invocation of [transformSubtree] on [root],
    a marker on the examined node or on any of its ancestors up to and
    including [root] protects it from the single-text-node pass and from
    the split-element pass: the text node is not matched, the element is
    not selected, and the tree is left as it is. In particular a marked
    root protects its whole subtree from both passes. The sidebar fast
    path skips a container that carries the marker itself. Markers above
    the scanned root are not consulted. *)
Theorem marker_protects_within_scanned_root :
  forall rate root,
    (forall el e,
        lookup el root = Some e -> Nzd.nzdConverted e = true ->
        Nzd.sidebar_step rate root el = root)
    /\ (forall tn p a,
        pathTo tn root = Some p -> In a p -> Nzd.nzdConverted a = true ->
        Nzd.pass1_step rate root tn = root)
    /\ (forall el p a,
        pathTo el root = Some p -> In a p -> Nzd.nzdConverted a = true ->
        Nzd.pass2_step rate root el = root)
    /\ (Nzd.nzdConverted root = true ->
        Nzd.pass1 rate root = root /\ Nzd.pass2 rate root = root).
Proof.
  intros rate root. split; [|split; [|split]].
  - intros el e Hl He. unfold Nzd.sidebar_step. rewrite Hl.
    destruct e as [i d|i t a cs]; [reflexivity|]. now rewrite He.
  - intros tn p a. apply pass1_step_protected.
  - intros el p a. apply pass2_step_protected.
  - intros Hr. split.
    + unfold Nzd.pass1. apply fold_left_fixed.
      intros tn. now apply pass1_step_marked_root.
    + unfold Nzd.pass2. apply fold_left_fixed.
      intros el. now apply pass2_step_marked_root.
Qed.

Lemma marker_protects_within_scanned_root_witness :
  Nzd.nzdConverted Examples.marked_widget = true
  /\ test Nzd.PRICE_REGEX (lit "$500 per week") = true
  /\ Nzd.pass1_step Nzd.FALLBACK_RATE Examples.marked_widget 2 = Examples.marked_widget
  /\ Nzd.pass2_step Nzd.FALLBACK_RATE Examples.marked_widget 3 = Examples.marked_widget
  /\ Nzd.pass1 Nzd.FALLBACK_RATE Examples.marked_widget = Examples.marked_widget
  /\ Nzd.pass2 Nzd.FALLBACK_RATE Examples.marked_widget = Examples.marked_widget.
Proof.
  pose proof (marker_protects_within_scanned_root Nzd.FALLBACK_RATE Examples.marked_widget)
    as (_ & H1 & H2 & H3).
  split; [reflexivity|]. split; [reflexivity|].
  split.
  - apply (H1 2 [Examples.marked_widget; Text 2 (lit "$500 per week")]
              Examples.marked_widget); [reflexivity|left; reflexivity|reflexivity].
  - split.
    + apply (H2 3 [Examples.marked_widget;
                   Examples.el 3 "p" [Text 4 (lit "$760 ");
                                      Examples.el 5 "i" [Text 6 (lit "per week")]]]
                Examples.marked_widget); [reflexivity|left; reflexivity|reflexivity].
    + apply H3. reflexivity.
Defined.

(** ** The first amount of a candidate *)

Lemma find_first :
  forall (A : Type) (f : A -> bool) l1 x l2,
    forallb (fun y => negb (f y)) l1 = true -> f x = true ->
    find f (l1 ++ x :: l2) = Some x.
Proof.
  induction l1 as [|y l1 IH]; simpl; intros x l2 H Hx.
  - now rewrite Hx.
  - apply andb_true_iff in H as [Hy H]. apply negb_true_iff in Hy.
    rewrite Hy. now apply IH.
Qed.

Section FirstAmount.

Variables pre g rest : jsstring.
Hypothesis Hpre : test amount_here pre = false.
Hypothesis Hne : g <> [].
Hypothesis Hg : forallb is_amount_char g = true.
Hypothesis Hrest : stops is_amount_char rest.

Let text : jsstring := pre ++ DOLLAR :: g ++ rest.

Lemma test_amount_text : test amount_here text = true.
Proof.
  unfold test, text. now rewrite (exec_amount_first _ _ Hpre Hne Hg Hrest).
Qed.

(** The Australian scripts read the first amount of the trimmed text. *)
Lemma weeklyAmount_first :
  forall e, trim (textContent e) = text ->
    Aud.weeklyAmount e =
    (let w := parseFloat_digits (removeCommas g) in
     if negb (isNaN w) && (50 <? w)%float then Some w else None).
Proof.
  intros e He. unfold Aud.weeklyAmount. rewrite He. unfold text.
  rewrite (exec_amount_first _ _ Hpre Hne Hg Hrest). reflexivity.
Qed.

Lemma candidate_step_first :
  forall labelOf rate doc seen el e,
    lookup el doc = Some e ->
    existsb (Nat.eqb el) seen = false ->
    dataset_truthy Aud.CONVERTED_ATTR e = false ->
    trim (textContent e) = text ->
    node_id doc <> el ->
    Aud.candidate_step labelOf rate doc seen el =
    (let w := parseFloat_digits (removeCommas g) in
     if negb (isNaN w) && (50 <? w)%float
     then (setAttr el Aud.CONVERTED_ATTR (lit "true")
             (Aud.insertAfter el
                (Element (S (Aud.maxId doc)) "div"
                   [("class"%string, Aud.CONVERTED_CLASS); ("style"%string, Aud.LABEL_STYLE)]
                   [Text (S (S (Aud.maxId doc))) (labelOf rate w)]) doc),
           el :: seen, None)
     else (doc, el :: seen, None)).
Proof.
  intros labelOf rate doc seen el e Hl Hs Hc He Hroot.
  unfold Aud.candidate_step. rewrite Hl, Hs, Hc. simpl orb. cbv iota.
  rewrite (weeklyAmount_first e He). cbv zeta.
  destruct (negb (isNaN _) && _); [|reflexivity].
  unfold Aud.insertConversionLabel.
  apply Nat.eqb_neq in Hroot. rewrite Hroot. reflexivity.
Qed.

(** The sidebar fast path reads the first amount of the first bare text
    child that holds one. *)
Lemma sidebar_step_first :
  forall rate root el i t a l1 j l2,
    lookup el root = Some (Element i t a (l1 ++ Text j text :: l2)) ->
    Nzd.nzdConverted (Element i t a (l1 ++ Text j text :: l2)) = false ->
    forallb (fun n => negb (Nzd.hasAmount n)) l1 = true ->
    Nzd.sidebar_step rate root el =
    match parseAmount g with
    | None => root
    | Some nzd =>
        update el (prune perWeekOnly_sidebar)
          (setText j (Nzd.priceLabel nzd (Nzd.nzdPerWeekToUsdPerMonth nzd rate) ++ lit " ")
             (Nzd.markConverted el root))
    end.
Proof.
  intros rate root el i t a l1 j l2 Hl Hc Hl1.
  unfold Nzd.sidebar_step. rewrite Hl, Hc.
  rewrite (find_first Nzd.hasAmount l1 (Text j text) l2 Hl1).
  - simpl textContent. unfold Nzd.PRICE_AMOUNT_REGEX, text.
    rewrite (exec_amount_first _ _ Hpre Hne Hg Hrest). reflexivity.
  - unfold Nzd.hasAmount. simpl. apply test_amount_text.
Qed.

End FirstAmount.

(** C10, as stated, fails on the code: in the range [$40 - $620 per week]
    the first amount is read and, being at most 50, nothing is converted;
    the candidate gets no label and no marker. *)
Lemma low_first_amount_is_not_converted :
  Aud.candidates Examples.low_range = [2; 2]
  /\ option_map group1 (exec amount_here (lit "$40 - $620 per week")) = Some (lit "40")
  /\ Aud.convertPricesOnPage (Aud.labelText (fun _ => nan)) (VNumber Aud.FALLBACK_RATE)
       Examples.low_range
     = (Examples.low_range, None).
Proof. split; [reflexivity|]. split; reflexivity. Qed.

(** In the sidebar fast path the amount is the first one of the bare text
    children, not the first one of the text content of the container. *)
Lemma sidebar_reads_bare_text_child :
  option_map group1 (exec amount_here (textContent Examples.nested_first)) = Some (lit "5")
  /\ lookup 4 (Nzd.sidebar_step Nzd.FALLBACK_RATE Examples.nested_first 1)
     = Some (Text 4 (lit "$560/wk " ++ [MIDDLE_DOT] ++ lit " US$1,432/mo ")).
Proof. split; vm_compute; reflexivity. Qed.

(** C10 (amended): of the dollar amounts in the text of a candidate the
    scripts read the first one only, and nothing that follows it changes
    the outcome. The Australian scripts take it from the trimmed text
    content of the candidate and convert it when it is above 50, and
    otherwise convert nothing; the sidebar fast path takes it from the
    first bare text child that holds an amount and converts it when it is
    numeric. *)
Theorem first_amount_is_used :
  forall pre g rest,
    test amount_here pre = false ->
    g <> [] ->
    forallb is_amount_char g = true ->
    stops is_amount_char rest ->
    (forall e, trim (textContent e) = pre ++ DOLLAR :: g ++ rest ->
       Aud.weeklyAmount e =
       (let w := parseFloat_digits (removeCommas g) in
        if negb (isNaN w) && (50 <? w)%float then Some w else None))
    /\ (forall labelOf rate doc seen el e,
          lookup el doc = Some e ->
          existsb (Nat.eqb el) seen = false ->
          dataset_truthy Aud.CONVERTED_ATTR e = false ->
          trim (textContent e) = pre ++ DOLLAR :: g ++ rest ->
          node_id doc <> el ->
          Aud.candidate_step labelOf rate doc seen el =
          (let w := parseFloat_digits (removeCommas g) in
           if negb (isNaN w) && (50 <? w)%float
           then (setAttr el Aud.CONVERTED_ATTR (lit "true")
                   (Aud.insertAfter el
                      (Element (S (Aud.maxId doc)) "div"
                         [("class"%string, Aud.CONVERTED_CLASS);
                          ("style"%string, Aud.LABEL_STYLE)]
                         [Text (S (S (Aud.maxId doc))) (labelOf rate w)]) doc),
                 el :: seen, None)
           else (doc, el :: seen, None)))
    /\ (forall rate root el i t a l1 j l2,
          lookup el root
            = Some (Element i t a (l1 ++ Text j (pre ++ DOLLAR :: g ++ rest) :: l2)) ->
          Nzd.nzdConverted (Element i t a (l1 ++ Text j (pre ++ DOLLAR :: g ++ rest) :: l2))
            = false ->
          forallb (fun n => negb (Nzd.hasAmount n)) l1 = true ->
          Nzd.sidebar_step rate root el =
          match parseAmount g with
          | None => root
          | Some nzd =>
              update el (prune perWeekOnly_sidebar)
                (setText j
                   (Nzd.priceLabel nzd (Nzd.nzdPerWeekToUsdPerMonth nzd rate) ++ lit " ")
                   (Nzd.markConverted el root))
          end).
Proof.
  intros pre g rest Hpre Hne Hg Hrest. split; [|split].
  - intros e. now apply weeklyAmount_first.
  - intros labelOf rate doc seen el e. now apply candidate_step_first.
  - intros rate root el i t a l1 j l2. now apply sidebar_step_first.
Qed.

Lemma first_amount_is_used_witness :
  test amount_here (lit "from ") = false
  /\ lit "570" <> []
  /\ forallb is_amount_char (lit "570") = true
  /\ stops is_amount_char (lit " - $620 per week")
  /\ Aud.weeklyAmount (Text 1 (lit "  from $570 - $620 per week ")) = Some (of_Z 570).
Proof.
  split; [reflexivity|]. split; [discriminate|]. split; [reflexivity|].
  split; [reflexivity|].
  apply (proj1 (@first_amount_is_used (lit "from ") (lit "570") (lit " - $620 per week")
                  eq_refl ltac:(discriminate) eq_refl eq_refl)
               (Text 1 (lit "  from $570 - $620 per week "))).
  reflexivity.
Defined.

(** ** The rate provider *)

Section RateProviderFacts.

Variable parseFloat : jsstring -> number.
Variable toString : value -> jsstring.

Lemma getCachedRate_spec :
  forall now st,
    Nzd.getCachedRate parseFloat now st =
    (Normal (if RateSpec.cacheHit parseFloat st now
             then Some (RateSpec.cachedRate parseFloat st) else None), st).
Proof.
  intros now st.
  unfold Nzd.getCachedRate, try_catch, bind, getItem, RateSpec.cacheHit,
    RateSpec.cachedRate, RateSpec.cachedTime.
  destruct (readable st) eqn:R; simpl; [|reflexivity].
  rewrite R. simpl.
  destruct (truthy_number _ && Nzd.fresh now _); reflexivity.
Qed.

(** [fetchRate] case by case: the response delivers no rate; the rate
    entry cannot be written; the rate entry is written and the time entry
    cannot be; both are written. Only in the last case is the fetched rate
    returned. *)
Lemma fetchRate_spec :
  forall resp now st,
    Nzd.fetchRate toString resp now st =
    match RateSpec.delivered resp with
    | Some rate =>
        if accepts Nzd.CACHE_KEY_RATE (toString rate) st then
          if accepts Nzd.CACHE_KEY_TIME (string_of_Z now)
                     (stored Nzd.CACHE_KEY_RATE (toString rate) st)
          then (Normal rate, RateSpec.persisted toString rate now st)
          else (Normal (VNumber Nzd.FALLBACK_RATE),
                stored Nzd.CACHE_KEY_RATE (toString rate) st)
        else (Normal (VNumber Nzd.FALLBACK_RATE), st)
    | None => (Normal (VNumber Nzd.FALLBACK_RATE), st)
    end.
Proof.
  intros resp now st.
  unfold Nzd.fetchRate, RateSpec.delivered, try_catch, bind, lift.
  destruct (Nzd.fetch_json resp) as [data|e]; [|reflexivity].
  destruct (Nzd.rates_USD data) as [rate|e]; [|reflexivity].
  destruct (truthy rate); [|reflexivity].
  unfold setItem, ret.
  destruct (accepts Nzd.CACHE_KEY_RATE (toString rate) st); [|reflexivity].
  destruct (accepts Nzd.CACHE_KEY_TIME (string_of_Z now) _); reflexivity.
Qed.

Lemma getRate_spec :
  forall resp now later st,
    Nzd.getRate parseFloat toString resp now later st =
    if RateSpec.cacheHit parseFloat st now
    then (Normal (VNumber (RateSpec.cachedRate parseFloat st)), st)
    else Nzd.fetchRate toString resp later st.
Proof.
  intros resp now later st. unfold Nzd.getRate, bind.
  rewrite getCachedRate_spec.
  destruct (RateSpec.cacheHit parseFloat st now); reflexivity.
Qed.

(** Whatever the response and the storage, [fetchRate] returns the
    delivered rate or the fallback constant, and throws nothing. *)
Lemma fetchRate_value :
  forall resp now st,
    exists v st',
      Nzd.fetchRate toString resp now st = (Normal v, st')
      /\ (v = VNumber Nzd.FALLBACK_RATE \/ RateSpec.delivered resp = Some v).
Proof.
  intros resp now st. rewrite fetchRate_spec.
  destruct (RateSpec.delivered resp) as [rate|]; [|eauto].
  destruct (accepts Nzd.CACHE_KEY_RATE (toString rate) st); [|eauto].
  destruct (accepts Nzd.CACHE_KEY_TIME (string_of_Z now) _); eauto.
Qed.

(** When one of the two cache writes throws, the fetched rate is given
    up for the fallback constant. *)
Lemma fetchRate_write_throws :
  forall resp now st rate,
    RateSpec.delivered resp = Some rate ->
    RateSpec.writesBoth toString rate now st = false ->
    fst (Nzd.fetchRate toString resp now st) = Normal (VNumber Nzd.FALLBACK_RATE).
Proof.
  intros resp now st rate Hd Hw. rewrite fetchRate_spec, Hd.
  unfold RateSpec.writesBoth in Hw.
  destruct (accepts Nzd.CACHE_KEY_RATE (toString rate) st); [|reflexivity].
  simpl in Hw. now rewrite Hw.
Qed.

Lemma delivered_truthy :
  forall resp rate, RateSpec.delivered resp = Some rate -> truthy rate = true.
Proof.
  intros resp rate. unfold RateSpec.delivered.
  destruct (Nzd.fetch_json resp) as [data|e]; [|discriminate].
  destruct (Nzd.rates_USD data) as [r|e]; [|discriminate].
  destruct (truthy r) eqn:T; [|discriminate].
  intros H. injection H as <-. exact T.
Qed.

Lemma cacheHit_truthy :
  forall st now,
    RateSpec.cacheHit parseFloat st now = true ->
    truthy_number (RateSpec.cachedRate parseFloat st) = true.
Proof.
  intros st now H. unfold RateSpec.cacheHit in H.
  apply andb_true_iff in H as [H _]. apply andb_true_iff in H as [_ H]. exact H.
Qed.

End RateProviderFacts.

(** A failed request, a body that is not JSON and a body without the
    field deliver no rate. *)
Lemma failures_deliver_nothing :
  RateSpec.delivered Nzd.NetworkFailure = None
  /\ RateSpec.delivered Nzd.BodyNotJson = None
  /\ RateSpec.delivered (Nzd.Body VNull) = None
  /\ RateSpec.delivered (Nzd.Body (VObject [])) = None
  /\ RateSpec.delivered (Nzd.Body (VObject [("rates"%string, VObject [])])) = None
  /\ RateSpec.delivered
       (Nzd.Body (VObject [("rates"%string, VObject [("USD"%string, VNumber 0%float)])])) = None.
Proof. repeat split; reflexivity. Qed.

(** C7 fails on the code: a fetched rate is neither returned nor
    persisted when a cache write throws. The two [setItem] calls of
    [fetchRate] stand inside its [try] block, so a write that throws
    (storage denied or full) is caught by the handler meant for a failed
    request, and the fallback constant is returned although the request
    succeeded and delivered the rate 0.61. On the storage without room
    for both entries the rate entry is written before the time entry
    throws, and the cache is left half written. The conversion of $500
    per week then shows US$1,278 where the fetched rate gives US$1,322.
    This holds of every response that delivers a rate, whenever one of
    the two writes throws; and in no case does [getRate] throw. *)
Theorem fetched_rate_is_discarded_when_a_cache_write_throws :
  RateSpec.delivered (RateSpec.rateResponse 0.61%float) = Some (VNumber 0.61%float)
  /\ Nzd.getRate RateSpec.noParse (fun _ => lit "0.61") (RateSpec.rateResponse 0.61%float)
       1000 1200 RateSpec.fullStorage
     = (Normal (VNumber Nzd.FALLBACK_RATE), RateSpec.fullStorage)
  /\ Nzd.getRate RateSpec.noParse (fun _ => lit "0.61") (RateSpec.rateResponse 0.61%float)
       1000 1200 RateSpec.tightStorage
     = (Normal (VNumber Nzd.FALLBACK_RATE),
        mkStorage [(Nzd.CACHE_KEY_RATE, lit "0.61")] true true 20)
  /\ VNumber Nzd.FALLBACK_RATE <> VNumber 0.61%float
  /\ Nzd.nzdPerWeekToUsdPerMonth (of_Z 500) Nzd.FALLBACK_RATE = 1278%float
  /\ Nzd.nzdPerWeekToUsdPerMonth (of_Z 500) 0.61%float = 1322%float
  /\ (forall parseFloat toString resp now later st rate,
        RateSpec.cacheHit parseFloat st now = false ->
        RateSpec.delivered resp = Some rate ->
        RateSpec.writesBoth toString rate later st = false ->
        fst (Nzd.getRate parseFloat toString resp now later st)
          = Normal (VNumber Nzd.FALLBACK_RATE))
  /\ (forall parseFloat toString resp now later st,
        exists v st', Nzd.getRate parseFloat toString resp now later st = (Normal v, st')).
Proof.
  split; [reflexivity|]. split; [reflexivity|]. split; [reflexivity|].
  split.
  { intro H.
    apply (f_equal (fun v => match v with VNumber x => Prim2SF x | _ => S754_nan end)) in H.
    vm_compute in H. discriminate H. }
  split; [vm_compute; reflexivity|]. split; [vm_compute; reflexivity|].
  split.
  - intros parseFloat toString resp now later st rate Hmiss Hd Hw.
    rewrite getRate_spec, Hmiss. now apply fetchRate_write_throws with (rate := rate).
  - intros parseFloat toString resp now later st. rewrite getRate_spec.
    destruct (RateSpec.cacheHit parseFloat st now); [eauto|].
    destruct (fetchRate_value toString resp later st) as (v & st' & E & _). eauto.
Qed.

Lemma fetched_rate_is_discarded_when_a_cache_write_throws_witness :
  RateSpec.cacheHit RateSpec.noParse RateSpec.tightStorage 1000 = false
  /\ RateSpec.delivered (RateSpec.rateResponse 0.61%float) = Some (VNumber 0.61%float)
  /\ RateSpec.writesBoth (fun _ => lit "0.61") (VNumber 0.61%float) 1200 RateSpec.tightStorage
     = false
  /\ fst (Nzd.getRate RateSpec.noParse (fun _ => lit "0.61")
            (RateSpec.rateResponse 0.61%float) 1000 1200 RateSpec.tightStorage)
     = Normal (VNumber Nzd.FALLBACK_RATE).
Proof.
  split; [reflexivity|]. split; [reflexivity|]. split; [reflexivity|].
  apply (proj1 (proj2 (proj2 (proj2 (proj2 (proj2 (proj2
           fetched_rate_is_discarded_when_a_cache_write_throws))))))
           RateSpec.noParse (fun _ => lit "0.61") (RateSpec.rateResponse 0.61%float)
           1000%Z 1200%Z RateSpec.tightStorage (VNumber 0.61%float)
           eq_refl eq_refl eq_refl).
Defined.

(** ** The resolved rate *)

(** C8, as stated, fails on the code: the acceptance guards test
    truthiness, and a negative [rates.USD] passes them. Both scripts then
    hold a rate that is not above 0. *)
Lemma negative_rate_is_accepted :
  fst (Nzd.getRate RateSpec.noParse RateSpec.noText (RateSpec.rateResponse (-0.5)%float)
         1000 1200 RateSpec.emptyStorage)
    = Normal (VNumber (-0.5)%float)
  /\ Aud.audToUsdRate
       (Aud.onload (Aud.labelText (fun _ => nan))
          (Normal (VObject [("rates"%string, VObject [("USD"%string, VNumber (-0.5)%float)])]))
          (Aud.mkPage (VNumber Aud.FALLBACK_RATE) Examples.low_range))
     = VNumber (-0.5)%float
  /\ (0 <? -0.5)%float = false.
Proof. split; [reflexivity|]. split; reflexivity. Qed.

Lemma onload_rate :
  forall labelOf parsed p,
    Aud.audToUsdRate (Aud.onload labelOf parsed p) = Aud.audToUsdRate p
    \/ exists data,
         parsed = Normal data
         /\ truthy (Aud.rates_USD data) = true
         /\ Aud.audToUsdRate (Aud.onload labelOf parsed p) = Aud.rates_USD data.
Proof.
  intros labelOf parsed p. unfold Aud.onload.
  destruct parsed as [data|e]; [|left; reflexivity].
  destruct (truthy (Aud.rates_USD data)) eqn:T; [|left; reflexivity].
  right. exists data. repeat split. exact T.
Qed.

(** C8 (amended): the resolved exchange rate is truthy for every remote
    response and every cache content, that is, never 0, NaN, [null] or
    [undefined]: it is a fallback constant (0.59 or 0.67, both above 0),
    a cached Number or a fetched [rates.USD] that passed the truthiness
    guard. The rate variable of the Australian scripts changes only when
    a rate response is handled, and then to the truthy [rates.USD] of that
    response. Positivity is not checked. *)
Theorem resolved_rate_is_truthy :
  (forall parseFloat toString resp now later st v st',
      Nzd.getRate parseFloat toString resp now later st = (Normal v, st') ->
      truthy v = true)
  /\ (forall labelOf doc, truthy (Aud.audToUsdRate (Aud.start labelOf doc)) = true)
  /\ (forall labelOf parsed p,
        truthy (Aud.audToUsdRate p) = true ->
        truthy (Aud.audToUsdRate (Aud.onload labelOf parsed p)) = true
        /\ (Aud.audToUsdRate (Aud.onload labelOf parsed p) = Aud.audToUsdRate p
            \/ exists data,
                 parsed = Normal data
                 /\ Aud.audToUsdRate (Aud.onload labelOf parsed p) = Aud.rates_USD data))
  /\ (forall x, truthy (VNumber x) = true -> isNaN x = false /\ (x =? 0)%float = false)
  /\ (0 <? Nzd.FALLBACK_RATE)%float = true
  /\ (0 <? Aud.FALLBACK_RATE)%float = true.
Proof.
  split; [|split; [|split; [|split; [|split]]]].
  - intros parseFloat toString resp now later st v st' H.
    rewrite getRate_spec in H.
    destruct (RateSpec.cacheHit parseFloat st now) eqn:Hit.
    + injection H as <- _. simpl. eapply cacheHit_truthy; eassumption.
    + destruct (fetchRate_value toString resp later st) as (v0 & st0 & E & Hv).
      rewrite E in H. injection H as <- _.
      destruct Hv as [->|Hd]; [reflexivity|].
      eapply delivered_truthy; eassumption.
  - intros labelOf doc. reflexivity.
  - intros labelOf parsed p Hp.
    destruct (onload_rate labelOf parsed p) as [E|(data & -> & T & E)].
    + split; [now rewrite E|left; exact E].
    + split; [now rewrite E|right; exists data; split; [reflexivity|exact E]].
  - intros x H. simpl in H. unfold truthy_number in H.
    apply andb_true_iff in H as [H1 H2].
    apply negb_true_iff in H1, H2. split; assumption.
  - reflexivity.
  - reflexivity.
Qed.

Lemma resolved_rate_is_truthy_witness :
  Nzd.getRate RateSpec.noParse RateSpec.noText (RateSpec.rateResponse 0.61%float)
    1000 1200 RateSpec.emptyStorage
  = (Normal (VNumber 0.61%float),
     mkStorage [(Nzd.CACHE_KEY_RATE, lit "?"); (Nzd.CACHE_KEY_TIME, lit "1200")] true true
               RateSpec.ROOM)
  /\ truthy (VNumber 0.61%float) = true.
Proof.
  split; [reflexivity|].
  apply (proj1 resolved_rate_is_truthy RateSpec.noParse RateSpec.noText
               (RateSpec.rateResponse 0.61%float) 1000%Z 1200%Z RateSpec.emptyStorage
               (VNumber 0.61%float)
               (mkStorage [(Nzd.CACHE_KEY_RATE, lit "?"); (Nzd.CACHE_KEY_TIME, lit "1200")]
                          true true RateSpec.ROOM)).
  reflexivity.
Defined.

(** ** The change loop *)

(** C3 fails on the code: the debounced function keeps the arguments of
    its last call only. Of two mutation events 150 ms apart, each adding a
    listing, the single re-scan at 450 ms covers the root added by the
    second event (node 5) and not the root added by the first (node 3),
    whose price is still unconverted when the next sweep is due. *)
Theorem debounce_keeps_the_last_batch_only :
  let s := Nzd.run Nzd.FALLBACK_RATE Examples.feed0 0 Examples.burst 1499 in
  Nzd.scans s = [Nzd.DebouncedScan 450 [5]]
  /\ Nzd.doc s = Examples.feed2_scanned
  /\ lookup 4 (Nzd.doc s) = Some (Text 4 (lit "$500 per week")).
Proof. vm_compute. repeat split; reflexivity. Qed.

Section LoopFacts.

Import Nzd LoopSpec.

Variable rate : number.

Lemma nextSweep_sweepTick :
  forall now s, nextSweep (sweepTick rate now s) = (nextSweep s + SWEEP_INTERVAL_MS)%Z.
Proof.
  intros now s. unfold sweepTick. destruct (SWEEP_IDLE_MS <? now - lastScrollTime s)%Z; reflexivity.
Qed.

Lemma timer_sweepTick : forall now s, timer (sweepTick rate now s) = timer s.
Proof.
  intros now s. unfold sweepTick. destruct (SWEEP_IDLE_MS <? now - lastScrollTime s)%Z; reflexivity.
Qed.

Lemma lastScrollTime_sweepTick :
  forall now s, lastScrollTime (sweepTick rate now s) = lastScrollTime s.
Proof.
  intros now s. unfold sweepTick. destruct (SWEEP_IDLE_MS <? now - lastScrollTime s)%Z; reflexivity.
Qed.

(** A tick re-scans exactly when the last scroll is at most
    [SWEEP_IDLE_MS] old. *)
Lemma sweepTimes_sweepTick :
  forall now s,
    sweepTimes (scans (sweepTick rate now s)) =
    if (SWEEP_IDLE_MS <? now - lastScrollTime s)%Z
    then sweepTimes (scans s)
    else now :: sweepTimes (scans s).
Proof.
  intros now s. unfold sweepTick. destruct (SWEEP_IDLE_MS <? now - lastScrollTime s)%Z; reflexivity.
Qed.

(** What holds before the timers fire and is kept by each firing holds
    after [advance]. *)
Lemma advance_fuel_preserves :
  forall (P : loop -> Prop) (t : Z),
    (forall s due roots,
        timer s = Some (due, roots) -> (due <= t)%Z -> P s ->
        P (fireTimeout rate due roots s)) ->
    (forall s, (nextSweep s <= t)%Z -> P s -> P (sweepTick rate (nextSweep s) s)) ->
    forall fuel s, P s -> P (advance_fuel rate fuel t s).
Proof.
  intros P t Hfire Hsweep. induction fuel as [|fuel IH]; intros s Hs; simpl; [exact Hs|].
  destruct (timer s) as [[due roots]|] eqn:Ht.
  - destruct ((due <=? t)%Z && (due <=? nextSweep s)%Z) eqn:E.
    + apply andb_true_iff in E as [E _]. apply Z.leb_le in E.
      apply IH. eapply Hfire; eassumption.
    + destruct (nextSweep s <=? t)%Z eqn:E2; [|exact Hs].
      apply Z.leb_le in E2. apply IH. now apply Hsweep.
  - destruct (nextSweep s <=? t)%Z eqn:E2; [|exact Hs].
    apply Z.leb_le in E2. apply IH. now apply Hsweep.
Qed.

Lemma advance_preserves :
  forall (P : loop -> Prop) (t : Z),
    (forall s due roots,
        timer s = Some (due, roots) -> (due <= t)%Z -> P s ->
        P (fireTimeout rate due roots s)) ->
    (forall s, (nextSweep s <= t)%Z -> P s -> P (sweepTick rate (nextSweep s) s)) ->
    forall s, P s -> P (advance rate t s).
Proof.
  intros P t Hfire Hsweep s Hs. unfold advance. now apply advance_fuel_preserves.
Qed.

Lemma due_count_nonneg : forall t s, (0 <= due_count t s)%Z.
Proof.
  intros t s. unfold due_count, SWEEP_INTERVAL_MS.
  destruct (nextSweep s <=? t)%Z eqn:E.
  - apply Z.leb_le in E.
    assert (0 <= (t - nextSweep s) / 1500)%Z by (apply Z.div_pos; lia).
    destruct (timer s) as [[due roots]|]; [destruct (due <=? t)%Z|]; lia.
  - destruct (timer s) as [[due roots]|]; [destruct (due <=? t)%Z|]; lia.
Qed.

(** With enough fuel nothing is left due. *)
Lemma advance_fuel_complete :
  forall t fuel s,
    (due_count t s <= Z.of_nat fuel)%Z ->
    (t < nextSweep (advance_fuel rate fuel t s))%Z
    /\ match timer (advance_fuel rate fuel t s) with
       | Some (due, _) => (t < due)%Z
       | None => True
       end.
Proof.
  intros t. induction fuel as [|fuel IH]; intros s H.
  - simpl. unfold due_count, SWEEP_INTERVAL_MS in H.
    destruct (nextSweep s <=? t)%Z eqn:E.
    + apply Z.leb_le in E. exfalso.
      assert (0 <= (t - nextSweep s) / 1500)%Z by (apply Z.div_pos; lia).
      destruct (timer s) as [[due roots]|]; [destruct (due <=? t)%Z|]; lia.
    + apply Z.leb_gt in E. split; [exact E|].
      destruct (timer s) as [[due roots]|]; [|exact I].
      destruct (due <=? t)%Z eqn:E2; [exfalso; lia|]. now apply Z.leb_gt in E2.
  - simpl. unfold due_count in H.
    destruct (timer s) as [[due roots]|] eqn:Ht.
    + destruct ((due <=? t)%Z && (due <=? nextSweep s)%Z) eqn:E.
      * apply andb_true_iff in E as [E _]. rewrite E in H.
        apply IH. unfold due_count, fireTimeout. simpl. lia.
      * destruct (nextSweep s <=? t)%Z eqn:E2.
        -- apply IH. unfold due_count.
           rewrite nextSweep_sweepTick, timer_sweepTick, Ht.
           apply Z.leb_le in E2. unfold SWEEP_INTERVAL_MS in *.
           assert (0 <= (t - nextSweep s) / 1500)%Z by (apply Z.div_pos; lia).
           destruct (nextSweep s + 1500 <=? t)%Z eqn:E3.
           ++ apply Z.leb_le in E3.
              replace (t - (nextSweep s + 1500))%Z with (t - nextSweep s + (-1) * 1500)%Z by lia.
              rewrite Z.div_add by lia. destruct (due <=? t)%Z; lia.
           ++ destruct (due <=? t)%Z; lia.
        -- apply Z.leb_gt in E2. split; [exact E2|]. rewrite Ht.
           apply andb_false_iff in E. destruct E as [E|E]; apply Z.leb_gt in E; lia.
    + destruct (nextSweep s <=? t)%Z eqn:E2.
      * apply IH. unfold due_count.
        rewrite nextSweep_sweepTick, timer_sweepTick, Ht.
        apply Z.leb_le in E2. unfold SWEEP_INTERVAL_MS in *.
        assert (0 <= (t - nextSweep s) / 1500)%Z by (apply Z.div_pos; lia).
        destruct (nextSweep s + 1500 <=? t)%Z eqn:E3.
        -- apply Z.leb_le in E3.
           replace (t - (nextSweep s + 1500))%Z with (t - nextSweep s + (-1) * 1500)%Z by lia.
           rewrite Z.div_add by lia. lia.
        -- lia.
      * apply Z.leb_gt in E2. split; [exact E2|]. now rewrite Ht.
Qed.

(** After [advance] to the time [t] every timer is due after [t]. *)
Lemma advance_complete :
  forall t s,
    (t < nextSweep (advance rate t s))%Z
    /\ match timer (advance rate t s) with
       | Some (due, _) => (t < due)%Z
       | None => True
       end.
Proof.
  intros t s. unfold advance. apply advance_fuel_complete.
  unfold due_count, SWEEP_INTERVAL_MS.
  destruct (nextSweep s <=? t)%Z eqn:E.
  - apply Z.leb_le in E.
    assert (0 <= (t - nextSweep s) / 1500)%Z by (apply Z.div_pos; lia).
    rewrite Nat2Z.inj_add, Z2Nat.id by assumption.
    destruct (timer s) as [[due roots]|]; [destruct (due <=? t)%Z|]; lia.
  - rewrite Nat2Z.inj_add.
    destruct (timer s) as [[due roots]|]; [destruct (due <=? t)%Z|]; lia.
Qed.

End LoopFacts.

Section SweepFacts.

Import Nzd LoopSpec.

Variable rate : number.

Lemma settled_fireTimeout :
  forall due roots s, settled s -> settled (fireTimeout rate due roots s).
Proof. intros due roots s H. exact H. Qed.

Lemma settled_sweepTick :
  forall s, settled s -> settled (sweepTick rate (nextSweep s) s).
Proof.
  intros s [Hsp Hall]. unfold settled, spaced in *.
  rewrite sweepTimes_sweepTick, nextSweep_sweepTick.
  unfold SWEEP_INTERVAL_MS in *.
  destruct (SWEEP_IDLE_MS <? nextSweep s - lastScrollTime s)%Z.
  - split; [exact Hsp|]. eapply Forall_impl; [|exact Hall]. simpl. intros; lia.
  - split.
    + constructor; [exact Hsp|]. eapply Forall_impl; [|exact Hall]. simpl. intros; lia.
    + constructor; [lia|]. eapply Forall_impl; [|exact Hall]. simpl. intros; lia.
Qed.

Lemma settled_advance : forall t s, settled s -> settled (advance rate t s).
Proof.
  intros t s H. apply advance_preserves; [| |exact H].
  - intros s' due roots _ _ Hs. now apply settled_fireTimeout.
  - intros s' _ Hs. now apply settled_sweepTick.
Qed.

Lemma scans_onMutations :
  forall now doc' records s,
    scans (onMutations now doc' records s) = scans s
    /\ nextSweep (onMutations now doc' records s) = nextSweep s
    /\ lastScrollTime (onMutations now doc' records s) = lastScrollTime s.
Proof.
  intros now doc' records s. unfold onMutations.
  destruct (newRoots records); repeat split; reflexivity.
Qed.

Lemma settled_handle : forall s e, settled s -> settled (handle rate s e).
Proof.
  intros s e H. unfold handle.
  pose proof (settled_advance (event_time e) H) as H'.
  destruct e as [now doc' records|now]; simpl event_time in *.
  - unfold settled in *.
    destruct (scans_onMutations now doc' records (advance rate now s)) as (-> & -> & _).
    exact H'.
  - exact H'.
Qed.

Lemma settled_run :
  forall body t0 events horizon, settled (run rate body t0 events horizon).
Proof.
  intros body t0 events horizon. unfold run. apply settled_advance.
  assert (H0 : settled (initWithRate rate body t0)).
  { split; simpl; constructor. }
  revert H0. generalize (initWithRate rate body t0).
  induction events as [|e r IH]; intros s Hs; simpl; [exact Hs|].
  apply IH. now apply settled_handle.
Qed.

Lemma lastScroll_snoc :
  forall t0 handled e t,
    lastScroll t0 (handled ++ [e]) t =
    match e with
    | Scroll s => if (s <? t)%Z then s else lastScroll t0 handled t
    | Mutations _ _ _ => lastScroll t0 handled t
    end.
Proof.
  intros t0 handled e t. unfold lastScroll. rewrite fold_left_app. simpl.
  destruct e; reflexivity.
Qed.

Lemma latestScroll_snoc :
  forall t0 handled e,
    latestScroll t0 (handled ++ [e]) =
    match e with
    | Scroll s => s
    | Mutations _ _ _ => latestScroll t0 handled
    end.
Proof.
  intros t0 handled e. unfold latestScroll. rewrite fold_left_app. simpl.
  destruct e; reflexivity.
Qed.

Lemma lastTime_snoc :
  forall t0 handled e, lastTime t0 (handled ++ [e]) = event_time e.
Proof.
  intros t0 handled e. unfold lastTime. rewrite fold_left_app. reflexivity.
Qed.

(** When every event comes before [t], the last scroll before [t] is the
    last scroll. *)
Lemma lastScroll_all :
  forall handled t0 t,
    Forall (fun e => (event_time e < t)%Z) handled ->
    lastScroll t0 handled t = latestScroll t0 handled.
Proof.
  induction handled as [|e r IH]; intros t0 t H; [reflexivity|].
  inversion H as [|? ? He Hr]; subst. unfold lastScroll, latestScroll in *. simpl.
  destruct e as [now doc' records|now]; simpl in *.
  - now apply IH.
  - apply Z.ltb_lt in He. rewrite He. now apply IH.
Qed.

Section Handled.

Variables (t0 : Z) (handled : list event).
Hypothesis Hpast : Forall (fun e => (event_time e <= lastTime t0 handled)%Z) handled.

Lemma idle_ok_fireTimeout :
  forall bound due roots s,
    idle_ok t0 handled bound s -> idle_ok t0 handled bound (fireTimeout rate due roots s).
Proof. intros bound due roots s H. exact H. Qed.

Lemma idle_ok_sweepTick :
  forall bound s,
    (nextSweep s <= bound)%Z ->
    idle_ok t0 handled bound s ->
    idle_ok t0 handled bound (sweepTick rate (nextSweep s) s).
Proof.
  intros bound s Hb (Hls & Hlt & Hns & Hall). unfold idle_ok.
  rewrite sweepTimes_sweepTick, nextSweep_sweepTick, lastScrollTime_sweepTick.
  unfold SWEEP_INTERVAL_MS, SWEEP_IDLE_MS in *.
  split; [exact Hls|]. split; [lia|]. split; [lia|].
  destruct (10000 <? nextSweep s - lastScrollTime s)%Z eqn:E; [exact Hall|].
  constructor; [|exact Hall].
  apply Z.ltb_ge in E.
  assert (Hlast : lastScroll t0 handled (nextSweep s) = latestScroll t0 handled).
  { apply lastScroll_all. eapply Forall_impl; [|exact Hpast]. simpl. intros; lia. }
  rewrite Hlast, <- Hls. lia.
Qed.

Lemma idle_ok_weaken :
  forall b1 b2 s, (b1 <= b2)%Z -> idle_ok t0 handled b1 s -> idle_ok t0 handled b2 s.
Proof.
  intros b1 b2 s Hb (Hls & Hlt & Hns & Hall).
  repeat (split; [assumption|]).
  eapply Forall_impl; [|exact Hall]. simpl. intros; lia.
Qed.

Lemma idle_ok_advance :
  forall bound t s,
    (t <= bound)%Z ->
    idle_ok t0 handled bound s -> idle_ok t0 handled bound (advance rate t s).
Proof.
  intros bound t s Hb H. apply advance_preserves; [| |exact H].
  - intros s' due roots _ _ Hs. now apply idle_ok_fireTimeout.
  - intros s' Hle Hs. apply idle_ok_sweepTick; [lia|exact Hs].
Qed.

Lemma idle_ok_handle :
  forall s e,
    (lastTime t0 handled <= event_time e)%Z ->
    idle_ok t0 handled (lastTime t0 handled) s ->
    idle_ok t0 (handled ++ [e]) (lastTime t0 (handled ++ [e])) (handle rate s e).
Proof.
  intros s e Hle H. rewrite lastTime_snoc.
  pose proof (idle_ok_advance (t := event_time e) (Z.le_refl _)
                (idle_ok_weaken Hle H)) as (Hls & Hlt & Hns & Hall).
  pose proof (proj1 (advance_complete rate (event_time e) s)) as Hdone.
  unfold handle, idle_ok. rewrite lastTime_snoc, latestScroll_snoc.
  assert (Hall' :
    Forall (fun t => (t <= event_time e)%Z
                     /\ (t0 + SWEEP_INTERVAL_MS <= t)%Z
                     /\ (t - lastScroll t0 (handled ++ [e]) t <= SWEEP_IDLE_MS)%Z)
           (sweepTimes (scans (advance rate (event_time e) s)))).
  { eapply Forall_impl; [|exact Hall]. simpl. intros t (H1 & H2 & H3).
    split; [exact H1|]. split; [exact H2|].
    rewrite lastScroll_snoc. destruct e as [now doc' records|now]; [exact H3|].
    simpl in *. destruct (now <? t)%Z eqn:E; [|exact H3].
    apply Z.ltb_lt in E. lia. }
  destruct e as [now doc' records|now]; simpl in *.
  - destruct (scans_onMutations now doc' records (advance rate now s)) as (-> & -> & ->).
    repeat (split; [assumption|]). exact Hall'.
  - repeat (split; [first [reflexivity|assumption]|]). exact Hall'.
Qed.

End Handled.

Lemma past_snoc :
  forall t0 handled e,
    Forall (fun x => (event_time x <= lastTime t0 handled)%Z) handled ->
    (lastTime t0 handled <= event_time e)%Z ->
    Forall (fun x => (event_time x <= lastTime t0 (handled ++ [e]))%Z) (handled ++ [e]).
Proof.
  intros t0 handled e H Hle. rewrite lastTime_snoc. apply Forall_app. split.
  - eapply Forall_impl; [|exact H]. simpl. intros; lia.
  - constructor; [lia|constructor].
Qed.

Lemma idle_ok_fold :
  forall t0 events handled s,
    Forall (fun x => (event_time x <= lastTime t0 handled)%Z) handled ->
    sorted_from (lastTime t0 handled) events ->
    idle_ok t0 handled (lastTime t0 handled) s ->
    Forall (fun x => (event_time x <= lastTime t0 (handled ++ events))%Z) (handled ++ events)
    /\ idle_ok t0 (handled ++ events) (lastTime t0 (handled ++ events))
         (fold_left (handle rate) events s).
Proof.
  intros t0. induction events as [|e r IH]; intros handled s Hpast Hsorted H.
  - rewrite app_nil_r. split; assumption.
  - destruct Hsorted as [Hle Hsorted]. simpl fold_left.
    replace (handled ++ e :: r) with ((handled ++ [e]) ++ r)
      by (rewrite <- app_assoc; reflexivity).
    apply IH.
    + now apply past_snoc.
    + now rewrite lastTime_snoc.
    + now apply idle_ok_handle.
Qed.

End SweepFacts.

(** C9: the fallback sweep re-scans at most once per interval of
    [SWEEP_INTERVAL_MS] (any two sweeps of a run are at least 1500 ms
    apart), and it re-scans at no tick that comes more than
    [SWEEP_IDLE_MS] = 10000 ms after the last scroll event observed
    before the tick (the start of the loop standing in for a scroll
    event when there was none). *)
Theorem sweep_is_spaced_and_suppressed_when_idle :
  forall rate body t0 events horizon,
    LoopSpec.spaced (LoopSpec.sweepTimes (Nzd.scans (Nzd.run rate body t0 events horizon)))
    /\ (LoopSpec.sorted_from t0 events ->
        forall t,
          In t (LoopSpec.sweepTimes (Nzd.scans (Nzd.run rate body t0 events horizon))) ->
          (t0 + Nzd.SWEEP_INTERVAL_MS <= t)%Z
          /\ (t - LoopSpec.lastScroll t0 events t <= Nzd.SWEEP_IDLE_MS)%Z).
Proof.
  intros rate body t0 events horizon. split.
  - apply settled_run.
  - intros Hsorted t Hin.
    assert (H0 : LoopSpec.idle_ok t0 [] (LoopSpec.lastTime t0 [])
                   (Nzd.initWithRate rate body t0)).
    { unfold LoopSpec.idle_ok, LoopSpec.lastTime. simpl.
      unfold Nzd.SWEEP_INTERVAL_MS.
      split; [reflexivity|]. split; [lia|]. split; [lia|]. constructor. }
    destruct (@idle_ok_fold rate t0 events [] _ (Forall_nil _) Hsorted H0) as [Hpast H].
    simpl app in *.
    set (bound := Z.max horizon (LoopSpec.lastTime t0 events)).
    assert (Hfinal : LoopSpec.idle_ok t0 events bound (Nzd.run rate body t0 events horizon)).
    { unfold Nzd.run. apply idle_ok_advance; [exact Hpast|unfold bound; lia|].
      eapply idle_ok_weaken; [|exact H]. unfold bound; lia. }
    destruct Hfinal as (_ & _ & _ & Hall).
    rewrite Forall_forall in Hall. destruct (Hall t Hin) as (_ & H2 & H3).
    split; assumption.
Qed.

Section DebounceFacts.

Import Nzd LoopSpec.

Variable rate : number.

Lemma debounced_sweepTick :
  forall now s, debounced (scans (sweepTick rate now s)) = debounced (scans s).
Proof.
  intros now s. unfold sweepTick.
  destruct (SWEEP_IDLE_MS <? now - lastScrollTime s)%Z; reflexivity.
Qed.

(** Before its due time a pending timeout stays as it is. *)
Lemma advance_keeps_pending :
  forall t due roots s,
    (t < due)%Z ->
    timer s = Some (due, roots) /\ debounced (scans s) = [] ->
    timer (advance rate t s) = Some (due, roots)
    /\ debounced (scans (advance rate t s)) = [].
Proof.
  intros t due roots s Hlt H.
  apply (advance_preserves rate
           (fun s => timer s = Some (due, roots) /\ debounced (scans s) = [])); [| |exact H].
  - intros s' due' roots' Ht Hle [Ht' _]. rewrite Ht in Ht'. injection Ht' as -> _. lia.
  - intros s' _ [Ht' Hd]. now rewrite timer_sweepTick, debounced_sweepTick.
Qed.

Lemma advance_keeps_idle :
  forall t s,
    timer s = None /\ debounced (scans s) = [] ->
    timer (advance rate t s) = None /\ debounced (scans (advance rate t s)) = [].
Proof.
  intros t s H.
  apply (advance_preserves rate
           (fun s => timer s = None /\ debounced (scans s) = [])); [| |exact H].
  - intros s' due' roots' Ht _ [Ht' _]. congruence.
  - intros s' _ [Ht' Hd]. now rewrite timer_sweepTick, debounced_sweepTick.
Qed.

(** Past its due time the timeout has fired, once. *)
Lemma advance_fires_pending :
  forall t due roots s,
    (due <= t)%Z ->
    timer s = Some (due, roots) /\ debounced (scans s) = [] ->
    timer (advance rate t s) = None
    /\ debounced (scans (advance rate t s)) = [DebouncedScan due roots].
Proof.
  intros t due roots s Hle H.
  assert (Hp : pending_or_fired due roots (advance rate t s)).
  { apply (advance_preserves rate (pending_or_fired due roots)); [| |left; exact H].
    - intros s' due' roots' Ht _ [[Ht' Hd]|[Ht' _]]; [|congruence].
      rewrite Ht in Ht'. injection Ht' as -> ->.
      right. unfold fireTimeout. simpl. now rewrite Hd.
    - intros s' _ Hs. unfold pending_or_fired.
      now rewrite timer_sweepTick, debounced_sweepTick. }
  destruct Hp as [[Ht _]|Hf]; [|exact Hf].
  pose proof (proj2 (advance_complete rate t s)) as Hc. rewrite Ht in Hc. lia.
Qed.

Lemma handle_burst_event :
  forall now doc' records s,
    newRoots records <> [] ->
    debounced (scans (advance rate now s)) = [] ->
    timer (handle rate s (Mutations now doc' records))
      = Some ((now + DEBOUNCE_MS)%Z, newRoots records)
    /\ debounced (scans (handle rate s (Mutations now doc' records))) = [].
Proof.
  intros now doc' records s Hne Hd. unfold handle, onMutations. simpl event_time.
  destruct (newRoots records) as [|r rs] eqn:E; [contradiction|].
  split; [reflexivity|exact Hd].
Qed.

Lemma burst_fold :
  forall rest prev roots s,
    timer s = Some ((prev + DEBOUNCE_MS)%Z, roots) ->
    debounced (scans s) = [] ->
    is_burst prev rest ->
    timer (fold_left (handle rate) rest s)
      = Some ((fst (burstEnd prev roots rest) + DEBOUNCE_MS)%Z, snd (burstEnd prev roots rest))
    /\ debounced (scans (fold_left (handle rate) rest s)) = [].
Proof.
  induction rest as [|e r IH]; intros prev roots s Ht Hd Hb.
  - simpl. split; assumption.
  - destruct e as [now doc' records|now]; [|contradiction].
    destruct Hb as (Hgap & Hne & Hb). simpl fold_left. simpl burstEnd.
    assert (Hk : timer (advance rate now s) = Some ((prev + DEBOUNCE_MS)%Z, roots)
                 /\ debounced (scans (advance rate now s)) = []).
    { apply advance_keeps_pending; [lia|split; assumption]. }
    destruct (@handle_burst_event now doc' records s Hne (proj2 Hk)) as [Ht' Hd'].
    now apply IH.
Qed.

(** A burst of mutation events, each less than the debounce window after
    the one before, is followed by exactly one debounced re-scan, one
    window after the last event, and that re-scan is given the element
    roots added by the last event. *)
Lemma burst_rescans_once_with_last_roots :
  forall body t0 now doc' records rest horizon,
    newRoots records <> [] ->
    is_burst now rest ->
    (fst (burstEnd now (newRoots records) rest) + DEBOUNCE_MS <= horizon)%Z ->
    debounced (scans (run rate body t0 (Mutations now doc' records :: rest) horizon))
    = [DebouncedScan (fst (burstEnd now (newRoots records) rest) + DEBOUNCE_MS)%Z
                     (snd (burstEnd now (newRoots records) rest))].
Proof.
  intros body t0 now doc' records rest horizon Hne Hb Hh.
  unfold run. simpl fold_left.
  assert (H0 : timer (advance rate now (initWithRate rate body t0)) = None
               /\ debounced (scans (advance rate now (initWithRate rate body t0))) = []).
  { apply advance_keeps_idle. split; reflexivity. }
  destruct (@handle_burst_event now doc' records (initWithRate rate body t0)
              Hne (proj2 H0)) as [Ht Hd].
  destruct (@burst_fold rest _ _ _ Ht Hd Hb) as [Ht' Hd'].
  apply (@advance_fires_pending _ _ _ _ Hh (conj Ht' Hd')).
Qed.

End DebounceFacts.

Lemma sweep_is_spaced_and_suppressed_when_idle_witness :
  LoopSpec.sorted_from 0 [Nzd.Scroll 4000]
  /\ LoopSpec.sweepTimes
       (Nzd.scans (Nzd.run Nzd.FALLBACK_RATE Examples.feed0 0 [Nzd.Scroll 4000] 20000))
     = [13500; 12000; 10500; 9000; 7500; 6000; 4500; 3000; 1500]%Z
  /\ (0 + Nzd.SWEEP_INTERVAL_MS <= 13500)%Z
  /\ (13500 - LoopSpec.lastScroll 0 [Nzd.Scroll 4000] 13500 <= Nzd.SWEEP_IDLE_MS)%Z.
Proof.
  assert (Hs : LoopSpec.sorted_from 0 [Nzd.Scroll 4000]) by (simpl; lia).
  split; [exact Hs|]. split; [vm_compute; reflexivity|].
  apply (proj2 (sweep_is_spaced_and_suppressed_when_idle Nzd.FALLBACK_RATE Examples.feed0
                  0 [Nzd.Scroll 4000] 20000) Hs 13500%Z).
  vm_compute. left. reflexivity.
Defined.

(** * Further properties *)

(** ** Decimal text of an integer and its reading *)

Lemma decimal_digits_acc :
  forall fuel n acc, decimal_digits fuel n acc = decimal_digits fuel n [] ++ acc.
Proof.
  induction fuel as [|fuel IH]; intros n acc; cbn [decimal_digits]; [reflexivity|].
  destruct (n <? 10)%Z; [reflexivity|].
  rewrite (IH _ (_ :: acc)), (IH _ [_]). now rewrite <- app_assoc.
Qed.

Lemma decimal_digit_is_digit :
  forall n, is_digit (48 + Z.to_N (n mod 10))%N = true.
Proof.
  intros n. pose proof (Z.mod_pos_bound n 10 ltac:(lia)) as H.
  unfold is_digit. apply andb_true_iff. split; apply N.leb_le; lia.
Qed.

Lemma decimal_digits_all_digits :
  forall fuel n, forallb is_digit (decimal_digits fuel n []) = true.
Proof.
  induction fuel as [|fuel IH]; intros n; cbn [decimal_digits]; [reflexivity|].
  destruct (n <? 10)%Z.
  - cbn [forallb]. now rewrite decimal_digit_is_digit.
  - rewrite decimal_digits_acc, forallb_app, IH. cbn [forallb].
    now rewrite decimal_digit_is_digit.
Qed.

Lemma digits_val_snoc :
  forall ds c, digits_val (ds ++ [c]) = (digits_val ds * 10 + digit_val c)%Z.
Proof. intros ds c. unfold digits_val. now rewrite fold_left_app. Qed.

Lemma decimal_digits_val :
  forall fuel n,
    (0 <= n < 2 ^ Z.of_nat fuel)%Z -> fuel <> 0 ->
    digits_val (decimal_digits fuel n []) = n.
Proof.
  induction fuel as [|fuel IH]; intros n Hn Hf; [contradiction|].
  cbn [decimal_digits].
  assert (Hd : digit_val (48 + Z.to_N (n mod 10))%N = (n mod 10)%Z).
  { unfold digit_val. pose proof (Z.mod_pos_bound n 10 ltac:(lia)). lia. }
  destruct (n <? 10)%Z eqn:E.
  - apply Z.ltb_lt in E. unfold digits_val. cbn [fold_left]. rewrite Hd.
    rewrite Z.mod_small by lia. lia.
  - apply Z.ltb_ge in E. rewrite decimal_digits_acc, digits_val_snoc, Hd.
    rewrite IH.
    + pose proof (Z.div_mod n 10 ltac:(lia)). lia.
    + rewrite Nat2Z.inj_succ, Z.pow_succ_r in Hn by lia.
      split; [apply Z.div_pos; lia|].
      apply Z.div_lt_upper_bound; lia.
    + intros ->. simpl in Hn. lia.
Qed.

Lemma decimal_digits_nonempty :
  forall fuel n, fuel <> 0 -> decimal_digits fuel n [] <> [].
Proof.
  intros [|fuel] n Hf; [contradiction|]. cbn [decimal_digits].
  destruct (n <? 10)%Z; [discriminate|].
  rewrite decimal_digits_acc. intros H. apply app_eq_nil in H as [_ H]. discriminate.
Qed.

Lemma digits_of_Z_all_digits : forall n, forallb is_digit (digits_of_Z n) = true.
Proof. intros n. apply decimal_digits_all_digits. Qed.

Lemma digits_of_Z_nonempty : forall n, digits_of_Z n <> [].
Proof. intros n. now apply decimal_digits_nonempty. Qed.

Lemma digits_of_Z_val : forall n, (0 <= n)%Z -> digits_val (digits_of_Z n) = n.
Proof.
  intros n Hn. apply decimal_digits_val; [|discriminate].
  split; [exact Hn|].
  destruct (Z.eq_dec n 0) as [->|Hz]; [reflexivity|].
  rewrite Nat2Z.inj_succ, Z2Nat.id by apply Z.log2_nonneg.
  apply Z.log2_spec. lia.
Qed.

(** [parseInt(String(n), 10)] is [n]. *)
Lemma parseIntZ_string_of_Z : forall n, parseIntZ (string_of_Z n) = Some n.
Proof.
  intros n. unfold parseIntZ, string_of_Z.
  destruct (n <? 0)%Z eqn:E.
  - apply Z.ltb_lt in E.
    pose proof (digits_of_Z_all_digits (- n)) as Hall.
    pose proof (digits_of_Z_nonempty (- n)) as Hne.
    unfold parseInt_parts, trimStart, dropWhile. simpl.
    pose proof (span_run is_digit (digits_of_Z (- n)) [] Hall I) as Hrun.
    rewrite app_nil_r in Hrun. rewrite Hrun. cbn [fst].
    destruct (digits_of_Z (- n)) as [|c t] eqn:Ed; [contradiction|].
    rewrite <- Ed, digits_of_Z_val by lia. f_equal. lia.
  - apply Z.ltb_ge in E.
    rewrite (parseInt_parts_digits _ (digits_of_Z_all_digits n)).
    destruct (digits_of_Z n) as [|c t] eqn:Ed.
    + now apply digits_of_Z_nonempty in Ed.
    + rewrite <- Ed, digits_of_Z_val by lia. reflexivity.
Qed.

(** ** The cache of the rate provider *)

Lemma assoc_set_same :
  forall k v l, assoc k (assoc_set k v l) = Some v.
Proof.
  intros k v. induction l as [|[k' w] t IH]; simpl.
  - now rewrite String.eqb_refl.
  - destruct (String.eqb k' k) eqn:E; simpl; rewrite E; [reflexivity|exact IH].
Qed.

Lemma assoc_set_other :
  forall k k' v l, k <> k' -> assoc k (assoc_set k' v l) = assoc k l.
Proof.
  intros k k' v l Hk. induction l as [|[k0 w] t IH]; simpl.
  - destruct (String.eqb k' k) eqn:E; [|reflexivity].
    apply String.eqb_eq in E. congruence.
  - destruct (String.eqb k0 k') eqn:E; simpl.
    + apply String.eqb_eq in E. subst k0.
      destruct (String.eqb k' k) eqn:E'; [|reflexivity].
      apply String.eqb_eq in E'. congruence.
    + destruct (String.eqb k0 k); [reflexivity|exact IH].
Qed.

Section CacheFacts.

Import Nzd RateSpec.

Variable parseFloat : jsstring -> number.
Variable toString : value -> jsstring.

Lemma cachedRate_persisted :
  forall rate t st,
    cachedRate parseFloat (persisted toString rate t st) = parseFloat (toString rate).
Proof.
  intros rate t st. unfold cachedRate, persisted. cbn [items].
  rewrite assoc_set_other by discriminate. now rewrite assoc_set_same.
Qed.

Lemma cachedTime_persisted :
  forall rate t st, cachedTime (persisted toString rate t st) = Some t.
Proof.
  intros rate t st. unfold cachedTime, persisted. cbn [items].
  rewrite assoc_set_same. cbn [item_text]. apply parseIntZ_string_of_Z.
Qed.

Lemma cacheHit_persisted :
  forall rate t st now,
    cacheHit parseFloat (persisted toString rate t st) now
    = readable st && truthy_number (parseFloat (toString rate))
      && (negb (t =? 0)%Z && (now - t <? CACHE_TTL_MS)%Z).
Proof.
  intros rate t st now. unfold cacheHit.
  rewrite cachedRate_persisted, cachedTime_persisted. reflexivity.
Qed.

End CacheFacts.

(** X1: what the cache holds after a fetch that went through. When the
    response delivers a rate and both cache writes of [fetchRate] go
    through at the time [t], [fetchRate] returns that rate and leaves the
    rate entry and the time entry written. From then on [getCachedRate]
    returns the stored rate, as [parseFloat] reads its text back, exactly
    when the storage can be read, that Number is neither NaN nor 0, [t]
    is not 0 and [now - t] is below [CACHE_TTL_MS]; then [getRate]
    returns it whatever a new request would come to and leaves the
    storage as it is, and otherwise [getRate] fetches again. So a fetched
    value whose text does not read back as a usable Number (the value
    [true], stored as the text true) is never served from the cache. *)
Theorem fetched_rate_is_cached_for_one_hour :
  forall parseFloat toString resp rate t st,
    RateSpec.delivered resp = Some rate ->
    RateSpec.writesBoth toString rate t st = true ->
    Nzd.fetchRate toString resp t st
      = (Normal rate, RateSpec.persisted toString rate t st)
    /\ forall now,
         let st1 := RateSpec.persisted toString rate t st in
         let served :=
           readable st && truthy_number (parseFloat (toString rate))
           && (negb (t =? 0)%Z && (now - t <? Nzd.CACHE_TTL_MS)%Z) in
         Nzd.getCachedRate parseFloat now st1
           = (Normal (if served then Some (parseFloat (toString rate)) else None), st1)
         /\ forall resp' later,
              Nzd.getRate parseFloat toString resp' now later st1
              = if served then (Normal (VNumber (parseFloat (toString rate))), st1)
                else Nzd.fetchRate toString resp' later st1.
Proof.
  intros parseFloat toString resp rate t st Hd Hw. split.
  - rewrite fetchRate_spec, Hd. unfold RateSpec.writesBoth in Hw.
    apply andb_true_iff in Hw as [H1 H2]. now rewrite H1, H2.
  - intros now. cbv zeta. split.
    + now rewrite getCachedRate_spec, cacheHit_persisted, cachedRate_persisted.
    + intros resp' later.
      now rewrite getRate_spec, cacheHit_persisted, cachedRate_persisted.
Qed.

Lemma fetched_rate_is_cached_for_one_hour_witness :
  RateSpec.delivered (RateSpec.rateResponse 0.61%float) = Some (VNumber 0.61%float)
  /\ RateSpec.writesBoth RateSpec.noText (VNumber 0.61%float) 1200 RateSpec.emptyStorage = true
  /\ Nzd.getRate (fun _ => 0.61%float) RateSpec.noText Nzd.NetworkFailure 3601199 3601200
       (mkStorage [(Nzd.CACHE_KEY_RATE, lit "?"); (Nzd.CACHE_KEY_TIME, lit "1200")]
                  true true RateSpec.ROOM)
     = (Normal (VNumber 0.61%float),
        mkStorage [(Nzd.CACHE_KEY_RATE, lit "?"); (Nzd.CACHE_KEY_TIME, lit "1200")]
                  true true RateSpec.ROOM)
  /\ Nzd.getCachedRate RateSpec.noParse 1201
       (mkStorage [(Nzd.CACHE_KEY_RATE, lit "?"); (Nzd.CACHE_KEY_TIME, lit "1200")]
                  true true RateSpec.ROOM)
     = (Normal None,
        mkStorage [(Nzd.CACHE_KEY_RATE, lit "?"); (Nzd.CACHE_KEY_TIME, lit "1200")]
                  true true RateSpec.ROOM).
Proof.
  split; [reflexivity|]. split; [reflexivity|]. split.
  - exact (proj2 (proj2 (@fetched_rate_is_cached_for_one_hour
                           (fun _ => 0.61%float) RateSpec.noText
                           (RateSpec.rateResponse 0.61%float) (VNumber 0.61%float) 1200%Z
                           RateSpec.emptyStorage eq_refl eq_refl) 3601199%Z)
                 Nzd.NetworkFailure 3601200%Z).
  - exact (proj1 (proj2 (@fetched_rate_is_cached_for_one_hour
                           RateSpec.noParse RateSpec.noText
                           (RateSpec.rateResponse 0.61%float) (VNumber 0.61%float) 1200%Z
                           RateSpec.emptyStorage eq_refl eq_refl) 1201%Z)).
Defined.

(** X2: [getCachedRate] never throws and never writes: it returns a
    rate or [null] and leaves the storage as it is. It returns [null]
    when the storage cannot be read, when the time entry is missing (the
    text null is no number) or is 0, and when the entry is one hour old
    or older; a rate it returns is the stored rate as [parseFloat] reads
    it, and is neither NaN nor 0. *)
Theorem getCachedRate_reads_only :
  forall parseFloat now st,
    exists r,
      Nzd.getCachedRate parseFloat now st = (Normal r, st)
      /\ (readable st = false -> r = None)
      /\ (assoc Nzd.CACHE_KEY_TIME (items st) = None -> r = None)
      /\ (forall t, RateSpec.cachedTime st = Some t ->
                    t = 0%Z \/ (Nzd.CACHE_TTL_MS <= now - t)%Z -> r = None)
      /\ (forall x, r = Some x ->
                    x = parseFloat (item_text (assoc Nzd.CACHE_KEY_RATE (items st)))
                    /\ truthy_number x = true).
Proof.
  intros parseFloat now st. rewrite getCachedRate_spec.
  eexists. split; [reflexivity|].
  unfold RateSpec.cacheHit, RateSpec.cachedTime, RateSpec.cachedRate.
  split; [|split; [|split]].
  - intros ->. reflexivity.
  - intros ->. cbn [item_text].
    change (parseIntZ (lit "null")) with (@None Z). cbn [Nzd.fresh].
    now rewrite andb_false_r.
  - intros t -> [->|Hstale]; cbn [Nzd.fresh].
    + now rewrite andb_false_r.
    + apply Z.ltb_ge in Hstale. rewrite Hstale. now rewrite !andb_false_r.
  - intros x Hx.
    destruct (readable st && truthy_number _ && Nzd.fresh now _) eqn:E; [|discriminate].
    injection Hx as <-. split; [reflexivity|].
    apply andb_true_iff in E as [E _]. apply andb_true_iff in E as [_ E]. exact E.
Qed.

Lemma getCachedRate_reads_only_witness :
  Nzd.getCachedRate (fun _ => 0.61%float) 5000
    (mkStorage [(Nzd.CACHE_KEY_RATE, lit "0.61")] true true RateSpec.ROOM)
  = (Normal None, mkStorage [(Nzd.CACHE_KEY_RATE, lit "0.61")] true true RateSpec.ROOM).
Proof.
  destruct (getCachedRate_reads_only (fun _ => 0.61%float) 5000
              (mkStorage [(Nzd.CACHE_KEY_RATE, lit "0.61")] true true RateSpec.ROOM))
    as (r & E & _ & Hmissing & _).
  rewrite E. now rewrite (Hmissing eq_refl).
Defined.

(** X3: the rate provider writes to no entry of the storage but its
    own two: after [getRate], whatever the response and the cache state,
    every other key reads as before, and the storage can be read and
    written as before and has the quota it had. *)
Theorem rate_provider_keeps_other_entries :
  forall parseFloat toString resp now later st k,
    k <> Nzd.CACHE_KEY_RATE ->
    k <> Nzd.CACHE_KEY_TIME ->
    let st' := snd (Nzd.getRate parseFloat toString resp now later st) in
    assoc k (items st') = assoc k (items st)
    /\ readable st' = readable st
    /\ writable st' = writable st
    /\ quota st' = quota st.
Proof.
  intros parseFloat toString resp now later st k Hr Ht. cbv zeta.
  rewrite getRate_spec.
  destruct (RateSpec.cacheHit parseFloat st now); [repeat split|].
  rewrite fetchRate_spec.
  destruct (RateSpec.delivered resp) as [rate|]; [|repeat split].
  destruct (accepts Nzd.CACHE_KEY_RATE (toString rate) st); [|repeat split].
  destruct (accepts Nzd.CACHE_KEY_TIME (string_of_Z later) _);
    unfold RateSpec.persisted, stored; cbn [snd items readable writable quota];
    rewrite !assoc_set_other by assumption; repeat split.
Qed.

Lemma rate_provider_keeps_other_entries_witness :
  assoc "theme"
    (items (snd (Nzd.getRate RateSpec.noParse RateSpec.noText
                   (RateSpec.rateResponse 0.61%float) 1000 1200
                   (mkStorage [("theme"%string, lit "dark")] true true RateSpec.ROOM))))
  = Some (lit "dark").
Proof.
  apply (proj1 (@rate_provider_keeps_other_entries RateSpec.noParse RateSpec.noText
                  (RateSpec.rateResponse 0.61%float) 1000%Z 1200%Z
                  (mkStorage [("theme"%string, lit "dark")] true true RateSpec.ROOM)
                  "theme"%string ltac:(discriminate) ltac:(discriminate))).
Defined.

(** ** Where a pattern matches *)

(** [re.test(s)] holds exactly when the pattern matches at some position
    of [s]. *)
Lemma test_true_iff :
  forall (m : matcher) s,
    test m s = true <-> exists a b, s = a ++ b /\ m b <> None.
Proof.
  intros m s. split.
  - induction s as [|c t IH]; intros H.
    + exists [], []. split; [reflexivity|].
      unfold test, exec in H. simpl in H. destruct (m []); [discriminate|discriminate H].
    + destruct (m (c :: t)) as [r|] eqn:E.
      * exists [], (c :: t). split; [reflexivity|]. now rewrite E.
      * unfold test in H. rewrite (exec_cons_none _ _ _ E) in H.
        destruct (exec m t) as [r|] eqn:Et; [|discriminate].
        destruct IH as (a & b & -> & Hb); [unfold test; now rewrite Et|].
        exists (c :: a), b. split; [reflexivity|exact Hb].
  - intros (a & b & -> & Hb). induction a as [|c a IH].
    + simpl. destruct (m b) as [[[mt g] rest]|] eqn:E; [|contradiction].
      unfold test. now rewrite (exec_here _ _ E).
    + simpl. destruct (m (c :: a ++ b)) as [[[mt g] rest]|] eqn:E.
      * unfold test. now rewrite (exec_here _ _ E).
      * unfold test in *. rewrite (exec_cons_none _ _ _ E).
        destruct (exec m (a ++ b)); [reflexivity|discriminate].
Qed.

Lemma test_false_suffix :
  forall (m : matcher) a b, test m (a ++ b) = false -> m b = None.
Proof.
  intros m a b H. destruct (m b) as [r|] eqn:E; [|reflexivity].
  assert (Ht : test m (a ++ b) = true).
  { apply test_true_iff. exists a, b. split; [reflexivity|]. now rewrite E. }
  congruence.
Qed.

(** What [exec] returns: the left-most position at which the pattern
    matches, and the match there. *)
Lemma exec_spec :
  forall (m : matcher) s r,
    exec m s = Some r ->
    exists suf,
      s = before r ++ suf
      /\ m suf = Some (matched r, group1 r, after r)
      /\ forall a b, before r = a ++ b -> b <> [] -> m (b ++ suf) = None.
Proof.
  intros m. induction s as [|c t IH]; intros r H.
  - unfold exec in H. simpl in H.
    destruct (m []) as [[[mt g] rest]|] eqn:E; [|discriminate].
    injection H as <-. exists []. simpl. split; [reflexivity|]. split; [exact E|].
    intros a b Hab Hb. symmetry in Hab. apply app_eq_nil in Hab as [_ ->]. contradiction.
  - destruct (m (c :: t)) as [[[mt g] rest]|] eqn:E.
    + rewrite (exec_here _ _ E) in H. injection H as <-.
      exists (c :: t). simpl. split; [reflexivity|]. split; [exact E|].
      intros a b Hab Hb. symmetry in Hab. apply app_eq_nil in Hab as [_ ->]. contradiction.
    + rewrite (exec_cons_none _ _ _ E) in H.
      destruct (exec m t) as [r'|] eqn:Et; [|discriminate].
      injection H as <-. cbn [before matched group1 after].
      destruct (IH r' eq_refl) as (suf & -> & Hm & Hleft).
      exists suf. split; [reflexivity|]. split; [exact Hm|].
      intros a b Hab Hb. destruct a as [|x a].
      * simpl in Hab. subst b. exact E.
      * injection Hab as _ Hab. now apply (Hleft a b).
Qed.

(** ** The code units of the texts the scripts write *)

Lemma plain_app : forall a b, plain (a ++ b) = plain a && plain b.
Proof. intros a b. apply forallb_app. Qed.

Lemma digit_not_p : forall c, is_digit c = true -> is_p c = false.
Proof.
  intros c H. apply digit_range in H. unfold is_p, canonicalize.
  replace ((97 <=? c)%N) with false by (symmetry; apply N.leb_gt; lia).
  simpl. apply N.eqb_neq. lia.
Qed.

Lemma digits_plain : forall ds, forallb is_digit ds = true -> plain ds = true.
Proof.
  induction ds as [|c t IH]; simpl; intros H; [reflexivity|].
  apply andb_true_iff in H as [Hc Ht]. now rewrite (digit_not_p _ Hc), IH.
Qed.

Lemma plain_rev : forall s, plain (rev s) = plain s.
Proof.
  induction s as [|c t IH]; [reflexivity|].
  simpl rev. rewrite plain_app, IH. simpl. rewrite andb_true_r. apply andb_comm.
Qed.

Lemma group_rev_plain :
  forall ds k, plain ds = true -> plain (group_rev ds k) = true.
Proof.
  induction ds as [|d t IH]; intros k H; [reflexivity|].
  pose proof H as Hall. cbn [plain forallb] in H.
  apply andb_true_iff in H as [Hd Ht]. fold (plain t) in Ht.
  assert (Hstep : forall k', plain (d :: group_rev t k') = true).
  { intros k'. cbn [plain forallb]. rewrite Hd. apply (IH k' Ht). }
  assert (Hcomma : plain (d :: COMMA :: group_rev t 3) = true).
  { cbn [plain forallb]. rewrite Hd. apply (IH 3 Ht). }
  cbn [group_rev].
  destruct k as [|[|k]]; [apply Hstep| |apply Hstep].
  destruct t as [|e t']; [apply Hstep|exact Hcomma].
Qed.

Lemma grouped_plain : forall n, plain (grouped n) = true.
Proof.
  intros n. unfold grouped. rewrite plain_rev. apply group_rev_plain.
  rewrite plain_rev. apply digits_plain, digits_of_Z_all_digits.
Qed.

Lemma strip_trailing_zeros_rev_plain :
  forall ds, plain ds = true -> plain (strip_trailing_zeros_rev ds) = true.
Proof.
  induction ds as [|c t IH]; intros H; [reflexivity|].
  cbn [strip_trailing_zeros_rev]. destruct (c =? 48)%N; [|exact H].
  simpl in H. apply andb_true_iff in H as [_ Ht]. now apply IH.
Qed.

Lemma pad_left_plain :
  forall k ds, plain ds = true -> plain (pad_left k ds) = true.
Proof.
  induction k as [|k IH]; intros ds H; [exact H|].
  cbn [pad_left]. destruct (Nat.ltb (List.length ds) (S k)); [|exact H].
  simpl. now apply IH.
Qed.

Lemma format_magnitude_plain :
  forall m e f, plain (format_magnitude m e f) = true.
Proof.
  intros m e f. unfold format_magnitude.
  set (fr := rev (strip_trailing_zeros_rev _)).
  assert (Hfr : plain fr = true).
  { unfold fr. rewrite plain_rev. apply strip_trailing_zeros_rev_plain.
    rewrite plain_rev. apply pad_left_plain, digits_plain, digits_of_Z_all_digits. }
  destruct fr as [|c t]; [apply grouped_plain|].
  rewrite plain_app, grouped_plain. simpl. exact Hfr.
Qed.

Lemma format_number_plain :
  forall sym f x, plain sym = true -> plain (format_number sym f x) = true.
Proof.
  intros sym f x Hs. unfold format_number.
  destruct (Prim2SF x) as [s|s| |s m e]; rewrite ?plain_app, ?Hs;
    try (destruct s); try reflexivity; simpl; try apply format_magnitude_plain.
Qed.

Lemma toLocaleString_plain : forall x, plain (toLocaleString x) = true.
Proof. intros x. now apply format_number_plain. Qed.

Lemma priceLabel_plain : forall nzd usd, plain (Nzd.priceLabel nzd usd) = true.
Proof.
  intros nzd usd. unfold Nzd.priceLabel, Nzd.formatUsd.
  rewrite !plain_app, !toLocaleString_plain. reflexivity.
Qed.

(** ** The shape of a price match *)

Lemma Forall2_existsb :
  forall (f : char -> char -> bool) pat m,
    Forall2 (fun p c => f p c = true) pat m ->
    forall pat0, incl pat pat0 ->
      forallb (fun c => existsb (fun p => f p c) pat0) m = true.
Proof.
  intros f pat m H. induction H as [|p c pat m Hc _ IH]; intros pat0 Hin; [reflexivity|].
  simpl. rewrite IH by (intros x Hx; apply Hin; now right).
  rewrite andb_true_r. apply existsb_exists. exists p. split; [|exact Hc].
  apply Hin. now left.
Qed.

Lemma forallb_impl :
  forall (f g : char -> bool) l,
    (forall c, f c = true -> g c = true) -> forallb f l = true -> forallb g l = true.
Proof.
  intros f g l Hfg. induction l as [|c t IH]; simpl; intros H; [reflexivity|].
  apply andb_true_iff in H as [Hc Ht]. now rewrite (Hfg _ Hc), IH.
Qed.

(** A match is a dollar sign followed by code units of the body, one of
    which is the letter that opens the qualifier. *)
Lemma price_match_shape :
  forall s m g rest,
    price_here s = Some (m, g, rest) ->
    exists tl,
      s = m ++ rest /\ m = DOLLAR :: tl
      /\ forallb body_char tl = true /\ plain tl = false
      /\ forall rest', price_here (m ++ rest') = Some (m, g, rest').
Proof.
  intros s m g rest H.
  destruct (price_here_sound _ H) as (ws & pw & Hs & Hm & Hne & Hg & Hws & Hpw).
  exists (g ++ ws ++ pw). split; [exact Hs|]. split; [exact Hm|]. split; [|split].
  - rewrite !forallb_app. apply andb_true_iff. split; [|apply andb_true_iff; split].
    + eapply forallb_impl; [|exact Hg]. intros c Hc. unfold body_char. now rewrite Hc.
    + eapply forallb_impl; [|exact Hws]. intros c Hc. unfold body_char.
      rewrite Hc. now rewrite orb_true_r.
    + pose proof (Forall2_existsb _ Hpw (incl_refl _)) as Hb.
      eapply forallb_impl; [|exact Hb]. intros c Hc. unfold body_char.
      rewrite Hc. now rewrite orb_true_r.
  - unfold PER_WEEK in Hpw.
    change (lit "per week") with (112%N :: lit "er week") in Hpw.
    inversion Hpw as [|p c pat m' Hc Hrest]; subst.
    rewrite !plain_app. cbn [plain forallb].
    assert (Hp : is_p c = true).
    { unfold is_p. unfold char_eqb_ci in Hc.
      change (canonicalize 112%N) with 80%N in Hc. now rewrite N.eqb_sym. }
    rewrite Hp. cbn [negb andb]. now rewrite !andb_false_r.
  - intros rest'. subst m.
    pose proof (@price_here_complete g ws pw rest' Hne Hg Hws Hpw) as Hc.
    replace ((DOLLAR :: g ++ ws ++ pw) ++ rest') with (DOLLAR :: g ++ ws ++ pw ++ rest');
      [exact Hc|].
    simpl. now rewrite <- !app_assoc.
Qed.

(** A text in which [PRICE_REGEX] matches holds the letter p. *)
Lemma price_needs_p : forall s, plain s = true -> test price_here s = false.
Proof.
  intros s Hs. destruct (test price_here s) eqn:E; [|reflexivity].
  apply test_true_iff in E as (a & b & -> & Hb).
  destruct (price_here b) as [[[m g] rest]|] eqn:Em; [|contradiction].
  destruct (price_match_shape _ Em) as (tl & -> & -> & _ & Hp & _).
  rewrite plain_app in Hs. apply andb_true_iff in Hs as [_ Hs].
  simpl in Hs. rewrite plain_app in Hs. fold (plain tl) in Hs.
  apply andb_true_iff in Hs as [Hs _]. congruence.
Qed.

(** A match that starts before a dollar sign ends before it. *)
Lemma price_stops_at_dollar :
  forall u v m g rest,
    u <> [] ->
    price_here (u ++ DOLLAR :: v) = Some (m, g, rest) ->
    exists u', u = m ++ u'.
Proof.
  intros u v m g rest Hu H.
  destruct (price_match_shape _ H) as (tl & Hs & -> & Hb & _ & _).
  apply app_eq_app in Hs as [l [[-> _]|[Hm Hv]]].
  - now exists l.
  - destruct l as [|c l'].
    + exists []. now rewrite app_nil_r in *.
    + exfalso. simpl in Hv. injection Hv as <- _.
      destruct u as [|x u0]; [contradiction|].
      simpl in Hm. injection Hm as _ ->.
      rewrite forallb_app in Hb. apply andb_true_iff in Hb as [_ Hb].
      simpl in Hb. discriminate Hb.
Qed.

Lemma priceLabel_head :
  forall nzd usd, exists l, Nzd.priceLabel nzd usd = DOLLAR :: l.
Proof. intros nzd usd. eexists. reflexivity. Qed.

Lemma priceLabel_tail :
  forall nzd usd, exists l, Nzd.priceLabel nzd usd = l ++ lit "/mo".
Proof.
  intros nzd usd. unfold Nzd.priceLabel. rewrite !app_assoc. eexists. reflexivity.
Qed.

(** No match starts inside the rewritten price, whatever follows it. *)
Lemma priceLabel_suffix_none :
  forall nzd usd x l2 aft,
    Nzd.priceLabel nzd usd = x ++ l2 -> l2 <> [] -> price_here (l2 ++ aft) = None.
Proof.
  intros nzd usd x l2 aft Hsplit Hne.
  destruct (price_here (l2 ++ aft)) as [[[m g] rest]|] eqn:E; [exfalso|reflexivity].
  destruct (price_match_shape _ E) as (tl & Hs & -> & Hb & Hp & _).
  pose proof (priceLabel_plain nzd usd) as Hplain. rewrite Hsplit, plain_app in Hplain.
  apply andb_true_iff in Hplain as [_ Hl2].
  apply app_eq_app in Hs as [l [[-> _]|[Hm _]]].
  - rewrite plain_app in Hl2. apply andb_true_iff in Hl2 as [Hl2 _].
    simpl in Hl2. fold (plain tl) in Hl2. congruence.
  - (* the label suffix lies inside the match: it holds no slash *)
    assert (Hin : forall c, In c l2 -> c = DOLLAR \/ body_char c = true).
    { intros c Hc. assert (Hc' : In c (DOLLAR :: tl)) by (rewrite Hm; apply in_or_app; now left).
      destruct Hc' as [<-|Hc']; [now left|right].
      rewrite forallb_forall in Hb. now apply Hb. }
    destruct (priceLabel_tail nzd usd) as [l0 Htail]. rewrite Htail in Hsplit.
    change (lit "/mo") with [47%N; 109%N; 111%N] in Hsplit.
    apply app_eq_app in Hsplit as [k [[_ ->]|[_ Hk]]].
    + destruct (Hin 47%N) as [H|H]; [|discriminate H|discriminate H].
      apply in_or_app. right. now left.
    + (* a suffix of the text /mo *)
      destruct k as [|c1 [|c2 [|c3 [|c4 k]]]]; simpl in Hk.
      * subst l2. destruct (Hin 47%N (or_introl eq_refl)) as [H|H]; discriminate H.
      * injection Hk as _ <-. destruct (Hin 109%N (or_introl eq_refl)) as [H|H]; discriminate H.
      * injection Hk as _ _ <-. destruct (Hin 111%N (or_introl eq_refl)) as [H|H]; discriminate H.
      * injection Hk as _ _ _ <-. contradiction.
      * injection Hk as _ _ _ Hk. destruct l2; discriminate Hk.
Qed.

(** X4: the text the script writes in place of a price is not a price
    to the script: [PRICE_REGEX] matches neither the rewritten price nor
    the text the sidebar fast path writes, whatever the amounts; and after
    the single-text-node pass has replaced the first price of a text, the
    pattern matches the new text exactly when it matches what followed
    that first price. *)
Theorem converted_text_is_not_matched_again :
  forall nzd usd,
    test Nzd.PRICE_REGEX (Nzd.priceLabel nzd usd) = false
    /\ test Nzd.PRICE_REGEX (Nzd.priceLabel nzd usd ++ lit " ") = false
    /\ (forall data m,
          exec Nzd.PRICE_REGEX data = Some m ->
          test Nzd.PRICE_REGEX (replace_fn Nzd.PRICE_REGEX data (Nzd.priceLabel nzd usd))
            = test Nzd.PRICE_REGEX (after m)).
Proof.
  intros nzd usd. unfold Nzd.PRICE_REGEX. split; [|split].
  - apply price_needs_p, priceLabel_plain.
  - apply price_needs_p. rewrite plain_app, priceLabel_plain. reflexivity.
  - intros data m Hm. unfold replace_fn. rewrite Hm.
    destruct (exec_spec _ _ Hm) as (suf & -> & Hsuf & Hleft).
    destruct (test price_here (after m)) eqn:Ea.
    + apply test_true_iff in Ea as (a & b & Ea & Hb).
      apply test_true_iff. exists (before m ++ Nzd.priceLabel nzd usd ++ a), b.
      split; [|exact Hb]. rewrite Ea. now rewrite <- !app_assoc.
    + destruct (test price_here (before m ++ Nzd.priceLabel nzd usd ++ after m)) eqn:Ew;
        [exfalso|reflexivity].
      apply test_true_iff in Ew as (a & b & Hab & Hb).
      apply app_eq_app in Hab as [l [[Hbef Hb2]|[Ha Hrest]]].
      * (* the match starts in the text before the price *)
        destruct l as [|c l'].
        -- rewrite app_nil_l in Hb2. subst b.
           rewrite (@priceLabel_suffix_none nzd usd [] (Nzd.priceLabel nzd usd)
                      (after m) eq_refl) in Hb; [contradiction|].
           destruct (priceLabel_head nzd usd) as [l ->]. discriminate.
        -- subst b. destruct (priceLabel_head nzd usd) as [lbl Hl]. rewrite Hl in Hb.
           destruct (price_here ((c :: l') ++ (DOLLAR :: lbl) ++ after m))
             as [[[m' g'] rest']|] eqn:E; [|contradiction].
           change ((c :: l') ++ (DOLLAR :: lbl) ++ after m)
             with ((c :: l') ++ DOLLAR :: (lbl ++ after m)) in E.
           destruct (@price_stops_at_dollar (c :: l') _ _ _ _ ltac:(discriminate) E) as [u' Hu].
           destruct (price_match_shape _ E) as (_ & _ & _ & _ & _ & Hstable).
           pose proof (Hleft a (c :: l') Hbef ltac:(discriminate)) as Hnone.
           rewrite Hu, <- app_assoc, Hstable in Hnone. discriminate Hnone.
      * (* the match starts in the rewritten price or after it *)
        apply app_eq_app in Hrest as [k [[Hlab Hb2]|[-> Hafter]]].
        -- destruct k as [|c k'].
           ++ rewrite app_nil_l in Hb2. subst b.
              rewrite (test_false_suffix price_here [] (after m) Ea) in Hb. contradiction.
           ++ subst b.
              rewrite (@priceLabel_suffix_none nzd usd l (c :: k') (after m) Hlab) in Hb;
                [contradiction|discriminate].
        -- rewrite Hafter in Ea.
           rewrite (test_false_suffix price_here k b Ea) in Hb. contradiction.
Qed.

Lemma converted_text_is_not_matched_again_witness :
  exec Nzd.PRICE_REGEX (lit "$500 per week")
    = Some (mkMatch [] (lit "$500 per week") (lit "500") [])
  /\ test Nzd.PRICE_REGEX
       (replace_fn Nzd.PRICE_REGEX (lit "$500 per week")
          (Nzd.priceLabel (of_Z 500) (of_Z 1278))) = false.
Proof.
  split; [reflexivity|].
  exact (proj2 (proj2 (converted_text_is_not_matched_again (of_Z 500) (of_Z 1278)))
               (lit "$500 per week")
               (mkMatch [] (lit "$500 per week") (lit "500") []) eq_refl).
Defined.

(** X5: what [PRICE_REGEX] accepts. The pattern matches in a text
    exactly when the text holds, one after the other, a dollar sign, one
    or more digits or commas, any number of white space code units
    (U+00A0 among them) and the words per week in any letter case. *)
Theorem price_pattern_language :
  forall s,
    test Nzd.PRICE_REGEX s = true <->
    exists pre g ws pw post,
      s = pre ++ DOLLAR :: g ++ ws ++ pw ++ post
      /\ g <> []
      /\ forallb is_amount_char g = true
      /\ forallb is_space ws = true
      /\ Forall2 (fun p c => char_eqb_ci p c = true) PER_WEEK pw.
Proof.
  intros s. unfold Nzd.PRICE_REGEX. split.
  - intros H. apply test_true_iff in H as (a & b & -> & Hb).
    destruct (price_here b) as [[[m g] rest]|] eqn:E; [|contradiction].
    destruct (price_here_sound _ E) as (ws & pw & -> & -> & Hne & Hg & Hws & Hpw).
    exists a, g, ws, pw, rest. split; [|repeat split; assumption].
    simpl. now rewrite <- !app_assoc.
  - intros (pre & g & ws & pw & post & -> & Hne & Hg & Hws & Hpw).
    apply test_true_iff. exists pre, (DOLLAR :: g ++ ws ++ pw ++ post).
    split; [reflexivity|].
    now rewrite (@price_here_complete g ws pw post Hne Hg Hws Hpw).
Qed.

Lemma price_pattern_language_witness :
  test Nzd.PRICE_REGEX (lit "Rent: $1,250" ++ [NBSP] ++ lit " PER Week, bills extra") = true.
Proof.
  apply (proj2 (price_pattern_language
                  (lit "Rent: $1,250" ++ [NBSP] ++ lit " PER Week, bills extra"))).
  exists (lit "Rent: "), (lit "1,250"), [NBSP; 32%N], (lit "PER Week"),
         (lit ", bills extra").
  split; [reflexivity|]. split; [discriminate|]. split; [reflexivity|].
  split; [reflexivity|].
  repeat constructor.
Defined.

(** ** The label of the Australian scripts *)

Lemma startsWith_head :
  forall c sub s, startsWith (c :: sub) s = true -> exists t, s = c :: t.
Proof.
  intros c sub [|d t] H; simpl in H; [discriminate|].
  apply andb_true_iff in H as [H _]. apply N.eqb_eq in H. subst d. now exists t.
Qed.

Lemma includes_head :
  forall c sub s, includes s (c :: sub) = true -> In c s.
Proof.
  intros c sub. induction s as [|d t IH]; intros H.
  - simpl in H. discriminate H.
  - cbn [includes] in H. apply orb_true_iff in H as [H|H].
    + apply startsWith_head in H as [t' H]. injection H as -> _. now left.
    + right. now apply IH.
Qed.

Lemma toLowerChar_p : forall c, toLowerChar c = 112%N -> is_p c = true.
Proof.
  intros c H. unfold toLowerChar in H. unfold is_p, canonicalize.
  destruct ((65 <=? c)%N && (c <=? 90)%N) eqn:E.
  - apply andb_true_iff in E as [E1 E2]. apply N.leb_le in E1, E2.
    assert (c = 80%N) by lia. subst c. reflexivity.
  - destruct (c =? 8490)%N; [discriminate H|]. subst c. reflexivity.
Qed.

(** A text without the letter p does not include the words per week,
    in whatever letter case. *)
Lemma plain_has_no_per_week :
  forall s, plain s = true -> includes (toLowerCase s) (lit "per week") = false.
Proof.
  intros s Hs. destruct (includes (toLowerCase s) (lit "per week")) eqn:E; [|reflexivity].
  change (lit "per week") with (112%N :: lit "er week") in E.
  apply includes_head in E. unfold toLowerCase in E.
  apply in_map_iff in E as (c & Hc & Hin).
  apply toLowerChar_p in Hc. unfold plain in Hs. rewrite forallb_forall in Hs.
  specialize (Hs c Hin). rewrite Hc in Hs. discriminate Hs.
Qed.

Lemma labelText_plain :
  forall coerce rate w, plain (Aud.labelText coerce rate w) = true.
Proof.
  intros coerce rate w. unfold Aud.labelText, Aud.formatUsd, toLocaleString_USD0.
  rewrite !plain_app, format_number_plain; reflexivity.
Qed.

Lemma labelText_legacy_plain :
  forall coerce rate w, plain (Aud.labelText_legacy coerce rate w) = true.
Proof.
  intros coerce rate w. unfold Aud.labelText_legacy, toLocaleString_USD0.
  cbv zeta. rewrite !plain_app, format_number_plain; reflexivity.
Qed.

(** X6: the label element the Australian scripts insert is never a
    candidate of [convertPricesOnPage]: with the label text of either
    script, whatever the rate and the amount, it is matched by none of
    the named selectors and fails the text fallback (its text does not
    include the words per week). *)
Theorem inserted_label_is_no_candidate :
  forall coerce rate w k k' text,
    text = Aud.labelText coerce rate w \/ text = Aud.labelText_legacy coerce rate w ->
    let label :=
      Element k "div" [("class"%string, Aud.CONVERTED_CLASS); ("style"%string, Aud.LABEL_STYLE)]
              [Text k' text] in
    Aud.matchesNamed label = false
    /\ Aud.isTextFallback label = false
    /\ dataset_truthy Aud.CONVERTED_ATTR label = false.
Proof.
  intros coerce rate w k k' text Htext. cbv zeta.
  split; [reflexivity|]. split; [|reflexivity].
  unfold Aud.isTextFallback. cbn [textContent flat_map]. rewrite app_nil_r.
  rewrite plain_has_no_per_week; [now rewrite andb_false_r|].
  destruct Htext as [->| ->]; [apply labelText_plain|apply labelText_legacy_plain].
Qed.

Lemma inserted_label_is_no_candidate_witness :
  Aud.isTextFallback
    (Element 7 "div" [("class"%string, Aud.CONVERTED_CLASS); ("style"%string, Aud.LABEL_STYLE)]
       [Text 8 (Aud.labelText (fun _ => nan) (VNumber Aud.FALLBACK_RATE) (of_Z 570))]) = false.
Proof.
  apply (@inserted_label_is_no_candidate (fun _ => nan) (VNumber Aud.FALLBACK_RATE)
           (of_Z 570) 7 8 _ (or_introl eq_refl)).
Defined.

(** ** Grouped digits read back *)

Lemma digit_is_amount_char : forall c, is_digit c = true -> is_amount_char c = true.
Proof. intros c H. unfold is_amount_char. now rewrite H. Qed.

Lemma group_rev_removeCommas :
  forall ds k, forallb is_digit ds = true -> removeCommas (group_rev ds k) = ds.
Proof.
  unfold removeCommas.
  induction ds as [|d t IH]; intros k H; [reflexivity|].
  cbn [forallb] in H. apply andb_true_iff in H as [Hd Ht].
  assert (Hstep : forall k', filter (fun c => negb (c =? COMMA)%N) (d :: group_rev t k') = d :: t).
  { intros k'. cbn [filter]. rewrite (digit_not_comma _ Hd). cbn [negb].
    now rewrite (IH k' Ht). }
  assert (Hcomma : filter (fun c => negb (c =? COMMA)%N) (d :: COMMA :: group_rev t 3) = d :: t).
  { cbn [filter]. rewrite (digit_not_comma _ Hd). cbn [negb].
    change (COMMA =? COMMA)%N with true. cbn [negb]. now rewrite (IH 3 Ht). }
  cbn [group_rev].
  destruct k as [|[|k]]; [apply Hstep| |apply Hstep].
  destruct t as [|e t']; [apply Hstep|exact Hcomma].
Qed.

Lemma group_rev_amount_chars :
  forall ds k, forallb is_digit ds = true -> forallb is_amount_char (group_rev ds k) = true.
Proof.
  induction ds as [|d t IH]; intros k H; [reflexivity|].
  cbn [forallb] in H. apply andb_true_iff in H as [Hd Ht].
  assert (Hstep : forall k', forallb is_amount_char (d :: group_rev t k') = true).
  { intros k'. cbn [forallb]. now rewrite (digit_is_amount_char _ Hd), (IH k' Ht). }
  assert (Hcomma : forallb is_amount_char (d :: COMMA :: group_rev t 3) = true).
  { cbn [forallb]. rewrite (digit_is_amount_char _ Hd), (IH 3 Ht). reflexivity. }
  cbn [group_rev].
  destruct k as [|[|k]]; [apply Hstep| |apply Hstep].
  destruct t as [|e t']; [apply Hstep|exact Hcomma].
Qed.

Lemma forallb_rev :
  forall (f : char -> bool) l, forallb f (rev l) = forallb f l.
Proof.
  intros f. induction l as [|c t IH]; [reflexivity|].
  simpl. rewrite forallb_app, IH. simpl. rewrite andb_true_r. apply andb_comm.
Qed.

Lemma grouped_removeCommas : forall n, removeCommas (grouped n) = digits_of_Z n.
Proof.
  intros n. unfold grouped, removeCommas. rewrite filter_rev.
  fold (removeCommas (group_rev (rev (digits_of_Z n)) 3)).
  rewrite group_rev_removeCommas, rev_involutive; [reflexivity|].
  rewrite forallb_rev. apply digits_of_Z_all_digits.
Qed.

Lemma grouped_amount_chars : forall n, forallb is_amount_char (grouped n) = true.
Proof.
  intros n. unfold grouped. rewrite forallb_rev. apply group_rev_amount_chars.
  rewrite forallb_rev. apply digits_of_Z_all_digits.
Qed.

Lemma grouped_nonempty : forall n, grouped n <> [].
Proof.
  intros n H. apply (f_equal removeCommas) in H. rewrite grouped_removeCommas in H.
  now apply digits_of_Z_nonempty in H.
Qed.

Lemma parseAmount_grouped :
  forall n, (0 <= n)%Z -> parseAmount (grouped n) = Some (of_Z n).
Proof.
  intros n Hn. unfold parseAmount, parseInt. rewrite grouped_removeCommas.
  rewrite (parseInt_parts_digits _ (digits_of_Z_all_digits n)).
  destruct (digits_of_Z n) as [|c t] eqn:E.
  - now apply digits_of_Z_nonempty in E.
  - rewrite <- E, digits_of_Z_val by exact Hn. reflexivity.
Qed.

(** Every amount from 0 to 5000 is written with its grouped digits. *)
Lemma toLocaleString_small :
  forallb (fun a => jsstring_eqb (toLocaleString (of_Z a)) (grouped a))
          (List.map Z.of_nat (seq 0 (Z.to_nat 5001))) = true.
Proof. vm_compute. reflexivity. Qed.

Lemma jsstring_eqb_eq : forall a b, jsstring_eqb a b = true -> a = b.
Proof.
  intros a b H. unfold jsstring_eqb in H.
  destruct (list_eq_dec N.eq_dec a b); [assumption|discriminate].
Qed.

(** X7: the weekly amount that the sidebar fast path and the
    single-text-node pass write reads back as the same amount. For every
    integer [n >= 0], the digits grouped by thousands are read by amount
    normalisation (commas removed, [parseInt]) as [n] again. When the
    weekly amount is formatted as those digits, [PRICE_AMOUNT_REGEX]
    finds them as the first amount of the text the fast path writes, and
    of the text the single-text-node pass writes when no amount stands
    before the price it replaced; every [n] up to 5000 is formatted so.
    The split-element pass is different: it hands the same text to
    [replace] as a replacement pattern, in which a dollar sign followed
    by the digit 1 stands for the captured digits. It rewrites [$150
    <span>per week</span>] to the text 15050/wk, middle dot, US$384/mo,
    whose first amount reads back as 384. *)
Theorem converted_amount_reads_back :
  (forall n,
      (0 <= n)%Z ->
      parseAmount (grouped n) = Some (of_Z n)
      /\ (forall x usd,
            toLocaleString x = grouped n ->
            (exists rest,
                exec Nzd.PRICE_AMOUNT_REGEX (Nzd.priceLabel x usd ++ lit " ")
                  = Some (mkMatch [] (DOLLAR :: grouped n) (grouped n) rest))
            /\ (forall data m,
                  exec Nzd.PRICE_REGEX data = Some m ->
                  test Nzd.PRICE_AMOUNT_REGEX (before m) = false ->
                  exists rest,
                    exec Nzd.PRICE_AMOUNT_REGEX
                         (replace_fn Nzd.PRICE_REGEX data (Nzd.priceLabel x usd))
                      = Some (mkMatch (before m) (DOLLAR :: grouped n) (grouped n) rest)))
      /\ ((n <= 5000)%Z -> toLocaleString (of_Z n) = grouped n))
  /\ lookup 2
       (Nzd.transformSubtree
          (Element 1 "div" []
             [Text 2 (lit "$150 "); Element 3 "span" [] [Text 4 (lit "per week")]])
          Nzd.FALLBACK_RATE)
     = Some (Text 2 (lit "15050/wk " ++ [MIDDLE_DOT] ++ lit " US$384/mo "))
  /\ option_map group1
       (exec Nzd.PRICE_AMOUNT_REGEX (lit "15050/wk " ++ [MIDDLE_DOT] ++ lit " US$384/mo "))
     = Some (lit "384").
Proof.
  split; [|split; [vm_compute; reflexivity|reflexivity]].
  intros n Hn. split; [now apply parseAmount_grouped|]. split.
  - intros x usd Hx. unfold Nzd.priceLabel, Nzd.PRICE_AMOUNT_REGEX, Nzd.PRICE_REGEX.
    rewrite Hx. split.
    + eexists.
      change (lit "$" ++ grouped n ++ lit "/wk " ++ [MIDDLE_DOT] ++ lit " "
                ++ Nzd.formatUsd usd ++ lit "/mo")
        with (DOLLAR :: grouped n ++ lit "/wk " ++ [MIDDLE_DOT] ++ lit " "
                ++ Nzd.formatUsd usd ++ lit "/mo").
      rewrite <- app_comm_cons, <- app_assoc.
      apply (@exec_amount_first [] (grouped n) _ eq_refl (grouped_nonempty n)
               (grouped_amount_chars n)).
      reflexivity.
    + intros data m Hm Hbefore. unfold replace_fn. rewrite Hm. eexists.
      change (lit "$" ++ grouped n ++ lit "/wk " ++ [MIDDLE_DOT] ++ lit " "
                ++ Nzd.formatUsd usd ++ lit "/mo")
        with (DOLLAR :: grouped n ++ lit "/wk " ++ [MIDDLE_DOT] ++ lit " "
                ++ Nzd.formatUsd usd ++ lit "/mo").
      rewrite <- app_comm_cons, <- app_assoc.
      apply (@exec_amount_first (before m) (grouped n) _ Hbefore (grouped_nonempty n)
               (grouped_amount_chars n)).
      reflexivity.
  - intros Hle. pose proof toLocaleString_small as Hall.
    rewrite forallb_forall in Hall. apply jsstring_eqb_eq, Hall.
    apply in_map_iff. exists (Z.to_nat n). split; [lia|]. apply in_seq. lia.
Qed.

Lemma converted_amount_reads_back_witness :
  parseAmount (lit "1,200") = Some (of_Z 1200)
  /\ toLocaleString (of_Z 1200) = lit "1,200"
  /\ option_map group1
       (exec Nzd.PRICE_AMOUNT_REGEX
          (replace_fn Nzd.PRICE_REGEX (lit "Rent $1,200 per week")
             (Nzd.priceLabel (of_Z 1200) (of_Z 3068))))
     = Some (lit "1,200").
Proof.
  destruct (proj1 converted_amount_reads_back 1200%Z ltac:(lia)) as (H1 & H2 & H3).
  pose proof (H3 ltac:(lia)) as Hfmt.
  split; [exact H1|]. split; [exact Hfmt|].
  destruct (proj2 (H2 (of_Z 1200) (of_Z 3068) Hfmt) (lit "Rent $1,200 per week")
              (mkMatch (lit "Rent ") (lit "$1,200 per week") (lit "1,200") [])
              eq_refl eq_refl) as [rest Hrest].
  now rewrite Hrest.
Defined.

(** ** Texts inside texts *)

Lemma price_here_extends : extends price_here.
Proof.
  intros b post H. destruct (price_here b) as [[[m g] rest]|] eqn:E; [|contradiction].
  destruct (price_match_shape _ E) as (tl & -> & _ & _ & _ & Hstable).
  rewrite <- app_assoc, Hstable. discriminate.
Qed.

Lemma amount_here_extends : extends amount_here.
Proof.
  intros b post H. unfold amount_here in *.
  destruct b as [|c t]; [contradiction|]. simpl.
  destruct (c =? DOLLAR)%N; [|contradiction].
  destruct t as [|d t']; [simpl in H; contradiction|].
  simpl in *. destruct (is_amount_char d); [|contradiction].
  destruct (span is_amount_char (t' ++ post)). discriminate.
Qed.

Lemma test_in_context :
  forall m pre s post,
    extends m -> test m s = true -> test m (pre ++ s ++ post) = true.
Proof.
  intros m pre s post Hm H. apply test_true_iff in H as (a & b & -> & Hb).
  apply test_true_iff. exists (pre ++ a), (b ++ post).
  split; [now rewrite <- !app_assoc|]. now apply Hm.
Qed.

Lemma price_implies_amount :
  forall s, test price_here s = true -> test amount_here s = true.
Proof.
  intros s H. apply test_true_iff in H as (a & b & -> & Hb).
  apply test_true_iff. exists a, b. split; [reflexivity|].
  unfold price_here in Hb. destruct (amount_here b); [discriminate|contradiction].
Qed.

(** The text of a node of the tree is a piece of the text of the tree. *)
Lemma textContent_subtree :
  forall root e,
    In e (subtree root) -> exists pre post, textContent root = pre ++ textContent e ++ post.
Proof.
  intros root. induction root as [i d|i t a cs IH] using node_induction; intros e Hin.
  - destruct Hin as [<-|[]]. exists [], []. simpl. now rewrite app_nil_r.
  - destruct Hin as [<-|Hin].
    + exists [], []. now rewrite app_nil_r.
    + cbn [textContent]. induction cs as [|c r IHr]; [contradiction|].
      inversion IH as [|? ? Hc Hr]; subst. simpl in Hin.
      apply in_app_or in Hin as [Hin|Hin].
      * destruct (Hc e Hin) as (pre & post & Heq).
        exists pre, (post ++ flat_map textContent r). simpl. rewrite Heq.
        now rewrite <- !app_assoc.
      * destruct (IHr Hr Hin) as (pre & post & Heq).
        exists (textContent c ++ pre), post. simpl. rewrite Heq.
        now rewrite <- !app_assoc.
Qed.

Lemma lookup_In : forall i root e, lookup i root = Some e -> In e (subtree root).
Proof. intros i root e H. unfold lookup in H. now apply find_some in H. Qed.

Lemma child_in_subtree :
  forall i t a cs c, In c cs -> In c (subtree (Element i t a cs)).
Proof.
  intros i t a cs c Hin. right. apply in_flat_map. exists c. split; [exact Hin|].
  destruct c; now left.
Qed.

Lemma textNodes_in_subtree : forall e n, In n (textNodes e) -> In n (subtree e).
Proof.
  intros e n H. unfold textNodes in H. apply filter_In in H as [H _].
  destruct e as [i d|i t a cs]; [contradiction|]. now right.
Qed.

(** A pattern that matches in the text of a node of the tree matches in
    the text of the tree. *)
Lemma test_subtree :
  forall m root e,
    extends m -> In e (subtree root) ->
    test m (textContent e) = true -> test m (textContent root) = true.
Proof.
  intros m root e Hm Hin H.
  destruct (textContent_subtree _ _ Hin) as (pre & post & ->).
  now apply test_in_context.
Qed.

Section Untouched.

Variable rate : number.
Variable root : node.

Lemma sidebar_step_no_amount :
  test amount_here (textContent root) = false ->
  forall el, Nzd.sidebar_step rate root el = root.
Proof.
  intros Hno el. unfold Nzd.sidebar_step.
  destruct (lookup el root) as [[i d|i t a cs]|] eqn:El; try reflexivity.
  destruct (Nzd.nzdConverted _); [reflexivity|].
  destruct (find Nzd.hasAmount cs) as [amountNode|] eqn:Ef; [exfalso|reflexivity].
  apply find_some in Ef as [Hin Ha]. unfold Nzd.hasAmount in Ha.
  apply andb_true_iff in Ha as [_ Ha].
  assert (He : test amount_here (textContent (Element i t a cs)) = true).
  { eapply test_subtree; [apply amount_here_extends| |exact Ha].
    now apply child_in_subtree. }
  assert (Hr : test amount_here (textContent root) = true).
  { eapply test_subtree; [apply amount_here_extends| |exact He].
    eapply lookup_In; eassumption. }
  congruence.
Qed.

Lemma pass1_step_no_price :
  test price_here (textContent root) = false ->
  forall tn, Nzd.pass1_step rate root tn = root.
Proof.
  intros Hno tn. unfold Nzd.pass1_step.
  destruct (lookup tn root) as [[i d|i t a cs]|] eqn:El; try reflexivity.
  destruct (test Nzd.PRICE_REGEX d) eqn:Et; [exfalso|reflexivity].
  assert (Hr : test price_here (textContent root) = true).
  { apply (@test_subtree price_here root (Text i d) price_here_extends);
      [eapply lookup_In; eassumption|exact Et]. }
  congruence.
Qed.

Lemma pass2_step_no_price :
  test price_here (textContent root) = false ->
  forall el, Nzd.pass2_step rate root el = root.
Proof.
  intros Hno el. unfold Nzd.pass2_step.
  destruct (lookup el root) as [[i d|i t a cs]|] eqn:El; try reflexivity.
  destruct (Nzd.hasConvertedAncestor _); [reflexivity|].
  destruct (test Nzd.PRICE_REGEX (textContent (Element i t a cs))) eqn:Et;
    [exfalso|reflexivity].
  assert (Hr : test price_here (textContent root) = true).
  { eapply test_subtree; [apply price_here_extends| |exact Et].
    eapply lookup_In; eassumption. }
  congruence.
Qed.

Lemma passes_no_price :
  test price_here (textContent root) = false ->
  Nzd.pass2 rate (Nzd.pass1 rate root) = root.
Proof.
  intros Hno.
  assert (H1 : Nzd.pass1 rate root = root).
  { unfold Nzd.pass1. apply fold_left_fixed. now apply pass1_step_no_price. }
  rewrite H1. unfold Nzd.pass2. apply fold_left_fixed. now apply pass2_step_no_price.
Qed.

End Untouched.

(** X8: a subtree without a dollar amount is left as it is. When
    [PRICE_AMOUNT_REGEX] does not match in the text content of [root],
    [transformSubtree] returns the tree unchanged: no marker is set, no
    text is rewritten and nothing is removed, whatever the tree holds
    otherwise (sidebar containers and the words per week included). *)
Theorem subtree_without_amount_is_untouched :
  forall rate root,
    test Nzd.PRICE_AMOUNT_REGEX (textContent root) = false ->
    Nzd.transformSubtree root rate = root.
Proof.
  intros rate root Hno. unfold Nzd.PRICE_AMOUNT_REGEX in Hno.
  unfold Nzd.transformSubtree.
  assert (H0 : Nzd.transformPriceDisplayElements root rate = root).
  { unfold Nzd.transformPriceDisplayElements. apply fold_left_fixed.
    now apply sidebar_step_no_amount. }
  rewrite H0. apply passes_no_price.
  destruct (test price_here (textContent root)) eqn:E; [|reflexivity].
  apply price_implies_amount in E. congruence.
Qed.

Lemma subtree_without_amount_is_untouched_witness :
  Nzd.transformSubtree
    (Element 1 "div" [("data-test"%string, lit "price-display__price-method")]
       [Text 2 (lit "Price on request "); Element 3 "span" [] [Text 4 (lit "per week")]])
    Nzd.FALLBACK_RATE
  = Element 1 "div" [("data-test"%string, lit "price-display__price-method")]
      [Text 2 (lit "Price on request "); Element 3 "span" [] [Text 4 (lit "per week")]].
Proof.
  apply (@subtree_without_amount_is_untouched Nzd.FALLBACK_RATE
           (Element 1 "div" [("data-test"%string, lit "price-display__price-method")]
              [Text 2 (lit "Price on request ");
               Element 3 "span" [] [Text 4 (lit "per week")]])).
  reflexivity.
Defined.

(** X9: without a sidebar container and without a price nothing is
    touched. When no element of the subtree matches the sidebar selector
    and [PRICE_REGEX] does not match in the text content of [root],
    [transformSubtree] returns the tree unchanged. The condition is on
    the whole text of [root]: once the pattern matches there, the
    split-element pass converts the first amount of the element it
    selects, which need not be the amount that the words per week follow.
    In [<div>Bond $2,400 <b>rent $500 </b><span>per week</span></div>]
    it rewrites the bond and leaves the rent. *)
Theorem subtree_without_price_is_untouched :
  (forall rate root,
      Nzd.containers root = [] ->
      test Nzd.PRICE_REGEX (textContent root) = false ->
      Nzd.transformSubtree root rate = root)
  /\ Nzd.transformSubtree
       (Element 1 "div" []
          [Text 2 (lit "Bond $2,400 "); Element 3 "b" [] [Text 4 (lit "rent $500 ")];
           Element 5 "span" [] [Text 6 (lit "per week")]])
       Nzd.FALLBACK_RATE
     = Element 1 "div" [(Nzd.CONVERTED_ATTR, lit "true")]
         [Text 2 (lit "Bond $2,400/wk " ++ [MIDDLE_DOT] ++ lit " US$6,136/mo ");
          Element 3 "b" [] [Text 4 (lit "rent $500 ")]].
Proof.
  split; [|vm_compute; reflexivity].
  intros rate root Hc Hno. unfold Nzd.transformSubtree, Nzd.transformPriceDisplayElements.
  rewrite Hc. cbn [List.map fold_left]. now apply passes_no_price.
Qed.

Lemma subtree_without_price_is_untouched_witness :
  Nzd.containers
    (Element 1 "div" [] [Text 2 (lit "Bond $2,400, "); Element 3 "b" [] [Text 4 (lit "weekly")]])
  = []
  /\ test Nzd.PRICE_REGEX (lit "Bond $2,400, weekly") = false
  /\ Nzd.transformSubtree
       (Element 1 "div" [] [Text 2 (lit "Bond $2,400, "); Element 3 "b" [] [Text 4 (lit "weekly")]])
       Nzd.FALLBACK_RATE
     = Element 1 "div" [] [Text 2 (lit "Bond $2,400, "); Element 3 "b" [] [Text 4 (lit "weekly")]].
Proof.
  split; [reflexivity|]. split; [reflexivity|].
  apply (proj1 subtree_without_price_is_untouched Nzd.FALLBACK_RATE
           (Element 1 "div" [] [Text 2 (lit "Bond $2,400, ");
                                Element 3 "b" [] [Text 4 (lit "weekly")]]));
    reflexivity.
Defined.

(** ** What the rewriting leaves of a tree *)


Lemma ids_Element :
  forall j t a cs, ids (Element j t a cs) = j :: flat_map ids cs.
Proof.
  intros j t a cs. unfold ids. cbn [subtree List.map node_id]. f_equal.
  induction cs as [|c r IH]; [reflexivity|].
  simpl. now rewrite map_app, IH.
Qed.










Section Shrinks.

Variable rate : number.





End Shrinks.


(** ** What the Australian scripts leave of a page *)

Lemma texts_Element :
  forall j t a cs, texts (Element j t a cs) = flat_map texts cs.
Proof.
  intros j t a cs. unfold texts. cbn [subtree filter is_text].
  induction cs as [|c r IH]; [reflexivity|].
  simpl. now rewrite filter_app, IH.
Qed.

(** The children of an element after [insertAfter]. *)
Lemma insertAfter_Element :
  forall i new j t a cs,
    exists cs',
      Aud.insertAfter i new (Element j t a cs) = Element j t a cs'
      /\ (forall (A : Type) (g : node -> list A),
            Forall (fun c => incl (g c) (g (Aud.insertAfter i new c))) cs ->
            incl (flat_map g cs) (flat_map g cs')).
Proof.
  intros i new j t a cs. cbn [Aud.insertAfter]. eexists. split; [reflexivity|].
  intros A g H. induction H as [|c r Hc _ IH]; [apply incl_refl|].
  destruct (Nat.eqb (node_id c) i).
  - cbn [flat_map]. apply incl_app; [now apply incl_appl|].
    apply incl_appr. now apply incl_appr.
  - cbn [flat_map]. apply incl_app; [now apply incl_appl|now apply incl_appr].
Qed.

Lemma insertAfter_id :
  forall i new n, node_id (Aud.insertAfter i new n) = node_id n.
Proof. intros i new [j d|j t a cs]; reflexivity. Qed.

Lemma insertAfter_texts :
  forall i new n, incl (texts n) (texts (Aud.insertAfter i new n)).
Proof.
  intros i new n. induction n as [j d|j t a cs IH] using node_induction.
  - apply incl_refl.
  - destruct (insertAfter_Element i new j t a cs) as (cs' & -> & Hcs).
    rewrite !texts_Element. now apply Hcs.
Qed.

Lemma insertAfter_ids :
  forall i new n, incl (ids n) (ids (Aud.insertAfter i new n)).
Proof.
  intros i new n. induction n as [j d|j t a cs IH] using node_induction.
  - apply incl_refl.
  - destruct (insertAfter_Element i new j t a cs) as (cs' & -> & Hcs).
    rewrite !ids_Element. intros x [<-|Hx]; [now left|right].
    now apply (Hcs _ ids IH).
Qed.

Lemma update_eq_on :
  forall (A : Type) (g : node -> list A) i (f : node -> node),
    (forall j t a cs cs',
        flat_map g cs = flat_map g cs' -> g (Element j t a cs) = g (Element j t a cs')) ->
    (forall x, g (f x) = g x) ->
    forall n, g (update i f n) = g n.
Proof.
  intros A g i f Hel Hf n. induction n as [j d|j t a cs IH] using node_induction.
  - simpl. destruct (Nat.eqb j i); [apply Hf|reflexivity].
  - simpl. destruct (Nat.eqb j i); [apply Hf|]. apply Hel.
    induction IH as [|c r Hc _ IHr]; [reflexivity|]. simpl. now rewrite Hc, IHr.
Qed.

Lemma setAttr_texts : forall i name v n, texts (setAttr i name v n) = texts n.
Proof.
  intros i name v n. unfold setAttr. apply update_eq_on.
  - intros j t a cs cs' H. now rewrite !texts_Element.
  - intros [j d|j t a cs]; [reflexivity|]. now rewrite !texts_Element.
Qed.

Lemma setAttr_ids : forall i name v n, ids (setAttr i name v n) = ids n.
Proof.
  intros i name v n. unfold setAttr. apply update_eq_on.
  - intros j t a cs cs' H. rewrite !ids_Element. now rewrite H.
  - intros [j d|j t a cs]; [reflexivity|]. now rewrite !ids_Element.
Qed.

Lemma getAttribute_setAttribute_other :
  forall k k' v a, k <> k' -> getAttribute k (setAttribute k' v a) = getAttribute k a.
Proof.
  intros k k' v a Hk. induction a as [|[k0 w] t IH]; simpl.
  - destruct (String.eqb k' k) eqn:E; [|reflexivity].
    apply String.eqb_eq in E. congruence.
  - destruct (String.eqb k0 k') eqn:E; simpl.
    + apply String.eqb_eq in E. subst k0.
      destruct (String.eqb k' k) eqn:E'; [|reflexivity].
      apply String.eqb_eq in E'. congruence.
    + destruct (String.eqb k0 k); [reflexivity|exact IH].
Qed.

Lemma dropAttr_setAttribute :
  forall k v a, dropAttr k (setAttribute k v a) = dropAttr k a.
Proof.
  intros k v. unfold dropAttr. induction a as [|[k0 w] t IH]; simpl.
  - now rewrite String.eqb_refl.
  - destruct (String.eqb k0 k) eqn:E; simpl; rewrite E; simpl; [reflexivity|].
    now rewrite IH.
Qed.

Lemma isLabel_update :
  forall i (f : node -> node),
    (forall x, isLabel (f x) = isLabel x) ->
    forall n, isLabel (update i f n) = isLabel n.
Proof.
  intros i f Hf [j d|j t a cs]; simpl; destruct (Nat.eqb j i); try apply Hf; reflexivity.
Qed.

Lemma unannotated_update :
  forall i (f : node -> node),
    (forall x, unannotated (f x) = unannotated x) ->
    (forall x, isLabel (f x) = isLabel x) ->
    forall n, unannotated (update i f n) = unannotated n.
Proof.
  intros i f Hf Hl n. induction n as [j d|j t a cs IH] using node_induction.
  - simpl. destruct (Nat.eqb j i); [apply Hf|reflexivity].
  - simpl update. destruct (Nat.eqb j i); [apply Hf|].
    cbn [unannotated]. f_equal.
    induction IH as [|c r Hc _ IHr]; [reflexivity|].
    cbn [List.map keepMap]. rewrite (isLabel_update i f Hl c), Hc, IHr. reflexivity.
Qed.

(** Setting the marker changes nothing else. *)
Lemma unannotated_mark :
  forall i v n, unannotated (setAttr i Aud.CONVERTED_ATTR v n) = unannotated n.
Proof.
  intros i v n. unfold setAttr. apply unannotated_update.
  - intros [j d|j t a cs]; [reflexivity|]. cbn [unannotated].
    now rewrite dropAttr_setAttribute.
  - intros [j d|j t a cs]; [reflexivity|]. cbn [isLabel].
    rewrite getAttribute_setAttribute_other by discriminate. reflexivity.
Qed.

Lemma isLabel_insertAfter :
  forall i new n, isLabel (Aud.insertAfter i new n) = isLabel n.
Proof. intros i new [j d|j t a cs]; reflexivity. Qed.

(** Inserting a label changes nothing else. *)
Lemma unannotated_insertAfter :
  forall i new n,
    isLabel new = true -> unannotated (Aud.insertAfter i new n) = unannotated n.
Proof.
  intros i new n Hnew. induction n as [j d|j t a cs IH] using node_induction.
  - reflexivity.
  - cbn [Aud.insertAfter unannotated]. f_equal.
    induction IH as [|c r Hc _ IHr]; [reflexivity|].
    destruct (Nat.eqb (node_id c) i).
    + cbn [keepMap]. rewrite Hnew. reflexivity.
    + cbn [keepMap]. rewrite isLabel_insertAfter, Hc, IHr. reflexivity.
Qed.

Section Annotates.

Variable labelOf : value -> number -> jsstring.
Variable rate : value.

(** [b] is [a] with labels and markers added: it holds every node of
    [a], the text nodes with their data, and it is [a] once labels and
    markers are taken away. *)
Let annotates (a b : node) : Prop :=
  unannotated b = unannotated a
  /\ incl (texts a) (texts b) /\ incl (ids a) (ids b).

Lemma annotates_candidate_step :
  forall doc seen el,
    annotates doc (fst (fst (Aud.candidate_step labelOf rate doc seen el))).
Proof.
  intros doc seen el. unfold Aud.candidate_step.
  assert (Hrefl : annotates doc doc) by (repeat split; apply incl_refl).
  destruct (lookup el doc) as [e|]; [|exact Hrefl].
  destruct (existsb _ _ || _); [exact Hrefl|].
  destruct (Aud.weeklyAmount e) as [w|]; [|exact Hrefl].
  unfold Aud.insertConversionLabel.
  destruct (Nat.eqb (node_id doc) el); [exact Hrefl|].
  cbn [fst]. split; [|split].
  - rewrite unannotated_mark. now apply unannotated_insertAfter.
  - rewrite setAttr_texts. apply insertAfter_texts.
  - rewrite setAttr_ids. apply insertAfter_ids.
Qed.

Lemma annotates_convert_loop :
  forall cands doc seen,
    annotates doc (fst (Aud.convert_loop labelOf rate cands doc seen)).
Proof.
  induction cands as [|el rest IH]; intros doc seen.
  - repeat split; apply incl_refl.
  - cbn [Aud.convert_loop].
    pose proof (annotates_candidate_step doc seen el) as (H0 & H1 & H2).
    destruct (Aud.candidate_step labelOf rate doc seen el) as [[doc' seen'] [x|]];
      cbn [fst] in *.
    + repeat split; assumption.
    + destruct (IH doc' seen') as (H3 & H4 & H5).
      split; [congruence|]. split; eapply incl_tran; eassumption.
Qed.

End Annotates.

(** X11: the Australian scripts annotate and do not rewrite. After
    [convertPricesOnPage], with either label text and whatever the rate,
    the page with the labels (the [div] elements of the class
    [rea-rent-converted]) and the converted markers taken away is the
    page before the run with them taken away: every other node is in its
    place with its tag, its other attributes and its text. Nothing is
    removed either: every text node of the page is still in the page with
    the text it had, and every node of the page is still there. So the
    run only adds labels and sets markers. *)
Theorem convertPricesOnPage_keeps_the_page :
  forall labelOf rate doc,
    unannotated (fst (Aud.convertPricesOnPage labelOf rate doc)) = unannotated doc
    /\ incl (texts doc) (texts (fst (Aud.convertPricesOnPage labelOf rate doc)))
    /\ incl (ids doc) (ids (fst (Aud.convertPricesOnPage labelOf rate doc))).
Proof.
  intros labelOf rate doc. unfold Aud.convertPricesOnPage.
  apply annotates_convert_loop.
Qed.

(** ** Every debounced re-scan comes from one callback *)

Section DebounceOrigin.

Import Nzd LoopSpec.

Variable rate : number.

Lemma setBy_snoc :
  forall handled e due roots, setBy handled due roots -> setBy (handled ++ [e]) due roots.
Proof.
  intros handled e due roots (now & doc' & records & Hin & H).
  exists now, doc', records. split; [|exact H]. apply in_or_app. now left.
Qed.

Lemma traced_advance :
  forall handled t s, traced handled s -> traced handled (advance rate t s).
Proof.
  intros handled t s H. apply advance_preserves; [| |exact H].
  - intros s' due roots Ht _ (H1 & H2 & H3). unfold traced, fireTimeout, pendingCount in *.
    cbn [timer scans]. rewrite Ht in H3. split; [discriminate|]. split.
    + intros due' roots' [E|Hin]; [|now apply H2].
      injection E as <- <-. now apply H1.
    + unfold debounced in *. cbn [filter List.length]. lia.
  - intros s' _ (H1 & H2 & H3). unfold traced, pendingCount in *.
    rewrite timer_sweepTick, debounced_sweepTick.
    split; [exact H1|]. split; [|exact H3].
    intros due roots Hin. apply H2. unfold sweepTick in Hin.
    destruct (SWEEP_IDLE_MS <? nextSweep s' - lastScrollTime s')%Z; [exact Hin|].
    destruct Hin as [E|Hin]; [discriminate E|exact Hin].
Qed.

Lemma traced_handle :
  forall handled s e, traced handled s -> traced (handled ++ [e]) (handle rate s e).
Proof.
  intros handled s e H. pose proof (traced_advance (event_time e) H) as (H1 & H2 & H3).
  unfold handle. set (s' := advance rate (event_time e) s) in *.
  unfold traced. rewrite filter_app, length_app.
  destruct e as [now doc' records|now].
  - unfold onMutations, pendingCount, addsElements in *.
    cbn [filter List.length].
    destruct (newRoots records) as [|r rs] eqn:E; cbn [timer scans debouncedTransform].
    + split; [|split].
      * intros due roots Ht. apply setBy_snoc. now apply H1.
      * intros due roots Hin. apply setBy_snoc. now apply H2.
      * cbn [List.length]. lia.
    + split; [|split].
      * intros due roots Ht. injection Ht as <- <-.
        exists now, doc', records. split; [apply in_or_app; right; now left|].
        split; [now rewrite E|]. split; [discriminate|reflexivity].
      * intros due roots Hin. apply setBy_snoc. now apply H2.
      * cbn [List.length]. destruct (timer s'); lia.
  - unfold onScroll, pendingCount in *. cbn [timer scans filter addsElements List.length].
    split; [|split].
    + intros due roots Ht. apply setBy_snoc. now apply H1.
    + intros due roots Hin. apply setBy_snoc. now apply H2.
    + lia.
Qed.

Lemma traced_run :
  forall body t0 events horizon, traced events (run rate body t0 events horizon).
Proof.
  intros body t0 events horizon. unfold run. apply traced_advance.
  assert (H0 : traced [] (initWithRate rate body t0)).
  { unfold traced, pendingCount. cbn. split; [discriminate|]. split; [contradiction|lia]. }
  revert H0. generalize (initWithRate rate body t0).
  change events with ([] ++ events) at 1. generalize (@nil event) as handled.
  induction events as [|e r IH]; intros handled s Hs.
  - now rewrite app_nil_r.
  - simpl fold_left. replace (handled ++ e :: r) with ((handled ++ [e]) ++ r)
      by (rewrite <- app_assoc; reflexivity).
    apply IH. now apply traced_handle.
Qed.

End DebounceOrigin.

(** X12: the debounced re-scan never merges batches. In every run of
    the change loop, each debounced re-scan is given the element roots
    added by a single observer callback (never the roots of several) and
    fires [DEBOUNCE_MS] = 200 ms after that callback; and there are no
    more debounced re-scans than callbacks that added an element. *)
Theorem debounced_scan_has_one_origin :
  forall rate body t0 events horizon,
    (forall due roots,
        In (Nzd.DebouncedScan due roots) (Nzd.scans (Nzd.run rate body t0 events horizon)) ->
        setBy events due roots)
    /\ List.length (LoopSpec.debounced (Nzd.scans (Nzd.run rate body t0 events horizon)))
       <= List.length (filter addsElements events).
Proof.
  intros rate body t0 events horizon.
  destruct (traced_run rate body t0 events horizon) as (_ & H2 & H3).
  split; [exact H2|]. lia.
Qed.

Lemma debounced_scan_has_one_origin_witness :
  setBy Examples.burst 450 [5].
Proof.
  apply (proj1 (debounced_scan_has_one_origin Nzd.FALLBACK_RATE Examples.feed0 0
                  Examples.burst 1499) 450%Z [5]).
  vm_compute. left. reflexivity.
Defined.

(** X13: a burst of observer callbacks is answered by one re-scan.
    When each callback of a burst adds an element and follows the one
    before by less than [DEBOUNCE_MS], the debounced re-scans of the run
    are exactly one, due [DEBOUNCE_MS] after the last callback of the
    burst and given the roots of that last callback only. *)
Theorem burst_gets_one_rescan_of_the_last_batch :
  forall rate body t0 now doc' records rest horizon,
    Nzd.newRoots records <> [] ->
    LoopSpec.is_burst now rest ->
    (fst (LoopSpec.burstEnd now (Nzd.newRoots records) rest) + Nzd.DEBOUNCE_MS <= horizon)%Z ->
    LoopSpec.debounced
      (Nzd.scans (Nzd.run rate body t0 (Nzd.Mutations now doc' records :: rest) horizon))
    = [Nzd.DebouncedScan
         (fst (LoopSpec.burstEnd now (Nzd.newRoots records) rest) + Nzd.DEBOUNCE_MS)%Z
         (snd (LoopSpec.burstEnd now (Nzd.newRoots records) rest))].
Proof.
  intros rate body t0 now doc' records rest horizon.
  apply burst_rescans_once_with_last_roots.
Qed.

Lemma burst_gets_one_rescan_of_the_last_batch_witness :
  LoopSpec.debounced
    (Nzd.scans (Nzd.run Nzd.FALLBACK_RATE Examples.feed0 0 Examples.burst 1499))
  = [Nzd.DebouncedScan 450 [5]].
Proof.
  apply (@burst_gets_one_rescan_of_the_last_batch Nzd.FALLBACK_RATE Examples.feed0 0
           100 Examples.feed1 [[Examples.el 3 "p" [Text 4 (lit "$500 per week")]]]
           [Nzd.Mutations 250 Examples.feed2
              [[Examples.el 5 "p" [Text 6 (lit "$600 per week")]]]] 1499).
  - discriminate.
  - simpl. split; [unfold Nzd.DEBOUNCE_MS; lia|]. split; [discriminate|exact I].
  - simpl. unfold Nzd.DEBOUNCE_MS. lia.
Defined.

(** ** The ticks at which the sweep re-scans *)

Section SweepExact.

Import Nzd LoopSpec.

Variable rate : number.

Section HandledExact.

Variables (t0 : Z) (handled : list event).
Hypothesis Hpast : Forall (fun e => (event_time e <= lastTime t0 handled)%Z) handled.

Lemma sweepsExact_fireTimeout :
  forall bound due roots s,
    sweepsExact t0 handled bound s ->
    sweepsExact t0 handled bound (fireTimeout rate due roots s).
Proof. intros bound due roots s H. exact H. Qed.

Lemma sweepsExact_sweepTick :
  forall bound s,
    (nextSweep s <= bound)%Z ->
    sweepsExact t0 handled bound s ->
    sweepsExact t0 handled bound (sweepTick rate (nextSweep s) s).
Proof.
  intros bound s Hb (Hls & (j & Hj & Hns) & Hlt & Hprev & Hex). unfold sweepsExact.
  rewrite nextSweep_sweepTick, lastScrollTime_sweepTick.
  assert (Hlast : lastScroll t0 handled (nextSweep s) = lastScrollTime s).
  { rewrite Hls. apply lastScroll_all.
    eapply Forall_impl; [|exact Hpast]. simpl. intros; lia. }
  unfold SWEEP_INTERVAL_MS, SWEEP_IDLE_MS in *.
  split; [exact Hls|]. split; [exists (j + 1)%Z; unfold SWEEP_INTERVAL_MS; lia|].
  split; [lia|]. split; [lia|].
  intros t. rewrite sweepTimes_sweepTick. unfold SWEEP_IDLE_MS.
  destruct (10000 <? nextSweep s - lastScrollTime s)%Z eqn:E.
  - apply Z.ltb_lt in E. rewrite Hex. split.
    + intros (Ht & Hlt' & Hc). repeat split; [exact Ht|lia|exact Hc].
    + intros ((k & Hk & Ht) & Hlt' & Hc).
      split; [exists k; split; assumption|].
      assert (Hne : t <> nextSweep s).
      { intros Heq. rewrite Heq, Hlast in Hc. lia. }
      unfold SWEEP_INTERVAL_MS in Ht. split; [lia|exact Hc].
  - apply Z.ltb_ge in E. split.
    + intros [<-|Hin].
      * split; [exists j; split; [exact Hj|exact Hns]|]. split; [lia|].
        rewrite Hlast. exact E.
      * apply Hex in Hin as (Ht & Hlt' & Hc). repeat split; [exact Ht|lia|exact Hc].
    + intros ((k & Hk & Ht) & Hlt' & Hc).
      destruct (Z.eq_dec (nextSweep s) t) as [Heq|Hne]; [now left|right].
      apply Hex. split; [exists k; split; assumption|].
      unfold SWEEP_INTERVAL_MS in Ht. split; [lia|exact Hc].
Qed.

Lemma sweepsExact_weaken :
  forall b1 b2 s, (b1 <= b2)%Z -> sweepsExact t0 handled b1 s -> sweepsExact t0 handled b2 s.
Proof.
  intros b1 b2 s Hb (H1 & H2 & H3 & H4 & H5). repeat (split; [assumption|]).
  split; [lia|exact H5].
Qed.

Lemma sweepsExact_advance :
  forall bound t s,
    (bound <= t)%Z ->
    sweepsExact t0 handled bound s -> sweepsExact t0 handled t (advance rate t s).
Proof.
  intros bound t s Hb H. apply advance_preserves.
  - intros s' due roots _ _ Hs. now apply sweepsExact_fireTimeout.
  - intros s' Hle Hs. now apply sweepsExact_sweepTick.
  - now apply (sweepsExact_weaken Hb).
Qed.

Lemma sweepsExact_handle :
  forall s e,
    (lastTime t0 handled <= event_time e)%Z ->
    sweepsExact t0 handled (lastTime t0 handled) s ->
    sweepsExact t0 (handled ++ [e]) (lastTime t0 (handled ++ [e])) (handle rate s e).
Proof.
  intros s e Hle H. rewrite lastTime_snoc.
  pose proof (sweepsExact_advance Hle H) as (Hls & Htick & Hlt & Hprev & Hex).
  pose proof (proj1 (advance_complete rate (event_time e) s)) as Hdone.
  unfold handle. set (s' := advance rate (event_time e) s) in *.
  assert (Hex' : forall t,
    In t (sweepTimes (scans s')) <->
    is_tick t0 t /\ (t < nextSweep s')%Z
    /\ (t - lastScroll t0 (handled ++ [e]) t <= SWEEP_IDLE_MS)%Z).
  { intros t. rewrite Hex, lastScroll_snoc.
    destruct e as [now doc' records|now]; [reflexivity|].
    simpl event_time in *.
    destruct Htick as (j & Hj & Hns).
    assert (Hold : forall k, (1 <= k)%Z -> t = (t0 + k * SWEEP_INTERVAL_MS)%Z ->
                             (t < nextSweep s')%Z -> (now <? t)%Z = false).
    { intros k Hk Ht Hlt'. apply Z.ltb_ge. unfold SWEEP_INTERVAL_MS in *. lia. }
    split; intros ((k & Hk & Ht) & Hlt' & Hc);
      (split; [exists k; split; assumption|]); (split; [exact Hlt'|]);
      pose proof (Hold k Hk Ht Hlt') as Hf;
      [rewrite Hf|rewrite Hf in Hc]; exact Hc. }
  unfold sweepsExact. rewrite lastTime_snoc, latestScroll_snoc.
  destruct e as [now doc' records|now]; simpl event_time in *.
  - destruct (scans_onMutations now doc' records s') as (-> & -> & ->).
    repeat (split; [assumption|]). exact Hex'.
  - cbn [onScroll lastScrollTime nextSweep scans].
    repeat (split; [first [reflexivity|assumption]|]). exact Hex'.
Qed.

End HandledExact.

Lemma sweepsExact_fold :
  forall t0 events handled s,
    Forall (fun x => (event_time x <= lastTime t0 handled)%Z) handled ->
    sorted_from (lastTime t0 handled) events ->
    sweepsExact t0 handled (lastTime t0 handled) s ->
    Forall (fun x => (event_time x <= lastTime t0 (handled ++ events))%Z) (handled ++ events)
    /\ sweepsExact t0 (handled ++ events) (lastTime t0 (handled ++ events))
         (fold_left (handle rate) events s).
Proof.
  intros t0. induction events as [|e r IH]; intros handled s Hpast Hsorted H.
  - rewrite app_nil_r. split; assumption.
  - destruct Hsorted as [Hle Hsorted]. simpl fold_left.
    replace (handled ++ e :: r) with ((handled ++ [e]) ++ r)
      by (rewrite <- app_assoc; reflexivity).
    apply IH.
    + now apply past_snoc.
    + now rewrite lastTime_snoc.
    + now apply sweepsExact_handle.
Qed.

End SweepExact.

(** X14: the ticks at which the fallback sweep re-scans. In a run of
    the change loop started at [t0], over events in the order of their
    times and up to a horizon not before the last of them, the sweep
    re-scans exactly at the ticks [t0 + k * SWEEP_INTERVAL_MS] (k = 1,
    2, ...) up to the horizon at which the last scroll event before the
    tick (the start of the loop when there was none) is at most
    [SWEEP_IDLE_MS] old: at each such tick it does re-scan, and at no
    other time. *)
Theorem sweep_rescans_exactly_at_active_ticks :
  forall rate body t0 events horizon,
    LoopSpec.sorted_from t0 events ->
    (LoopSpec.lastTime t0 events <= horizon)%Z ->
    forall t,
      In t (LoopSpec.sweepTimes (Nzd.scans (Nzd.run rate body t0 events horizon))) <->
      is_tick t0 t /\ (t <= horizon)%Z
      /\ (t - LoopSpec.lastScroll t0 events t <= Nzd.SWEEP_IDLE_MS)%Z.
Proof.
  intros rate body t0 events horizon Hsorted Hh t.
  assert (H0 : sweepsExact t0 [] (LoopSpec.lastTime t0 []) (Nzd.initWithRate rate body t0)).
  { unfold sweepsExact, LoopSpec.lastTime. cbn.
    unfold Nzd.SWEEP_INTERVAL_MS.
    split; [reflexivity|].
    split; [exists 1%Z; unfold Nzd.SWEEP_INTERVAL_MS; lia|]. split; [lia|]. split; [lia|].
    intros t'. split; [contradiction|]. intros ((k & Hk & Ht) & Hlt & _).
    unfold Nzd.SWEEP_INTERVAL_MS in Ht. lia. }
  destruct (@sweepsExact_fold rate t0 events [] _ (Forall_nil _) Hsorted H0) as [Hpast H].
  simpl app in *.
  pose proof (@sweepsExact_advance rate t0 events Hpast _ horizon _ Hh H)
    as (_ & (j & Hj & Hns) & _ & Hprev & Hex).
  pose proof (proj1 (advance_complete rate horizon
                       (fold_left (Nzd.handle rate) events (Nzd.initWithRate rate body t0))))
    as Hdone.
  unfold Nzd.run. rewrite Hex. unfold Nzd.SWEEP_INTERVAL_MS in *.
  split; intros ((k & Hk & Ht) & Hlt & Hc);
    (split; [exists k; split; assumption|]);
    unfold Nzd.SWEEP_INTERVAL_MS in Ht; (split; [lia|exact Hc]).
Qed.

Lemma sweep_rescans_exactly_at_active_ticks_witness :
  In 13500%Z
     (LoopSpec.sweepTimes
        (Nzd.scans (Nzd.run Nzd.FALLBACK_RATE Examples.feed0 0 [Nzd.Scroll 4000] 20000)))
  /\ ~ In 15000%Z
       (LoopSpec.sweepTimes
          (Nzd.scans (Nzd.run Nzd.FALLBACK_RATE Examples.feed0 0 [Nzd.Scroll 4000] 20000))).
Proof.
  assert (Hs : LoopSpec.sorted_from 0 [Nzd.Scroll 4000]) by (simpl; lia).
  assert (Hh : (LoopSpec.lastTime 0 [Nzd.Scroll 4000] <= 20000)%Z)
    by (unfold LoopSpec.lastTime; simpl; lia).
  pose proof (@sweep_rescans_exactly_at_active_ticks Nzd.FALLBACK_RATE Examples.feed0 0
                [Nzd.Scroll 4000] 20000 Hs Hh) as H.
  split.
  - apply (proj2 (H 13500%Z)).
    split; [exists 9%Z; unfold Nzd.SWEEP_INTERVAL_MS; lia|]. split; [lia|].
    unfold LoopSpec.lastScroll, Nzd.SWEEP_IDLE_MS. simpl. lia.
  - intros Hin. apply (proj1 (H 15000%Z)) in Hin. destruct Hin as (_ & _ & Hc).
    unfold LoopSpec.lastScroll, Nzd.SWEEP_IDLE_MS in Hc. simpl in Hc. lia.
Defined.

